(** * OBJ-3D-Display: the BSP pipeline of [BSP/obj_to_bsp.py]

    A shallow embedding of the plane computation, the face classifier, the
    iterative BSP builder, the tree flattener and the binary encoder, with
    the properties the specification states about them.
    The recursive builder of [BSP/build_bsp.py], which the iterative one
    replaces, is embedded in the module [Legacy], the recursive flattener
    of [FixedPoint/export_bsp_bin.py] in the module [Exporter]; centering
    and scaling and [convert_obj_to_bsp] follow them.

    Python values are modelled as follows.
    - A float is an element of an abstract carrier (class [Scalar]); every
      theorem holds for any interpretation of the float operations.  The
      instance [binary64] interprets them with the kernel's IEEE 754
      binary64 numbers and is used to run the code on concrete meshes.
    - An integer is a [Z]; list indexing with an integer follows Python
      (negative indices count from the end, anything else out of range
      raises [IndexError]).
    - An exception is a value of [py_error]; code that may raise returns a
      [result].
    - The node dictionaries that [build_bsp] creates and mutates live in a
      store (a list of cells); a reference to a node is its position in the
      store, and [id(node)] is an injective function of that position. *)

From Stdlib Require Import ZArith List Bool Lia Strings.Byte.
From Stdlib Require Import Floats.PrimFloat Floats.SpecFloat Floats.FloatOps.
From Stdlib Require Import Floats.FloatAxioms.
From stdpp Require Import base option list gmap.
Import ListNotations.

#[local] Unset Default Proof Using.
#[local] Open Scope Z_scope.

(** ** Exceptions *)

Inductive py_error :=
  | ValueError | IndexError | KeyError | TypeError
  | StructError | OverflowError
  | OutOfFuel.

Inductive result (A : Type) :=
  | Ok (a : A)
  | Raise (e : py_error).
Arguments Ok {A} a.
Arguments Raise {A} e.

#[global] Instance result_ret : MRet result := fun _ a => Ok a.
#[global] Instance result_bind : MBind result := fun _ _ k m =>
  match m with Ok a => k a | Raise e => Raise e end.
#[global] Instance result_fmap : FMap result := fun _ _ g m =>
  match m with Ok a => Ok (g a) | Raise e => Raise e end.

Definition is_ok {A} (r : result A) : bool :=
  match r with Ok _ => true | Raise _ => false end.

(** [l[i]] for a Python integer [i]. *)
Definition py_index {A} (l : list A) (i : Z) : result A :=
  let n := Z.of_nat (length l) in
  let j := if i <? 0 then i + n else i in
  if (0 <=? j) && (j <? n)
  then match l !! Z.to_nat j with Some x => Ok x | None => Raise IndexError end
  else Raise IndexError.

(** [l[i]] for an index that the code produced itself ([range], [len]). *)
Definition list_get {A} (l : list A) (i : nat) : result A :=
  match l !! i with Some x => Ok x | None => Raise IndexError end.

(** [for x in l: ...] where the body may raise. *)
Fixpoint mapM {A B} (g : A → result B) (l : list A) : result (list B) :=
  match l with
  | [] => Ok []
  | x :: l' => y ← g x; ys ← mapM g l'; mret (y :: ys)
  end.

(** ** Floats *)

Class Scalar := {
  F : Type;
  f_zero : F;                       (* the literal 0 *)
  f_one : F;                        (* the literals 1 and 1.0 *)
  f_epsilon : F;                    (* the literal 1e-5 *)
  f_add : F → F → F;
  f_sub : F → F → F;
  f_mul : F → F → F;
  f_div : F → F → F;
  f_neg : F → F;
  f_pow_half : F → F;               (* x ** 0.5 *)
  f_eqb : F → F → bool;
  f_ltb : F → F → bool;
  f_gtb : F → F → bool;
  pack_f32 : F → result (list byte) (* struct.pack('<f', x) *)
}.

Notation "a ⊞ b" := (f_add a b) (at level 50, left associativity).
Notation "a ⊟ b" := (f_sub a b) (at level 50, left associativity).
Notation "a ⊠ b" := (f_mul a b) (at level 40, left associativity).

(** A face is the list of its vertex indices. *)
Abbreviation face := (list Z) (only parsing).

Section Geometry.
Context `{Scalar}.

Definition vertex : Type := F * F * F.

Record plane := { point : vertex; normal : F * F * F }.

(** *** PART 3 of obj_to_bsp.py: [face_plane] *)

(** The cross product of the edges [p1 - p0] and [p2 - p0]. *)
Definition cross (p0 p1 p2 : vertex) : F * F * F :=
  let '(p0x, p0y, p0z) := p0 in
  let '(p1x, p1y, p1z) := p1 in
  let '(p2x, p2y, p2z) := p2 in
  let ux := p1x ⊟ p0x in
  let uy := p1y ⊟ p0y in
  let uz := p1z ⊟ p0z in
  let vx := p2x ⊟ p0x in
  let vy := p2y ⊟ p0y in
  let vz := p2z ⊟ p0z in
  (uy ⊠ vz ⊟ uz ⊠ vy, uz ⊠ vx ⊟ ux ⊠ vz, ux ⊠ vy ⊟ uy ⊠ vx).

(** [(nx*nx + ny*ny + nz*nz) ** 0.5] *)
Definition magnitude (n : F * F * F) : F :=
  let '(nx, ny, nz) := n in
  f_pow_half (nx ⊠ nx ⊞ ny ⊠ ny ⊞ nz ⊠ nz).

Definition face_plane (face : face) (vertices : list vertex) : result plane :=
  if (length face <? 3)%nat then Raise ValueError else
  i0 ← py_index face 0; p0 ← py_index vertices i0;
  i1 ← py_index face 1; p1 ← py_index vertices i1;
  i2 ← py_index face 2; p2 ← py_index vertices i2;
  let '(nx, ny, nz) := cross p0 p1 p2 in
  let norm := magnitude (nx, ny, nz) in
  if f_eqb norm f_zero
  then Ok {| point := p0; normal := (f_zero, f_zero, f_one) |}
  else
    let inv_norm := f_div f_one norm in
    Ok {| point := p0;
          normal := (nx ⊠ inv_norm, ny ⊠ inv_norm, nz ⊠ inv_norm) |}.

(** The signed distance [d] of a point to a plane, as both classifiers
    compute it. *)
Definition signed_distance (pl : plane) (p : vertex) : F :=
  let '(ppx, ppy, ppz) := point pl in
  let '(pnx, pny, pnz) := normal pl in
  let '(px, py, pz) := p in
  (px ⊟ ppx) ⊠ pnx ⊞ (py ⊟ ppy) ⊠ pny ⊞ (pz ⊟ ppz) ⊠ pnz.

Inductive side := Front | Back | On | Spanning.

(** The vertex loop of [classify_face]: the flags [front] and [back]. *)
Fixpoint classify_loop (pl : plane) (vertices : list vertex) (idxs : list Z)
    (front back : bool) : result (bool * bool) :=
  match idxs with
  | [] => Ok (front, back)
  | idx :: rest =>
      p ← py_index vertices idx;
      let d := signed_distance pl p in
      if f_gtb d f_epsilon then classify_loop pl vertices rest true back
      else if f_ltb d (f_neg f_epsilon) then classify_loop pl vertices rest front true
      else classify_loop pl vertices rest front back
  end.

Definition classify_face (face : face) (pl : plane) (vertices : list vertex)
    : result side :=
  '(front, back) ← classify_loop pl vertices face false false;
  if front && negb back then Ok Front
  else if back && negb front then Ok Back
  else if negb front && negb back then Ok On
  else Ok Spanning.

End Geometry.

(** *** PART 3 of obj_to_bsp.py: [build_bsp]

    A node is a dictionary with the keys 'plane_face', 'faces_on_plane',
    'front' and 'back'; the children are references to other nodes. *)

(** A reference to a node: its position in the store. *)
Abbreviation loc := nat (only parsing).

Record node := {
  n_plane_face : option face;        (* None only in the placeholder root *)
  n_faces_on_plane : list face;
  n_front : option loc;
  n_back : option loc
}.

Definition new_node : node :=
  {| n_plane_face := None; n_faces_on_plane := []; n_front := None; n_back := None |}.

Inductive field := f_front | f_back.

Abbreviation heap := (list node) (only parsing).

(** [parent[field] = child] *)
Definition set_child (c : node) (fld : option field) (child : option loc) : node :=
  match fld with
  | Some f_front => {| n_plane_face := n_plane_face c; n_faces_on_plane := n_faces_on_plane c;
                       n_front := child; n_back := n_back c |}
  | Some f_back => {| n_plane_face := n_plane_face c; n_faces_on_plane := n_faces_on_plane c;
                      n_front := n_front c; n_back := child |}
  | None => c
  end.

Definition store_child (h : heap) (parent : loc) (fld : option field)
    (child : option loc) : heap :=
  match h !! parent with
  | Some c => <[parent := set_child c fld child]> h
  | None => h
  end.

(** A pending task [(parent_node, face_index_list, field_to_set)]. *)
Definition task : Type := option loc * list nat * option field.

Record build_state := {
  bs_heap : heap;
  bs_stack : list task;              (* head = top of the stack *)
  bs_root : loc
}.

(** The linked tree of the data model (section 3 of the specification): a
    node has the canonical index of its splitting face, the canonical
    indices of the faces coplanar with it, and two possibly absent
    children. *)
Inductive tree :=
  | Leaf
  | Node (plane_idx : nat) (coplanar : list nat) (front back : tree).

Section Builder.
Context `{Scalar}.

(** The inlined classification of one face in [build_bsp], with its two
    early exits. *)
Fixpoint inline_classify (pl : plane) (vertices : list vertex) (idxs : list Z)
    (front back : bool) : result (bool * bool) :=
  match idxs with
  | [] => Ok (front, back)
  | vidx :: rest =>
      p ← py_index vertices vidx;
      let d := signed_distance pl p in
      if f_gtb d f_epsilon then
        if back then Ok (true, back)
        else inline_classify pl vertices rest true back
      else if f_ltb d (f_neg f_epsilon) then
        if front then Ok (front, true)
        else inline_classify pl vertices rest front true
      else inline_classify pl vertices rest front back
  end.

(** [for fi in idx_list[1:]: ...] *)
Fixpoint classify_rest (faces : list face) (vertices : list vertex) (pl : plane)
    (rest : list nat) (idx_on idx_front idx_back : list nat)
    : result (list nat * list nat * list nat) :=
  match rest with
  | [] => Ok (idx_on, idx_front, idx_back)
  | fi :: rest' =>
      f ← list_get faces fi;
      '(front, back) ← inline_classify pl vertices f false false;
      if front && back then
        classify_rest faces vertices pl rest' idx_on (idx_front ++ [fi]) idx_back
      else if front then
        classify_rest faces vertices pl rest' idx_on (idx_front ++ [fi]) idx_back
      else if back then
        classify_rest faces vertices pl rest' idx_on idx_front (idx_back ++ [fi])
      else
        classify_rest faces vertices pl rest' (idx_on ++ [fi]) idx_front idx_back
  end.

(** One iteration of [while stack:], after [stack.pop()]. *)
Definition build_step (faces : list face) (vertices : list vertex)
    (planes : list plane) (t : task) (h : heap) (stack : list task) (root : loc)
    : result build_state :=
  let '(parent, idx_list, fld) := t in
  match idx_list with
  | [] =>
      let h' := match parent, fld with
                | Some p, Some _ => store_child h p fld None
                | _, _ => h
                end in
      Ok {| bs_heap := h'; bs_stack := stack; bs_root := root |}
  | plane_idx :: rest =>
      let nd := length h in
      let h1 := h ++ [new_node] in
      let root' := match parent with None => nd | Some _ => root end in
      let h2 := match parent with None => h1 | Some p => store_child h1 p fld (Some nd) end in
      plane_face ← list_get faces plane_idx;
      pl ← list_get planes plane_idx;
      '(idx_on, idx_front, idx_back) ←
        classify_rest faces vertices pl rest [plane_idx] [] [];
      faces_on ← mapM (list_get faces) idx_on;
      let h3 := <[nd := {| n_plane_face := Some plane_face;
                           n_faces_on_plane := faces_on;
                           n_front := None; n_back := None |}]> h2 in
      let stack1 := match idx_back with
                    | [] => stack
                    | _ => (Some nd, idx_back, Some f_back) :: stack
                    end in
      let stack2 := match idx_front with
                    | [] => stack1
                    | _ => (Some nd, idx_front, Some f_front) :: stack1
                    end in
      Ok {| bs_heap := h3; bs_stack := stack2; bs_root := root' |}
  end.

Fixpoint build_loop (fuel : nat) (faces : list face) (vertices : list vertex)
    (planes : list plane) (st : build_state) : result build_state :=
  match bs_stack st with
  | [] => Ok st
  | t :: stack =>
      match fuel with
      | O => Raise OutOfFuel
      | S fuel' =>
          st' ← build_step faces vertices planes t (bs_heap st) stack (bs_root st);
          build_loop fuel' faces vertices planes st'
      end
  end.

(** [build_bsp] returns the store together with the reference to the root
    ([None] for an empty face list).  Every iteration of the loop uses up
    one face as a splitter, so [len(faces)] iterations are enough. *)
Definition build_bsp (faces : list face) (vertices : list vertex)
    : result (heap * option loc) :=
  match faces with
  | [] => Ok ([], None)
  | _ =>
      let total_faces := length faces in
      planes ← mapM (λ f, face_plane f vertices) faces;
      let face_indices := seq 0 total_faces in
      let st0 := {| bs_heap := [new_node];
                    bs_stack := [(None, face_indices, None)];
                    bs_root := 0%nat |} in
      st ← build_loop total_faces faces vertices planes st0;
      Ok (bs_heap st, Some (bs_root st))
  end.

(** *** The recursive construction of the specification (section 4.3) *)

(** Step 2: classify every other face; spanning faces go to the front. *)
Fixpoint spec_partition (faces : list face) (vertices : list vertex) (pl : plane)
    (others : list nat) : result (list nat * list nat * list nat) :=
  match others with
  | [] => Ok ([], [], [])
  | fi :: rest =>
      f ← list_get faces fi;
      c ← classify_face f pl vertices;
      '(on, fr, bk) ← spec_partition faces vertices pl rest;
      match c with
      | On => Ok (fi :: on, fr, bk)
      | Front | Spanning => Ok (on, fi :: fr, bk)
      | Back => Ok (on, fr, fi :: bk)
      end
  end.

(** Steps 1 to 4, by recursion on the call depth. *)
Fixpoint build_rec (depth : nat) (faces : list face) (vertices : list vertex)
    (partition : list nat) : result tree :=
  match partition with
  | [] => Ok Leaf
  | splitter :: others =>
      match depth with
      | O => Raise OutOfFuel
      | S depth' =>
          f ← list_get faces splitter;
          pl ← face_plane f vertices;
          '(on, fr, bk) ← spec_partition faces vertices pl others;
          t_front ← build_rec depth' faces vertices fr;
          t_back ← build_rec depth' faces vertices bk;
          Ok (Node splitter (splitter :: on) t_front t_back)
      end
  end.

Definition build_spec (faces : list face) (vertices : list vertex) : result tree :=
  build_rec (length faces) faces vertices (seq 0 (length faces)).

End Builder.

(** ** PART 4 of obj_to_bsp.py: flattening *)

Record flat_node := {
  plane_face_idx : Z;
  faces_on_plane_count : Z;
  faces_on_plane_idx_start : Z;
  front_node_idx : Z;
  back_node_idx : Z
}.

(** The attributes of a [FlatBSP] object. *)
Record FlatBSP := {
  fb_nodes : list (option flat_node);   (* None = reserved slot *)
  fb_faces_on_plane : list face;
  fb_faces : list face
}.

(** [FlatBSP.find_face_idx]: the position of the first face equal to
    [face], or 0xFFFF.  The argument is [None] for a placeholder node. *)
Fixpoint find_face_from (i : Z) (faces : list face) (face : option face) : Z :=
  match faces with
  | [] => 0xFFFF
  | f :: faces' =>
      if decide (Some f = face) then i else find_face_from (i + 1) faces' face
  end.

Definition find_face_idx (faces : list face) (face : option face) : Z :=
  find_face_from 0 faces face.

Section Flatten.
(** [id(node)]: distinct live objects have distinct identities. *)
Variable py_id : loc → Z.

(** First pass of [flatten]: breadth-first numbering.  The queue holds
    references (its head is [queue[0]]). *)
Fixpoint index_loop (fuel : nat) (h : heap) (queue : list (option loc))
    (node_to_idx : gmap Z nat) (idx : nat) (nodes : list (option flat_node))
    : result (gmap Z nat * list (option flat_node)) :=
  match queue with
  | [] => Ok (node_to_idx, nodes)
  | nd :: queue' =>
      match fuel with
      | O => Raise OutOfFuel
      | S fuel' =>
          match nd with
          | None => index_loop fuel' h queue' node_to_idx idx nodes
          | Some l =>
              match node_to_idx !! py_id l with
              | Some _ => index_loop fuel' h queue' node_to_idx idx nodes
              | None =>
                  c ← list_get h l;
                  let q1 := match n_front c with
                            | Some _ => queue' ++ [n_front c]
                            | None => queue'
                            end in
                  let q2 := match n_back c with
                            | Some _ => q1 ++ [n_back c]
                            | None => q1
                            end in
                  index_loop fuel' h q2 (<[py_id l := idx]> node_to_idx)
                             (S idx) (nodes ++ [None])
              end
          end
      end
  end.

(** [node_to_idx.get(id(child), -1) if child else -1] *)
Definition child_idx (node_to_idx : gmap Z nat) (child : option loc) : Z :=
  match child with
  | Some l => match node_to_idx !! py_id l with
              | Some i => Z.of_nat i
              | None => -1
              end
  | None => -1
  end.

(** Second pass of [flatten]: depth-first fill (head of the list = top of
    the stack). *)
Fixpoint fill_loop (fuel : nat) (h : heap) (node_to_idx : gmap Z nat)
    (stack : list (option loc)) (fb : FlatBSP) : result FlatBSP :=
  match stack with
  | [] => Ok fb
  | nd :: stack' =>
      match fuel with
      | O => Raise OutOfFuel
      | S fuel' =>
          match nd with
          | None => fill_loop fuel' h node_to_idx stack' fb
          | Some l =>
              node_idx ← match node_to_idx !! py_id l with
                         | Some i => Ok i
                         | None => Raise KeyError
                         end;
              slot ← list_get (fb_nodes fb) node_idx;
              match slot with
              | Some _ => fill_loop fuel' h node_to_idx stack' fb
              | None =>
                  c ← list_get h l;
                  let faces_on := n_faces_on_plane c in
                  let faces_on_start := Z.of_nat (length (fb_faces_on_plane fb)) in
                  let faces_on_count := Z.of_nat (length faces_on) in
                  let front_idx := child_idx node_to_idx (n_front c) in
                  let back_idx := child_idx node_to_idx (n_back c) in
                  let pfi := find_face_idx (fb_faces fb) (n_plane_face c) in
                  let fb' :=
                    {| fb_nodes :=
                         <[node_idx := Some {| plane_face_idx := pfi;
                                               faces_on_plane_count := faces_on_count;
                                               faces_on_plane_idx_start := faces_on_start;
                                               front_node_idx := front_idx;
                                               back_node_idx := back_idx |}]>
                         (fb_nodes fb);
                       fb_faces_on_plane := fb_faces_on_plane fb ++ faces_on;
                       fb_faces := fb_faces fb |} in
                  let s1 := match n_back c with
                            | Some _ => n_back c :: stack'
                            | None => stack'
                            end in
                  let s2 := match n_front c with
                            | Some _ => n_front c :: s1
                            | None => s1
                            end in
                  fill_loop fuel' h node_to_idx s2 fb'
              end
          end
      end
  end.

(** Both loops handle a reference at most once more than twice per stored
    node, so [2 * len(store) + 1] iterations are enough for any store. *)
Definition flatten_fuel (h : heap) : nat := S (2 * length h).

(** [FlatBSP.flatten]: the returned root index and the object afterwards. *)
Definition flatten (h : heap) (root : option loc) (fb : FlatBSP)
    : result (Z * FlatBSP) :=
  match root with
  | None => Ok (-1, fb)
  | Some _ =>
      '(node_to_idx, nodes) ←
        index_loop (flatten_fuel h) h [root] ∅ 0%nat (fb_nodes fb);
      fb' ← fill_loop (flatten_fuel h) h node_to_idx [root]
               {| fb_nodes := nodes;
                  fb_faces_on_plane := fb_faces_on_plane fb;
                  fb_faces := fb_faces fb |};
      Ok (0, fb')
  end.

(** [FlatBSP()] followed by [run(bsp_tree, faces)]. *)
Definition flat_run (h : heap) (bsp_tree : option loc) (faces : list face)
    : result FlatBSP :=
  '(_, fb) ← flatten h bsp_tree
               {| fb_nodes := []; fb_faces_on_plane := []; fb_faces := faces |};
  Ok fb.

End Flatten.

(** ** PART 4 of obj_to_bsp.py: binary export *)

Definition byte_of_Z (z : Z) : byte :=
  match Byte.of_N (Z.to_N (z mod 256)) with
  | Some b => b
  | None => x00
  end.

Definition Z_of_byte (b : byte) : Z := Z.of_N (Byte.to_N b).

(** Two bytes, little-endian, of a value taken modulo 2^16. *)
Definition le16 (z : Z) : list byte :=
  [byte_of_Z z; byte_of_Z (Z.shiftr (z mod 65536) 8)].

(** [struct.pack('<B', x)], [struct.pack('<H', x)], [struct.pack('<h', x)]:
    a value outside the field's range raises [struct.error]. *)
Definition pack_B (x : Z) : result (list byte) :=
  if (0 <=? x) && (x <=? 255) then Ok [byte_of_Z x] else Raise StructError.

Definition pack_H (x : Z) : result (list byte) :=
  if (0 <=? x) && (x <=? 65535) then Ok (le16 x) else Raise StructError.

Definition pack_h (x : Z) : result (list byte) :=
  if (-32768 <=? x) && (x <=? 32767) then Ok (le16 x) else Raise StructError.

Section Encoder.
Context `{Scalar}.

(** [struct.pack('<fff', v[0], v[1], v[2])] *)
Definition pack_fff (v : vertex) : result (list byte) :=
  let '(x, y, z) := v in
  bx ← pack_f32 x; by' ← pack_f32 y; bz ← pack_f32 z;
  Ok (bx ++ by' ++ bz).

Definition pack_header (nv nf nn : nat) : result (list byte) :=
  a ← pack_H (Z.of_nat nv); b ← pack_H (Z.of_nat nf); c ← pack_H (Z.of_nat nn);
  Ok (a ++ b ++ c).

Definition pack_face (face : face) : result (list byte) :=
  n ← pack_B (Z.of_nat (length face));
  idxs ← mapM pack_H face;
  Ok (n ++ concat idxs).

(** A slot that was reserved and never filled is [None], and subscripting
    it raises [TypeError]. *)
Definition pack_node (slot : option flat_node) : result (list byte) :=
  match slot with
  | None => Raise TypeError
  | Some nd =>
      a ← pack_H (plane_face_idx nd);
      b ← pack_H (faces_on_plane_count nd);
      c ← pack_H (faces_on_plane_idx_start nd);
      d ← pack_h (front_node_idx nd);
      e ← pack_h (back_node_idx nd);
      Ok (a ++ b ++ c ++ d ++ e)
  end.

Definition pack_coplanar (faces : list face) (face : face) : result (list byte) :=
  pack_H (find_face_idx faces (Some face)).

(** [write_bsp_binary]: the bytes written to the file when no call raises.
    The coplanar table is resolved with the [find_face_idx] of [flat_bsp],
    that is against [flat_bsp.faces]. *)
Definition write_bsp_binary (vertices : list vertex) (faces : list face)
    (flat_bsp : FlatBSP) : result (list byte) :=
  hdr ← pack_header (length vertices) (length faces) (length (fb_nodes flat_bsp));
  vs ← mapM pack_fff vertices;
  fs ← mapM pack_face faces;
  ns ← mapM pack_node (fb_nodes flat_bsp);
  ts ← mapM (pack_coplanar (fb_faces flat_bsp)) (fb_faces_on_plane flat_bsp);
  Ok (hdr ++ concat vs ++ concat fs ++ concat ns ++ concat ts).

(** Steps 3 to 5 of [convert_obj_to_bsp]: build, flatten, encode. *)
Definition build_flatten_encode (py_id : loc → Z) (vertices : list vertex)
    (faces : list face) : result (list byte) :=
  '(h, bsp_tree) ← build_bsp faces vertices;
  flat_bsp ← flat_run py_id h bsp_tree faces;
  write_bsp_binary vertices faces flat_bsp.

End Encoder.

(** ** The binary64 interpretation of the float operations *)

Module Binary64.

(** The four bytes of the binary32 number nearest to a binary64 number;
    a finite number that rounds to an infinity raises [OverflowError]. *)
Definition bits32 (x : spec_float) : option Z :=
  match x with
  | S754_zero s => Some (if s then 0x80000000 else 0)
  | S754_infinity s => Some (if s then 0xFF800000 else 0x7F800000)
  | S754_nan => Some 0x7FC00000
  | S754_finite s m e =>
      match binary_round 24 128 s m e with
      | S754_zero s' => Some (if s' then 0x80000000 else 0)
      | S754_finite s' m' e' =>
          let sign := if s' then 0x80000000 else 0 in
          if Z.pos m' <? 0x800000 then Some (sign + Z.pos m')
          else Some (sign + (e' + 150) * 0x800000 + (Z.pos m' - 0x800000))
      | _ => None
      end
  end.

Definition pack_f (x : float) : result (list byte) :=
  match bits32 (Prim2SF x) with
  | Some w => Ok [byte_of_Z w; byte_of_Z (Z.shiftr w 8);
                  byte_of_Z (Z.shiftr w 16); byte_of_Z (Z.shiftr w 24)]
  | None => Raise OverflowError
  end.

(** [x ** 0.5] is the C library's [pow(x, 0.5)]; it is taken to be the
    correctly rounded square root. *)
#[global] Instance binary64 : Scalar := {|
  F := float;
  f_zero := 0%float;
  f_one := 1%float;
  f_epsilon := 0x1.4f8b588e368f1p-17%float;
  f_add := PrimFloat.add;
  f_sub := PrimFloat.sub;
  f_mul := PrimFloat.mul;
  f_div := PrimFloat.div;
  f_neg := PrimFloat.opp;
  f_pow_half := PrimFloat.sqrt;
  f_eqb := PrimFloat.eqb;
  f_ltb := PrimFloat.ltb;
  f_gtb := λ a b, PrimFloat.ltb b a;
  pack_f32 := pack_f
|}.

End Binary64.

(** ** Trees as nested dictionaries

    The value that the recursion of [BSP/build_bsp.py] returns, that
    [export_bsp_json] writes and that [FixedPoint/export_bsp_bin.py] loads:
    a node is a dictionary with the keys 'plane_face', 'faces_on_plane',
    'front' and 'back', and its children are dictionaries of their own or
    [None]. *)
Inductive dict_tree :=
  | PyNone
  | Dict (plane_face : face) (faces_on_plane : list face) (front back : dict_tree).

(** The nodes of a tree, the root first. *)
Fixpoint dicts (t : dict_tree) : list dict_tree :=
  match t with
  | PyNone => []
  | Dict _ _ f b => t :: dicts f ++ dicts b
  end.

(** The faces stored in a tree. *)
Fixpoint stored (t : dict_tree) : list face :=
  match t with
  | PyNone => []
  | Dict _ on f b => on ++ stored f ++ stored b
  end.

(** A call nested deeper than the interpreter allows raises
    [RecursionError]: the recursion has run out of frames. *)
Abbreviation RecursionError := OutOfFuel (only parsing).

(** ** The recursive builder of [BSP/build_bsp.py] *)

Module Legacy.

Section Recursive.
Context `{Scalar}.

(** The builtin [sum] of a sequence of floats. *)
Variable py_sum : list F → F.

Definition face_plane (face : face) (vertices : list vertex) : result plane :=
  if (length face <? 3)%nat then Raise ValueError else
  i0 ← py_index face 0; p0 ← py_index vertices i0;
  i1 ← py_index face 1; p1 ← py_index vertices i1;
  i2 ← py_index face 2; p2 ← py_index vertices i2;
  let '(nx, ny, nz) := cross p0 p1 p2 in
  let norm := f_pow_half (py_sum [nx ⊠ nx; ny ⊠ ny; nz ⊠ nz]) in
  if f_eqb norm f_zero
  then Ok {| point := p0; normal := (f_zero, f_zero, f_one) |}
  else Ok {| point := p0;
             normal := (f_div nx norm, f_div ny norm, f_div nz norm) |}.

Definition signed_distance (pl : plane) (p : vertex) : F :=
  let '(ppx, ppy, ppz) := point pl in
  let '(pnx, pny, pnz) := normal pl in
  let '(px, py, pz) := p in
  py_sum [(px ⊟ ppx) ⊠ pnx; (py ⊟ ppy) ⊠ pny; (pz ⊟ ppz) ⊠ pnz].

Fixpoint classify_loop (pl : plane) (vertices : list vertex) (idxs : list Z)
    (front back : bool) : result (bool * bool) :=
  match idxs with
  | [] => Ok (front, back)
  | idx :: rest =>
      p ← py_index vertices idx;
      let d := signed_distance pl p in
      if f_gtb d f_epsilon then classify_loop pl vertices rest true back
      else if f_ltb d (f_neg f_epsilon) then classify_loop pl vertices rest front true
      else classify_loop pl vertices rest front back
  end.

Definition classify_face (face : face) (pl : plane) (vertices : list vertex)
    : result side :=
  '(front, back) ← classify_loop pl vertices face false false;
  if front && negb back then Ok Front
  else if back && negb front then Ok Back
  else if negb front && negb back then Ok On
  else Ok Spanning.

(** [for face in faces: ...] of [build_bsp]. *)
Fixpoint classify_all (vertices : list vertex) (pl : plane) (faces : list face)
    (faces_on faces_front faces_back : list face)
    : result (list face * list face * list face) :=
  match faces with
  | [] => Ok (faces_on, faces_front, faces_back)
  | face :: rest =>
      cls ← classify_face face pl vertices;
      match cls with
      | On => classify_all vertices pl rest (faces_on ++ [face]) faces_front faces_back
      | Front => classify_all vertices pl rest faces_on (faces_front ++ [face]) faces_back
      | Back => classify_all vertices pl rest faces_on faces_front (faces_back ++ [face])
      | Spanning => classify_all vertices pl rest faces_on (faces_front ++ [face]) faces_back
      end
  end.

(** [limit] is the number of nested calls that the interpreter still
    allows; a call beyond it raises [RecursionError]. *)
Fixpoint build_bsp (limit : nat) (faces : list face) (vertices : list vertex)
    : result dict_tree :=
  match limit with
  | O => Raise RecursionError
  | S limit' =>
      match faces with
      | [] => Ok PyNone
      | plane_face :: _ =>
          pl ← face_plane plane_face vertices;
          '(faces_on, faces_front, faces_back) ←
            classify_all vertices pl faces [] [] [];
          front ← build_bsp limit' faces_front vertices;
          back ← build_bsp limit' faces_back vertices;
          Ok (Dict plane_face faces_on front back)
      end
  end.

End Recursive.

End Legacy.

(** ** The recursive flattener of [FixedPoint/export_bsp_bin.py]

    It flattens the nested dictionaries loaded from the JSON file that
    [build_bsp.py] writes; [self.node_indices] is written and never read,
    and is left out.  [write_bsp_bin] is [write_bsp_binary]. *)

Module Exporter.

(** [FlatBSP.flatten]: the returned index and the object afterwards;
    [limit] is the number of nested calls that the interpreter still
    allows. *)
Fixpoint flatten (limit : nat) (node : dict_tree) (fb : FlatBSP)
    : result (Z * FlatBSP) :=
  match limit with
  | O => Raise RecursionError
  | S limit' =>
      match node with
      | PyNone => Ok (-1, fb)
      | Dict plane_face faces_on front back =>
          let idx := length (fb_nodes fb) in
          let faces_on_start := Z.of_nat (length (fb_faces_on_plane fb)) in
          let faces_on_count := Z.of_nat (length faces_on) in
          let fb1 := {| fb_nodes := fb_nodes fb ++ [None];
                        fb_faces_on_plane := fb_faces_on_plane fb ++ faces_on;
                        fb_faces := fb_faces fb |} in
          '(front_idx, fb2) ← flatten limit' front fb1;
          '(back_idx, fb3) ← flatten limit' back fb2;
          let plane_face_idx := find_face_idx (fb_faces fb3) (Some plane_face) in
          Ok (Z.of_nat idx,
              {| fb_nodes :=
                   <[idx := Some {| plane_face_idx := plane_face_idx;
                                    faces_on_plane_count := faces_on_count;
                                    faces_on_plane_idx_start := faces_on_start;
                                    front_node_idx := front_idx;
                                    back_node_idx := back_idx |}]>
                   (fb_nodes fb3);
                 fb_faces_on_plane := fb_faces_on_plane fb3;
                 fb_faces := fb_faces fb3 |})
      end
  end.

(** [FlatBSP()] followed by [run(bsp_tree, faces)]. *)
Definition run (limit : nat) (bsp_tree : dict_tree) (faces : list face)
    : result FlatBSP :=
  '(_, fb) ← flatten limit bsp_tree
               {| fb_nodes := []; fb_faces_on_plane := []; fb_faces := faces |};
  Ok fb.

End Exporter.

(** ** PART 2 of obj_to_bsp.py and the main pipeline *)

Section Pipeline.
Context `{Scalar}.

(** The builtin [sum] of a sequence of floats, and the conversion of an
    [int] to a float that [x / n] performs. *)
Variable py_sum : list F → F.
Variable py_float : Z → F.

(** The builtins [min] and [max] of an iterable: the first item is kept
    until a later one compares smaller (greater); an empty iterable raises
    [ValueError]. *)
Definition py_min (xs : list F) : result F :=
  match xs with
  | [] => Raise ValueError
  | x :: rest => Ok (fold_left (λ m item, if f_ltb item m then item else m) rest x)
  end.

Definition py_max (xs : list F) : result F :=
  match xs with
  | [] => Raise ValueError
  | x :: rest => Ok (fold_left (λ m item, if f_gtb item m then item else m) rest x)
  end.

(** [v[0]], [v[1]] and [v[2]]. *)
Definition v_0 (v : vertex) : F := v.1.1.
Definition v_1 (v : vertex) : F := v.1.2.
Definition v_2 (v : vertex) : F := v.2.

Definition center_and_scale (vertices : list vertex) (target_size : F) :
    result (list vertex) :=
  match vertices with
  | [] => Ok vertices
  | _ =>
      let n := py_float (Z.of_nat (length vertices)) in
      let center := (f_div (py_sum (v_0 <$> vertices)) n,
                     f_div (py_sum (v_1 <$> vertices)) n,
                     f_div (py_sum (v_2 <$> vertices)) n) in
      let centered :=
        (λ v, (v_0 v ⊟ v_0 center, v_1 v ⊟ v_1 center, v_2 v ⊟ v_2 center)) <$> vertices in
      min0 ← py_min (v_0 <$> centered);
      min1 ← py_min (v_1 <$> centered);
      min2 ← py_min (v_2 <$> centered);
      max0 ← py_max (v_0 <$> centered);
      max1 ← py_max (v_1 <$> centered);
      max2 ← py_max (v_2 <$> centered);
      max_range ← py_max [max0 ⊟ min0; max1 ⊟ min1; max2 ⊟ min2];
      let scale :=
        if f_gtb max_range f_zero then f_div target_size max_range else f_one in
      Ok ((λ v, (v_0 v ⊠ scale, v_1 v ⊠ scale, v_2 v ⊠ scale)) <$> centered)
  end.

(** The default scale, 60.0. *)
Definition TARGET_SCALE_SIZE : F := py_float 60.

(** [convert_obj_to_bsp], given what [read_obj] did.  The result is
    [Ok (Some bytes)] when the function returns [True] and has written
    [bytes], [Ok None] when it returns [False], and [Raise e] when the
    exception [e] leaves it.  Only steps 1 and 5 sit in a [try]; what
    [check_fixed32_limits] returns is printed and nothing else.  The output
    path is taken to be writable: the only failures of step 5 are those of
    [struct.pack]. *)
Definition convert_obj_to_bsp (py_id : loc → Z)
    (read_obj : result (list vertex * list face)) (target_size : option F) :
    result (option (list byte)) :=
  let target_size := default TARGET_SCALE_SIZE target_size in
  match read_obj with
  | Raise _ => Ok None
  | Ok (vertices, faces) =>
      vertices ← center_and_scale vertices target_size;
      '(h, bsp_tree) ← build_bsp faces vertices;
      flat_bsp ← flat_run py_id h bsp_tree faces;
      match write_bsp_binary vertices faces flat_bsp with
      | Raise _ => Ok None
      | Ok bytes => Ok (Some bytes)
      end
  end.

End Pipeline.

(** * Notions used to state the properties *)

(** ** Well-formed input *)

(** A Python index is in range when [-len(l) <= i < len(l)]. *)
Definition in_range {A} (l : list A) (i : Z) : Prop :=
  - Z.of_nat (length l) ≤ i < Z.of_nat (length l).

Section WellFormed.
Context `{Scalar}.

(** A face that [face_plane] and [classify_face] accept: at least three
    vertex indices, all of them valid for the vertex list. *)
Definition well_formed_face (vertices : list vertex) (f : face) : Prop :=
  (3 ≤ length f)%nat ∧ Forall (in_range vertices) f.

End WellFormed.

(** ** Trees and their layout in the store *)

Fixpoint size (t : tree) : nat :=
  match t with
  | Leaf => 0
  | Node _ _ f b => S (size f + size b)
  end.

(** A tree whose nodes are tagged with the reference of the dictionary
    that holds them. *)
Inductive ltree :=
  | LLeaf
  | LNode (l : loc) (plane_idx : nat) (coplanar : list nat) (front back : ltree).

Fixpoint erase (lt : ltree) : tree :=
  match lt with
  | LLeaf => Leaf
  | LNode _ pi on f b => Node pi on (erase f) (erase b)
  end.

Fixpoint locs (lt : ltree) : list loc :=
  match lt with
  | LLeaf => []
  | LNode l _ _ f b => l :: locs f ++ locs b
  end.

Definition root_ref (lt : ltree) : option loc :=
  match lt with
  | LLeaf => None
  | LNode l _ _ _ _ => Some l
  end.

(** [repr faces h lt]: the dictionaries of [h] at the references of [lt]
    hold the faces and the children that [lt] describes. *)
Fixpoint repr (faces : list face) (h : heap) (lt : ltree) : Prop :=
  match lt with
  | LLeaf => True
  | LNode l pi on f b =>
      ∃ c, h !! l = Some c
           ∧ is_Some (faces !! pi)
           ∧ n_plane_face c = faces !! pi
           ∧ Forall2 (λ i f, faces !! i = Some f) on (n_faces_on_plane c)
           ∧ n_front c = root_ref f
           ∧ n_back c = root_ref b
           ∧ repr faces h f
           ∧ repr faces h b
  end.

(** The object graph reachable from [root] in [h] is the tree [t]. *)
Definition represents (faces : list face) (h : heap) (root : option loc)
    (t : tree) : Prop :=
  ∃ lt, repr faces h lt ∧ root_ref lt = root ∧ erase lt = t ∧ NoDup (locs lt).

(** The canonical indices stored in the tree, in depth-first order (node,
    front subtree, back subtree). *)
Fixpoint all_coplanar (t : tree) : list nat :=
  match t with
  | Leaf => []
  | Node _ on f b => on ++ all_coplanar f ++ all_coplanar b
  end.

(** The subtrees of a tree, itself first. *)
Fixpoint subtrees (t : tree) : list tree :=
  match t with
  | Leaf => []
  | Node _ _ f b => t :: subtrees f ++ subtrees b
  end.

(** The nodes of a located tree: reference, splitter and coplanar indices. *)
Fixpoint lnodes (lt : ltree) : list (loc * nat * list nat) :=
  match lt with
  | LLeaf => []
  | LNode l pi on f b => (l, pi, on) :: lnodes f ++ lnodes b
  end.

(** A node can be reached from [root] by following child references. *)
Inductive reachable (h : heap) : option loc → loc → Prop :=
  | reach_here l : reachable h (Some l) l
  | reach_front l c l' :
      h !! l = Some c → reachable h (n_front c) l' → reachable h (Some l) l'
  | reach_back l c l' :
      h !! l = Some c → reachable h (n_back c) l' → reachable h (Some l) l'.

#[global] Instance ltree_eq_dec : EqDecision ltree.
Proof. solve_decision. Defined.

(** The subtrees that [flatten] pushes for a child: none for an absent one. *)
Definition kids (lt : ltree) : list ltree :=
  match lt with
  | LLeaf => []
  | _ => [lt]
  end.

Definition forest_locs (ts : list ltree) : list loc := flat_map locs ts.

(** ** The effect of the fill pass *)

Section FillPass.
Variable py_id : loc → Z.
Variable h : heap.

(** The record that the fill pass stores for the node [c] when the
    coplanar table holds [start] faces. *)
Definition flat_record (m : gmap Z nat) (fcs : list face) (start : nat) (c : node)
    : flat_node :=
  {| plane_face_idx := find_face_idx fcs (n_plane_face c);
     faces_on_plane_count := Z.of_nat (length (n_faces_on_plane c));
     faces_on_plane_idx_start := Z.of_nat start;
     front_node_idx := child_idx py_id m (n_front c);
     back_node_idx := child_idx py_id m (n_back c) |}.

(** The effect of the fill pass on a node that it visits for the first time. *)
Definition fill_one (m : gmap Z nat) (fb : FlatBSP) (l : loc) : FlatBSP :=
  match m !! py_id l, h !! l with
  | Some node_idx, Some c =>
      {| fb_nodes := <[node_idx := Some (flat_record m (fb_faces fb)
                                           (length (fb_faces_on_plane fb)) c)]>
                     (fb_nodes fb);
         fb_faces_on_plane := fb_faces_on_plane fb ++ n_faces_on_plane c;
         fb_faces := fb_faces fb |}
  | _, _ => fb
  end.

(** The nodes of [ls] have reserved, pairwise distinct, still empty slots. *)
Definition slots_free (m : gmap Z nat) (nodes : list (option flat_node))
    (ls : list loc) : Prop :=
  (∀ l, l ∈ ls → ∃ i, m !! py_id l = Some i ∧ nodes !! i = Some None)
  ∧ (∀ l l' i, l ∈ ls → l' ∈ ls →
       m !! py_id l = Some i → m !! py_id l' = Some i → l = l').

(** The coplanar faces of the node at [l]. *)
Definition on_of (l : loc) : list face :=
  match h !! l with
  | Some c => n_faces_on_plane c
  | None => []
  end.

End FillPass.

(** The dictionary [node_to_idx] that the first pass of [flatten] leaves
    behind: the slot of every node, by identity.  For the root [None] the
    function returns before it creates the dictionary. *)
Definition node_to_idx (py_id : loc → Z) (h : heap) (root : option loc)
    : result (gmap Z nat) :=
  match root with
  | None => Ok ∅
  | Some _ =>
      '(m, _) ← index_loop py_id (flatten_fuel h) h [root] ∅ 0%nat []; Ok m
  end.

(** Two numberings agree when they give every node the same position. *)
Definition same_numbering (py_id py_id' : loc → Z) (m m' : gmap Z nat) : Prop :=
  ∀ l, m !! py_id l = m' !! py_id' l.

(** ** What the construction guarantees at a node *)

Section NodeInvariant.
Context `{Scalar}.
Variables (faces : list face) (vertices : list vertex).

(** The class of the face [fi] against the plane [pl]. *)
Definition class_of (pl : plane) (fi : nat) (s : side) : Prop :=
  ∃ f, faces !! fi = Some f ∧ classify_face f pl vertices = Ok s.

(** What the construction guarantees at a node: the coplanar set starts
    with the splitter, its other members are on the splitter's plane, the
    front subtree holds front and spanning faces, the back subtree back
    faces. *)
Definition node_ok (t : tree) : Prop :=
  match t with
  | Leaf => True
  | Node pi on tf tb =>
      ∃ fp pl on',
        on = pi :: on'
        ∧ faces !! pi = Some fp
        ∧ face_plane fp vertices = Ok pl
        ∧ (∀ fi, fi ∈ on' → class_of pl fi On)
        ∧ (∀ fi, fi ∈ all_coplanar tf → class_of pl fi Front ∨ class_of pl fi Spanning)
        ∧ (∀ fi, fi ∈ all_coplanar tb → class_of pl fi Back)
  end.

End NodeInvariant.

(** ** The coplanar table *)

(** The indices that [write_bsp_binary] stores in the coplanar table. *)
Definition coplanar_indices (fb : FlatBSP) : list Z :=
  map (λ f, find_face_idx (fb_faces fb) (Some f)) (fb_faces_on_plane fb).

(** The run [(start, count)] of a flat node in that table. *)
Definition coplanar_run (fb : FlatBSP) (nd : flat_node) : list Z :=
  take (Z.to_nat (faces_on_plane_count nd))
       (drop (Z.to_nat (faces_on_plane_idx_start nd)) (coplanar_indices fb)).

(** ** The fields of the binary format *)

(** The ranges of the integer fields. *)
Definition fits_B (x : Z) : Prop := 0 ≤ x ≤ 255.
Definition fits_H (x : Z) : Prop := 0 ≤ x ≤ 65535.
Definition fits_h (x : Z) : Prop := -32768 ≤ x ≤ 32767.

(** Reading the fields back. *)
Definition unpack_B (bs : list byte) : option Z :=
  match bs with
  | [b] => Some (Z_of_byte b)
  | _ => None
  end.

Definition unpack_H (bs : list byte) : option Z :=
  match bs with
  | [b0; b1] => Some (Z_of_byte b0 + 256 * Z_of_byte b1)
  | _ => None
  end.

Definition unpack_h (bs : list byte) : option Z :=
  match bs with
  | [b0; b1] =>
      let u := Z_of_byte b0 + 256 * Z_of_byte b1 in
      Some (if 32768 <=? u then u - 65536 else u)
  | _ => None
  end.

Fixpoint unpack_Hs (bs : list byte) : option (list Z) :=
  match bs with
  | [] => Some []
  | b0 :: b1 :: rest => xs ← unpack_Hs rest; Some ((Z_of_byte b0 + 256 * Z_of_byte b1) :: xs)
  | _ => None
  end.

Definition unpack_header (bs : list byte) : option (Z * Z * Z) :=
  match unpack_Hs bs with
  | Some [a; b; c] => Some (a, b, c)
  | _ => None
  end.

(** A face record: the count byte, then that many indices. *)
Definition unpack_face (bs : list byte) : option (list Z) :=
  match bs with
  | n :: rest =>
      idxs ← unpack_Hs rest;
      if decide (Z.of_nat (length idxs) = Z_of_byte n) then Some idxs else None
  | [] => None
  end.

(** A node record: ten bytes. *)
Definition unpack_node (bs : list byte) : option flat_node :=
  match bs with
  | [a0; a1; b0; b1; c0; c1; d0; d1; e0; e1] =>
      a ← unpack_H [a0; a1]; b ← unpack_H [b0; b1]; c ← unpack_H [c0; c1];
      d ← unpack_h [d0; d1]; e ← unpack_h [e0; e1];
      Some {| plane_face_idx := a; faces_on_plane_count := b;
              faces_on_plane_idx_start := c;
              front_node_idx := d; back_node_idx := e |}
  | _ => None
  end.

(** A slot of the node array that the encoder can write. *)
Definition node_encodable (slot : option flat_node) : Prop :=
  ∃ nd, slot = Some nd
        ∧ fits_H (plane_face_idx nd)
        ∧ fits_H (faces_on_plane_count nd)
        ∧ fits_H (faces_on_plane_idx_start nd)
        ∧ fits_h (front_node_idx nd)
        ∧ fits_h (back_node_idx nd).

Definition face_encodable (f : face) : Prop :=
  fits_B (Z.of_nat (length f)) ∧ Forall fits_H f.

Section Layout.
Context `{Scalar}.

(** The inputs that [write_bsp_binary] writes without raising. *)
Definition encodable (vertices : list vertex) (faces : list face)
    (fb : FlatBSP) : Prop :=
  fits_H (Z.of_nat (length vertices))
  ∧ fits_H (Z.of_nat (length faces))
  ∧ fits_H (Z.of_nat (length (fb_nodes fb)))
  ∧ Forall (λ v, ∃ bs, pack_fff v = Ok bs) vertices
  ∧ Forall face_encodable faces
  ∧ Forall node_encodable (fb_nodes fb)
  ∧ Forall (λ f, fits_H (find_face_idx (fb_faces fb) (Some f)))
           (fb_faces_on_plane fb).

(** The layout of a finished file: the five sections, with every integer
    field reading back as the value it was written from. *)
Definition file_layout (vertices : list vertex) (faces : list face)
    (fb : FlatBSP) (bytes : list byte) : Prop :=
  ∃ hdr vs fs ns ts,
    bytes = hdr ++ concat vs ++ concat fs ++ concat ns ++ concat ts
    ∧ unpack_header hdr
      = Some (Z.of_nat (length vertices), Z.of_nat (length faces),
              Z.of_nat (length (fb_nodes fb)))
    ∧ Forall2 (λ v b, pack_fff v = Ok b) vertices vs
    ∧ Forall2 (λ f b, unpack_face b = Some f) faces fs
    ∧ Forall2 (λ slot b, ∃ nd, slot = Some nd ∧ unpack_node b = Some nd)
              (fb_nodes fb) ns
    ∧ Forall2 (λ f b, unpack_H b = Some (find_face_idx (fb_faces fb) (Some f)))
              (fb_faces_on_plane fb) ts.

End Layout.

(** Some count, length or index is too large for the field that stores it. *)
Definition exceeds_field {A} (vertices : list A) (faces : list face)
    (fb : FlatBSP) : Prop :=
  65536 ≤ Z.of_nat (length vertices)
  ∨ 65536 ≤ Z.of_nat (length faces)
  ∨ 65536 ≤ Z.of_nat (length (fb_nodes fb))
  ∨ (∃ f : face, f ∈ faces
       ∧ (255 < Z.of_nat (length f) ∨ ∃ i, i ∈ f ∧ 65536 ≤ i))
  ∨ (∃ nd, Some nd ∈ fb_nodes fb
       ∧ (65536 ≤ plane_face_idx nd
          ∨ 65536 ≤ faces_on_plane_count nd
          ∨ 65536 ≤ faces_on_plane_idx_start nd
          ∨ 32768 ≤ front_node_idx nd
          ∨ 32768 ≤ back_node_idx nd))
  ∨ (∃ f, f ∈ fb_faces_on_plane fb
       ∧ 65536 ≤ find_face_idx (fb_faces fb) (Some f)).

(** The bounds stated for the encoder: counts and indices
    below 65536, at most 255 vertices per face (indices are not negative,
    and an absent child is -1). *)
Definition within_stated_bounds {A} (vertices : list A) (faces : list face)
    (fb : FlatBSP) : Prop :=
  Z.of_nat (length vertices) < 65536
  ∧ Z.of_nat (length faces) < 65536
  ∧ Z.of_nat (length (fb_nodes fb)) < 65536
  ∧ Forall (λ f : face, Z.of_nat (length f) ≤ 255 ∧ Forall (λ i, 0 ≤ i < 65536) f) faces
  ∧ Forall (λ slot, ∃ nd, slot = Some nd
              ∧ 0 ≤ plane_face_idx nd < 65536
              ∧ 0 ≤ faces_on_plane_count nd < 65536
              ∧ 0 ≤ faces_on_plane_idx_start nd < 65536
              ∧ -1 ≤ front_node_idx nd < 65536
              ∧ -1 ≤ back_node_idx nd < 65536) (fb_nodes fb)
  ∧ Forall (λ f, 0 ≤ find_face_idx (fb_faces fb) (Some f) < 65536)
           (fb_faces_on_plane fb).

(** The class that [build_bsp] reads off the two flags of its inlined
    classification. *)
Definition side_of_flags (front back : bool) : side :=
  if front && back then Spanning
  else if front then Front
  else if back then Back
  else On.

(** ** The tree that the flattened arrays describe *)

(** The linked tree of the data model, with the faces in place of their
    canonical indices. *)
Fixpoint dict_of (faces : list face) (t : tree) : dict_tree :=
  match t with
  | Leaf => PyNone
  | Node pi on f b =>
      Dict (faces !!! pi) ((λ i, faces !!! i) <$> on) (dict_of faces f) (dict_of faces b)
  end.

(** The face at a canonical index, and the faces at a list of them. *)
Definition face_at (faces : list face) (k : Z) : option face :=
  if k <? 0 then None else faces !! Z.to_nat k.

Fixpoint faces_at (faces : list face) (ks : list Z) : option (list face) :=
  match ks with
  | [] => Some []
  | k :: ks' => f ← face_at faces k; fs ← faces_at faces ks'; Some (f :: fs)
  end.

(** Reading the tree below the node at index [i] back from the arrays: -1
    is an absent child, any other index must be that of a filled slot, whose
    splitting face and coplanar run are looked up in the face array. *)
Fixpoint read_tree (fuel : nat) (fb : FlatBSP) (i : Z) : option dict_tree :=
  if i =? -1 then Some PyNone else
  match fuel with
  | O => None
  | S fuel' =>
      if i <? 0 then None else
      slot ← fb_nodes fb !! Z.to_nat i;
      nd ← slot;
      plane_face ← face_at (fb_faces fb) (plane_face_idx nd);
      faces_on ← faces_at (fb_faces fb) (coplanar_run fb nd);
      front ← read_tree fuel' fb (front_node_idx nd);
      back ← read_tree fuel' fb (back_node_idx nd);
      Some (Dict plane_face faces_on front back)
  end.

(** The number of nested calls that a traversal of a tree needs: one for
    an absent child. *)
Fixpoint calls (t : dict_tree) : nat :=
  match t with
  | PyNone => 1
  | Dict _ _ f b => S (calls f `max` calls b)
  end.

(** The index that a child reference gets: -1 for an absent one. *)
Definition index_of (t : dict_tree) (i : nat) : Z :=
  match t with
  | PyNone => -1
  | Dict _ _ _ _ => Z.of_nat i
  end.

(** The records of the nodes of a tree in depth-first order (node, front
    subtree, back subtree), when the first node gets the position [i] and
    its run starts at [s]. *)
Fixpoint records (fcs : list face) (t : dict_tree) (i s : nat) : list flat_node :=
  match t with
  | PyNone => []
  | Dict pf on f b =>
      {| plane_face_idx := find_face_idx fcs (Some pf);
         faces_on_plane_count := Z.of_nat (length on);
         faces_on_plane_idx_start := Z.of_nat s;
         front_node_idx := index_of f (S i);
         back_node_idx := index_of b (S i + length (dicts f)) |}
      :: records fcs f (S i) (s + length on)
      ++ records fcs b (S i + length (dicts f)) (s + length on + length (stored f))
  end.

(** The faces that a tree mentions: splitting faces and coplanar faces. *)
Fixpoint mentioned (t : dict_tree) : list face :=
  match t with
  | PyNone => []
  | Dict pf on f b => pf :: on ++ mentioned f ++ mentioned b
  end.

(** ** A reader of the binary format *)

(** The first [n] bytes and the rest. *)
Definition split_at (n : nat) (bs : list byte) : option (list byte * list byte) :=
  if (length bs <? n)%nat then None else Some (take n bs, drop n bs).

(** [n] face records: a count byte, then that many 16-bit indices. *)
Fixpoint read_faces (n : nat) (bs : list byte) : option (list face * list byte) :=
  match n with
  | O => Some ([], bs)
  | S n' =>
      match bs with
      | [] => None
      | c :: rest =>
          '(raw, rest') ← split_at (2 * Z.to_nat (Z_of_byte c)) rest;
          idxs ← unpack_Hs raw;
          '(fs, rest'') ← read_faces n' rest';
          Some (idxs :: fs, rest'')
      end
  end.

(** [n] node records of ten bytes. *)
Fixpoint read_nodes (n : nat) (bs : list byte) : option (list flat_node * list byte) :=
  match n with
  | O => Some ([], bs)
  | S n' =>
      '(raw, rest) ← split_at 10 bs;
      nd ← unpack_node raw;
      '(nds, rest') ← read_nodes n' rest;
      Some (nd :: nds, rest')
  end.

(** What a reader that knows only the format gets out of a file. *)
Record bsp_file := {
  bf_vertex_count : Z;
  bf_face_count : Z;
  bf_node_count : Z;
  bf_vertex_bytes : list byte;        (* 12 bytes per vertex *)
  bf_faces : list face;
  bf_nodes : list flat_node;
  bf_faces_on_plane : list Z
}.

Definition read_file (bs : list byte) : option bsp_file :=
  '(hdr, rest) ← split_at 6 bs;
  '(nv, nf, nn) ← unpack_header hdr;
  '(vs, rest1) ← split_at (12 * Z.to_nat nv) rest;
  '(fs, rest2) ← read_faces (Z.to_nat nf) rest1;
  '(ns, rest3) ← read_nodes (Z.to_nat nn) rest2;
  ts ← unpack_Hs rest3;
  Some {| bf_vertex_count := nv; bf_face_count := nf; bf_node_count := nn;
          bf_vertex_bytes := vs; bf_faces := fs; bf_nodes := ns;
          bf_faces_on_plane := ts |}.

(** ** Zeros and finite numbers of binary64 *)

(** A float that is +0 or -0, and a float that is neither an infinity nor
    a NaN. *)
Definition zero64 (x : float) : Prop := ∃ s, Prim2SF x = S754_zero s.

Definition finite64 (x : float) : bool :=
  match Prim2SF x with
  | S754_zero _ | S754_finite _ _ _ => true
  | _ => false
  end.

(** The edge from [q] to [p], as [face_plane] computes it. *)
Definition edge (p q : @vertex Binary64.binary64) : float * float * float :=
  let '(px, py, pz) := p in
  let '(qx, qy, qz) := q in
  ((px - qx)%float, (py - qy)%float, (pz - qz)%float).

Definition finite_vec (v : float * float * float) : bool :=
  let '(x, y, z) := v in finite64 x && finite64 y && finite64 z.

(** ** Concrete meshes, run with binary64 floats *)

Module Examples.
Import Binary64.

(** Three points of the plane z = 0, one above it and one below it. *)
Definition pts : list (@vertex binary64) :=
  [(0, 0, 0); (1, 0, 0); (0, 1, 0); (0, 0, 1); (0, 0, -1)]%float.

(** A triangle on z = 0, a triangle above it, one below it and one that
    spans it. *)
Definition tri_faces : list face := [[0; 1; 2]; [0; 1; 3]; [1; 2; 4]; [3; 2; 4]].

(** The store that [build_bsp] returns for these faces; its root is the
    node at position 1. *)
Definition tri_heap : heap :=
  Eval vm_compute in
    match build_bsp tri_faces pts with
    | Ok (h, _) => h
    | Raise _ => []
    end.

(** A pentagon that is not planar: its last two corners lie on either
    side of the plane of its first three. *)
Definition pentagon : face := [0; 1; 2; 3; 4].

(** The same triangle twice. *)
Definition dup_faces : list face := [[0; 1; 2]; [0; 1; 2]].

Definition dup_node : flat_node :=
  {| plane_face_idx := 0; faces_on_plane_count := 2;
     faces_on_plane_idx_start := 0;
     front_node_idx := -1; back_node_idx := -1 |}.

Definition dup_flat : FlatBSP :=
  {| fb_nodes := [Some dup_node];
     fb_faces_on_plane := [[0; 1; 2]; [0; 1; 2]];
     fb_faces := dup_faces |}.

(** Three points on a line. *)
Definition line_pts : list (@vertex binary64) :=
  [(0, 0, 0); (1, 0, 0); (2, 0, 0)]%float.

(** Node identities: addresses sixteen bytes apart. *)
Definition addr (l : loc) : Z := 16 * Z.of_nat l + 4096.

(** A linked tree whose splitting face is not among the faces it is
    flattened against. *)
Definition stray_heap : heap :=
  [{| n_plane_face := Some [0; 2; 1]; n_faces_on_plane := [[0; 2; 1]];
      n_front := None; n_back := None |}].

Definition stray_flat : FlatBSP :=
  {| fb_nodes := [Some {| plane_face_idx := 65535; faces_on_plane_count := 1;
                          faces_on_plane_idx_start := 0;
                          front_node_idx := -1; back_node_idx := -1 |}];
     fb_faces_on_plane := [[0; 2; 1]];
     fb_faces := [[0; 1; 2]] |}.

(** The flattened form of a chain of [n] nodes, each the front child of
    the one before: node [k] splits on face [k] and owns the run [k]. *)
Definition chain_node (n : nat) (k : nat) : option flat_node :=
  Some {| plane_face_idx := Z.of_nat k;
          faces_on_plane_count := 1;
          faces_on_plane_idx_start := Z.of_nat k;
          front_node_idx := if (S k <? n)%nat then Z.of_nat (S k) else -1;
          back_node_idx := -1 |}.

Definition chain_faces (n : nat) : list face :=
  map (λ k, [Z.of_nat k; Z.of_nat k + 1; Z.of_nat k + 2]) (seq 0 n).

Definition chain_flat (n : nat) : FlatBSP :=
  {| fb_nodes := map (chain_node n) (seq 0 n);
     fb_faces_on_plane := chain_faces n;
     fb_faces := chain_faces n |}.

Definition chain_vertices (n : nat) : list (@vertex binary64) :=
  replicate (n + 2) (0, 0, 0)%float.

(** 32769 nodes: the last one has position 32768. *)
Definition long_chain : nat := Z.to_nat 32769.

(** [sum] as additions from 0, left to right. *)
Definition sum64 (xs : list float) : float := fold_left PrimFloat.add xs 0%float.

(** The plane z = 0, as [face_plane] returns it for the first triangle. *)
Definition plane_z0 : @plane binary64 :=
  {| point := (0, 0, 0)%float; normal := (0, 0, 1)%float |}.

(** The tree of the four triangles as nested dictionaries. *)
Definition tri_dict : dict_tree :=
  Dict [0; 1; 2] [[0; 1; 2]]
    (Dict [0; 1; 3] [[0; 1; 3]] PyNone (Dict [3; 2; 4] [[3; 2; 4]] PyNone PyNone))
    (Dict [1; 2; 4] [[1; 2; 4]] PyNone PyNone).

(** The file of the doubled triangle: 6 + 60 + 14 + 10 + 4 bytes. *)
Definition dup_bytes : list byte :=
  Eval vm_compute in
    match write_bsp_binary pts dup_faces dup_flat with
    | Ok bs => bs
    | Raise _ => []
    end.

(** An [int] as the nearest float (of an [int] below 2 ** 1024). *)
Definition float_of_Z (z : Z) : float :=
  match z with
  | Z0 => 0%float
  | Zpos p => SF2Prim (binary_round 53 1024 false p 0)
  | Zneg p => SF2Prim (binary_round 53 1024 true p 0)
  end.

End Examples.

(** * Properties *)

(** ** The error monad and Python indexing *)

Lemma bind_Ok {A B} (m : result A) (k : A → result B) b :
  m ≫= k = Ok b ↔ ∃ a, m = Ok a ∧ k a = Ok b.
Proof.
  destruct m as [a|e]; simpl; split.
  - intros Hk. by exists a.
  - by intros (a' & [= <-] & Hk).
  - discriminate.
  - by intros (a' & [=] & _).
Qed.

Lemma mapM_Ok {A B} (g : A → result B) l ys :
  mapM g l = Ok ys ↔ Forall2 (λ x y, g x = Ok y) l ys.
Proof.
  revert ys. induction l as [|x l IH]; intros ys; simpl.
  - split; [intros [= <-]; constructor | by inversion 1].
  - rewrite bind_Ok. split.
    + intros (y & Hy & Hrest). apply bind_Ok in Hrest as (ys' & Hys & [= <-]).
      constructor; [done | by apply IH].
    + inversion 1 as [|? y ? ys' Hy Hrest]; subst. exists y. split; [done|].
      apply IH in Hrest. by rewrite Hrest.
Qed.

Lemma mapM_total {A B} (g : A → result B) l :
  Forall (λ x, ∃ y, g x = Ok y) l → ∃ ys, mapM g l = Ok ys.
Proof.
  induction 1 as [|x l [y Hy] _ [ys Hys]]; simpl; [by eexists|].
  rewrite Hy, Hys. by eexists.
Qed.

Lemma mapM_length {A B} (g : A → result B) l ys :
  mapM g l = Ok ys → length ys = length l.
Proof. rewrite mapM_Ok. intros Hall. symmetry. by eapply Forall2_length. Qed.

Lemma py_index_in_range {A} (l : list A) i :
  in_range l i → ∃ x, py_index l i = Ok x.
Proof.
  unfold in_range, py_index. intros Hi.
  set (j := if i <? 0 then i + Z.of_nat (length l) else i).
  assert (0 ≤ j < Z.of_nat (length l)) as Hj.
  { unfold j. destruct (Z.ltb_spec i 0); lia. }
  destruct (Z.leb_spec 0 j); [|lia]. destruct (Z.ltb_spec j (Z.of_nat (length l))); [|lia].
  simpl. destruct (lookup_lt_is_Some_2 l (Z.to_nat j)) as [x Hx]; [lia|].
  rewrite Hx. by eexists.
Qed.

Lemma py_index_nat {A} (l : list A) (i : nat) x :
  l !! i = Some x → py_index l (Z.of_nat i) = Ok x.
Proof.
  intros Hx. pose proof (lookup_lt_Some _ _ _ Hx) as Hlt. unfold py_index.
  destruct (Z.ltb_spec (Z.of_nat i) 0); [lia|].
  destruct (Z.leb_spec 0 (Z.of_nat i)); [|lia].
  destruct (Z.ltb_spec (Z.of_nat i) (Z.of_nat (length l))); [|lia].
  simpl. by rewrite Nat2Z.id, Hx.
Qed.

Section GeometryFacts.
Context `{Scalar}.

Lemma face_plane_short (f : face) vertices :
  (length f < 3)%nat → face_plane f vertices = Raise ValueError.
Proof.
  intros Hlen. unfold face_plane. by destruct (Nat.ltb_spec (length f) 3); [|lia].
Qed.

(** What [face_plane] returns for a face with three vertices in range. *)
Lemma face_plane_unfold i0 i1 i2 rest vertices p0 p1 p2 :
  py_index vertices i0 = Ok p0 →
  py_index vertices i1 = Ok p1 →
  py_index vertices i2 = Ok p2 →
  face_plane (i0 :: i1 :: i2 :: rest) vertices =
    Ok (let n := cross p0 p1 p2 in
        if f_eqb (magnitude n) f_zero
        then {| point := p0; normal := (f_zero, f_zero, f_one) |}
        else let inv_norm := f_div f_one (magnitude n) in
             {| point := p0;
                normal := (n.1.1 ⊠ inv_norm, n.1.2 ⊠ inv_norm, n.2 ⊠ inv_norm) |}).
Proof.
  intros H0 H1 H2. unfold face_plane.
  change (length (i0 :: i1 :: i2 :: rest) <? 3)%nat with false.
  pose proof (py_index_nat (i0 :: i1 :: i2 :: rest) 0 i0 eq_refl) as E0.
  pose proof (py_index_nat (i0 :: i1 :: i2 :: rest) 1 i1 eq_refl) as E1.
  pose proof (py_index_nat (i0 :: i1 :: i2 :: rest) 2 i2 eq_refl) as E2.
  change (Z.of_nat 0) with 0 in E0. change (Z.of_nat 1) with 1 in E1.
  change (Z.of_nat 2) with 2 in E2. rewrite E0, E1, E2.
  simpl. rewrite H0. simpl. rewrite H1. simpl. rewrite H2. simpl.
  destruct (cross p0 p1 p2) as [[nx ny] nz]. simpl.
  by destruct (f_eqb _ _).
Qed.

Lemma face_plane_total (f : face) vertices :
  well_formed_face vertices f → ∃ pl, face_plane f vertices = Ok pl.
Proof.
  intros [Hlen Hall].
  destruct f as [|i0 [|i1 [|i2 rest]]]; simpl in Hlen; try lia.
  inversion Hall as [|? ? H0 Hall1]; subst.
  inversion Hall1 as [|? ? H1 Hall2]; subst.
  inversion Hall2 as [|? ? H2 _]; subst.
  apply py_index_in_range in H0 as [p0 H0].
  apply py_index_in_range in H1 as [p1 H1].
  apply py_index_in_range in H2 as [p2 H2].
  erewrite face_plane_unfold by done. by eexists.
Qed.

Lemma classify_loop_total pl vertices (f : face) front back :
  Forall (in_range vertices) f →
  ∃ fb, classify_loop pl vertices f front back = Ok fb.
Proof.
  intros Hall. revert front back.
  induction Hall as [|i f Hi _ IH]; intros front back; simpl; [by eexists|].
  apply py_index_in_range in Hi as [p ->]. simpl.
  destruct (f_gtb _ _); [apply IH|]. destruct (f_ltb _ _); apply IH.
Qed.

Lemma classify_face_total pl vertices (f : face) :
  Forall (in_range vertices) f → ∃ s, classify_face f pl vertices = Ok s.
Proof.
  intros Hall. unfold classify_face.
  destruct (classify_loop_total pl vertices f false false Hall) as [[fr bk] ->].
  simpl. destruct fr, bk; simpl; by eexists.
Qed.

End GeometryFacts.

(** ** Trees and their layout in the store *)

Lemma repr_frame faces h h' lt :
  repr faces h lt → (∀ l, l ∈ locs lt → h' !! l = h !! l) → repr faces h' lt.
Proof.
  induction lt as [|l pi on f IHf b IHb]; simpl; [done|].
  intros (c & Hc & Hpi & Hpf & Hon & Hfr & Hbk & Hrf & Hrb) Hagree.
  exists c. rewrite Hagree by set_solver. repeat split; try done.
  - apply IHf; [done|]. intros l' Hl'. apply Hagree. set_solver.
  - apply IHb; [done|]. intros l' Hl'. apply Hagree. set_solver.
Qed.

Lemma size_erase_locs lt : length (locs lt) = size (erase lt).
Proof.
  induction lt as [|l pi on f IHf b IHb]; simpl; [done|].
  rewrite length_app. lia.
Qed.

Lemma store_child_length h p fld v : length (store_child h p fld v) = length h.
Proof. unfold store_child. destruct (h !! p); [apply length_insert | done]. Qed.

Lemma store_child_ne h p fld v i : i ≠ p → store_child h p fld v !! i = h !! i.
Proof.
  intros Hne. unfold store_child. destruct (h !! p); [|done].
  by apply list_lookup_insert_ne.
Qed.

Lemma store_child_eq h p fld v c :
  h !! p = Some c → store_child h p fld v !! p = Some (set_child c fld v).
Proof.
  intros Hc. unfold store_child. rewrite Hc.
  apply list_lookup_insert_eq. by eapply lookup_lt_Some.
Qed.

Section BuilderFacts.
Context `{Scalar}.

(** Once both flags are set, the rest of the vertex loop cannot change them. *)
Lemma classify_loop_both pl vertices (f : face) r :
  classify_loop pl vertices f true true = Ok r → r = (true, true).
Proof.
  induction f as [|i f IH]; simpl; [by intros [= <-]|].
  destruct (py_index vertices i) as [p|]; simpl; [|done].
  destruct (f_gtb _ _); [done|]. by destruct (f_ltb _ _).
Qed.

(** The early exits of the inlined classification do not change the flags. *)
Lemma inline_classify_agrees pl vertices (f : face) front back r :
  classify_loop pl vertices f front back = Ok r →
  inline_classify pl vertices f front back = Ok r.
Proof.
  revert front back. induction f as [|i f IH]; intros front back; simpl; [done|].
  destruct (py_index vertices i) as [p|]; simpl; [|done].
  destruct (f_gtb _ _).
  - destruct back; [|apply IH]. intros Hr. apply classify_loop_both in Hr. by subst.
  - destruct (f_ltb _ _); [|apply IH].
    destruct front; [|apply IH]. intros Hr. apply classify_loop_both in Hr. by subst.
Qed.

Lemma classify_rest_spec faces vertices pl rest on fr bk a b c :
  spec_partition faces vertices pl rest = Ok (on, fr, bk) →
  classify_rest faces vertices pl rest a b c = Ok (a ++ on, b ++ fr, c ++ bk).
Proof.
  revert on fr bk a b c.
  induction rest as [|fi rest IH]; intros on fr bk a b c; simpl.
  - intros [= <- <- <-]. by rewrite !app_nil_r.
  - intros Hspec.
    apply bind_Ok in Hspec as (f & Hf & Hspec). rewrite Hf. simpl.
    apply bind_Ok in Hspec as (s & Hs & Hspec).
    apply bind_Ok in Hspec as ([[on' fr'] bk'] & Hrest & Hspec).
    unfold classify_face in Hs.
    apply bind_Ok in Hs as ([front back] & Hloop & Hs).
    rewrite (inline_classify_agrees _ _ _ _ _ _ Hloop). simpl.
    destruct front, back; simpl in *; injection Hs as <-;
      injection Hspec as <- <- <-;
      rewrite (IH _ _ _ _ _ _ Hrest), <- ?app_assoc; done.
Qed.

Lemma spec_partition_valid faces vertices pl rest on fr bk :
  spec_partition faces vertices pl rest = Ok (on, fr, bk) →
  Forall (λ i, is_Some (faces !! i)) rest.
Proof.
  revert on fr bk. induction rest as [|fi rest IH]; intros on fr bk; simpl; [done|].
  intros Hspec.
  apply bind_Ok in Hspec as (f & Hf & Hspec).
  apply bind_Ok in Hspec as (s & Hs & Hspec).
  apply bind_Ok in Hspec as ([[on' fr'] bk'] & Hrest & Hspec).
  constructor; [|by eapply IH].
  unfold list_get in Hf. destruct (faces !! fi); [by eexists | done].
Qed.

Lemma spec_partition_perm faces vertices pl rest on fr bk :
  spec_partition faces vertices pl rest = Ok (on, fr, bk) →
  rest ≡ₚ on ++ fr ++ bk.
Proof.
  revert on fr bk. induction rest as [|fi rest IH]; intros on fr bk; simpl.
  - by intros [= <- <- <-].
  - intros Hspec.
    apply bind_Ok in Hspec as (f & Hf & Hspec).
    apply bind_Ok in Hspec as (s & Hs & Hspec).
    apply bind_Ok in Hspec as ([[on' fr'] bk'] & Hrest & Hspec).
    apply IH in Hrest.
    destruct s; injection Hspec as <- <- <-; rewrite Hrest; simpl.
    + by rewrite Permutation_middle.
    + rewrite (Permutation_middle on' (fr' ++ bk') fi).
      by rewrite (Permutation_middle fr' bk' fi).
    + done.
    + by rewrite Permutation_middle.
Qed.

End BuilderFacts.

Section BuilderRefinement.
Context `{Scalar}.
Variables (faces : list face) (vertices : list vertex) (planes : list plane).
Hypothesis Hplanes : Forall2 (λ f pl, face_plane f vertices = Ok pl) faces planes.

Lemma build_loop_step fuel t stack h root :
  build_loop (S fuel) faces vertices planes
    {| bs_heap := h; bs_stack := t :: stack; bs_root := root |} =
  build_step faces vertices planes t h stack root
    ≫= build_loop fuel faces vertices planes.
Proof. done. Qed.

Lemma build_rec_nil depth : build_rec depth faces vertices [] = Ok Leaf.
Proof. by destruct depth. Qed.

Lemma mapM_list_get_valid (idxs : list nat) :
  Forall (λ i, is_Some (faces !! i)) idxs →
  ∃ fs, mapM (list_get faces) idxs = Ok fs
        ∧ Forall2 (λ i f, faces !! i = Some f) idxs fs.
Proof.
  intros Hall. destruct (mapM_total (list_get faces) idxs) as [fs Hfs].
  - eapply Forall_impl; [done|]. intros i [f Hf]. exists f. unfold list_get. by rewrite Hf.
  - exists fs. split; [done|]. apply mapM_Ok in Hfs.
    eapply Forall2_impl; [done|]. intros i f. unfold list_get.
    destruct (faces !! i); by intros [= ->].
Qed.

Lemma build_step_cons parent splitter others fld h stack root f pl on fr bk faces_on :
  list_get faces splitter = Ok f →
  list_get planes splitter = Ok pl →
  classify_rest faces vertices pl others [splitter] [] [] = Ok (on, fr, bk) →
  mapM (list_get faces) on = Ok faces_on →
  build_step faces vertices planes (parent, splitter :: others, fld) h stack root =
  Ok {| bs_heap :=
          <[length h := {| n_plane_face := Some f; n_faces_on_plane := faces_on;
                           n_front := None; n_back := None |}]>
          (match parent with
           | None => h ++ [new_node]
           | Some p => store_child (h ++ [new_node]) p fld (Some (length h))
           end);
        bs_stack :=
          match fr with
          | [] => match bk with
                  | [] => stack
                  | _ => (Some (length h), bk, Some f_back) :: stack
                  end
          | _ => (Some (length h), fr, Some f_front)
                 :: match bk with
                    | [] => stack
                    | _ => (Some (length h), bk, Some f_back) :: stack
                    end
          end;
        bs_root := match parent with None => length h | Some _ => root end |}.
Proof.
  intros Hf Hpl Hrest Hon. unfold build_step.
  rewrite Hf. cbn [mbind result_bind]. rewrite Hpl. cbn [mbind result_bind].
  rewrite Hrest. cbn [mbind result_bind]. rewrite Hon. cbn [mbind result_bind].
  by destruct fr, bk.
Qed.

(** Running the loop on a pending task builds, in fresh cells, the tree
    that the recursive construction returns for the task's faces, links it
    to the parent, and leaves the rest of the store and of the stack as
    they were. *)
Lemma build_loop_task depth : ∀ idxs t,
  build_rec depth faces vertices idxs = Ok t →
  idxs ≠ [] →
  ∀ k h stack root parent fld,
  (∀ p, parent = Some p → (p < length h)%nat) →
  ∃ h' lt,
    build_loop (size t + k) faces vertices planes
      {| bs_heap := h; bs_stack := (parent, idxs, fld) :: stack; bs_root := root |}
    = build_loop k faces vertices planes
      {| bs_heap := h'; bs_stack := stack;
         bs_root := match parent with None => length h | Some _ => root end |}
    ∧ length h' = (length h + size t)%nat
    ∧ (∀ i, (i < length h)%nat → parent ≠ Some i → h' !! i = h !! i)
    ∧ (∀ p c, parent = Some p → h !! p = Some c →
         h' !! p = Some (set_child c fld (Some (length h))))
    ∧ erase lt = t
    ∧ locs lt = seq (length h) (size t)
    ∧ root_ref lt = Some (length h)
    ∧ repr faces h' lt.
Proof.
  induction depth as [|depth IH]; intros idxs t Hrec Hne k h stack root parent fld Hparent.
  { destruct idxs; [done | discriminate]. }
  destruct idxs as [|splitter others]; [done|]. clear Hne. simpl in Hrec.
  apply bind_Ok in Hrec as (f & Hf & Hrec).
  apply bind_Ok in Hrec as (pl & Hpl & Hrec).
  apply bind_Ok in Hrec as ([[on fr] bk] & Hpart & Hrec).
  apply bind_Ok in Hrec as (tf & Htf & Hrec).
  apply bind_Ok in Hrec as (tb & Htb & [= <-]).
  assert (faces !! splitter = Some f) as Hfs.
  { unfold list_get in Hf. destruct (faces !! splitter); by inversion Hf. }
  assert (planes !! splitter = Some pl) as Hpls.
  { destruct (Forall2_lookup_l _ _ _ _ _ Hplanes Hfs) as (pl' & Hpl' & Heq).
    rewrite Heq in Hpl. by injection Hpl as <-. }
  pose proof (spec_partition_valid _ _ _ _ _ _ _ Hpart) as Hvalid.
  pose proof (spec_partition_perm _ _ _ _ _ _ _ Hpart) as Hperm.
  destruct (mapM_list_get_valid (splitter :: on)) as (faces_on & Hmap & Hfaces_on).
  { constructor; [by eexists|].
    rewrite Hperm in Hvalid. by apply Forall_app in Hvalid as [? _]. }
  set (nd := length h).
  set (root' := match parent with None => nd | Some _ => root end).
  set (h2 := match parent with
             | None => h ++ [new_node]
             | Some p => store_child (h ++ [new_node]) p fld (Some nd)
             end).
  set (cell := {| n_plane_face := Some f; n_faces_on_plane := faces_on;
                  n_front := None; n_back := None |}).
  set (h3 := <[nd := cell]> h2).
  assert (length h2 = S nd) as Hlen2.
  { unfold h2. destruct parent; rewrite ?store_child_length, length_app; simpl; lia. }
  assert (length h3 = S nd) as Hlen3 by (unfold h3; by rewrite length_insert).
  assert (h3 !! nd = Some cell) as Hnd3.
  { unfold h3. apply list_lookup_insert_eq. lia. }
  assert (∀ i, (i < nd)%nat → parent ≠ Some i → h3 !! i = h !! i) as Hother3.
  { intros i Hi Hpi. unfold h3. rewrite list_lookup_insert_ne by lia.
    unfold h2. destruct parent as [p|].
    - rewrite store_child_ne by congruence. by apply lookup_app_l.
    - by apply lookup_app_l. }
  assert (∀ p c, parent = Some p → h !! p = Some c →
            h3 !! p = Some (set_child c fld (Some nd))) as Hparent3.
  { intros p c -> Hc. specialize (Hparent p eq_refl).
    unfold h3. rewrite list_lookup_insert_ne by (unfold nd; lia).
    unfold h2. apply store_child_eq. by rewrite lookup_app_l. }
  (* the children *)
  assert (∀ idxs' t' fld' k' hh stk c,
    build_rec depth faces vertices idxs' = Ok t' →
    (nd < length hh)%nat → hh !! nd = Some c →
    ∃ h' lt,
      build_loop (size t' + k') faces vertices planes
        {| bs_heap := hh;
           bs_stack := match idxs' with
                       | [] => stk
                       | _ => (Some nd, idxs', Some fld') :: stk
                       end;
           bs_root := root' |}
      = build_loop k' faces vertices planes
        {| bs_heap := h'; bs_stack := stk; bs_root := root' |}
      ∧ length h' = (length hh + size t')%nat
      ∧ (∀ i, (i < length hh)%nat → i ≠ nd → h' !! i = hh !! i)
      ∧ h' !! nd = Some (match idxs' with
                         | [] => c
                         | _ => set_child c (Some fld') (Some (length hh))
                         end)
      ∧ erase lt = t'
      ∧ locs lt = seq (length hh) (size t')
      ∧ root_ref lt = match idxs' with [] => None | _ => Some (length hh) end
      ∧ repr faces h' lt) as Hchild.
  { intros idxs' t' fld' k' hh stk c Hrec' Hlt Hc.
    destruct idxs' as [|i0 idxs'].
    - rewrite build_rec_nil in Hrec'. injection Hrec' as <-.
      exists hh, LLeaf. simpl. repeat split; try done; lia.
    - destruct (IH (i0 :: idxs') t' Hrec' ltac:(done) k' hh stk root'
                  (Some nd) (Some fld')) as (h' & lt & Hrun & Hlen & Hoth & Hpar & Her & Hlocs & Hroot & Hrepr).
      { by intros p [= <-]. }
      exists h', lt. repeat split; try done.
      + intros i Hi Hne. apply Hoth; [done | congruence].
      + by apply Hpar. }
  set (stack1 := match bk with [] => stack | _ => (Some nd, bk, Some f_back) :: stack end).
  destruct (Hchild fr tf f_front (size tb + k)%nat h3 stack1 cell Htf ltac:(lia) Hnd3)
    as (h4 & ltf & Hrun4 & Hlen4 & Hoth4 & Hnd4 & Her4 & Hlocs4 & Hroot4 & Hrepr4).
  destruct (Hchild bk tb f_back k h4 stack _ Htb ltac:(lia) Hnd4)
    as (h5 & ltb & Hrun5 & Hlen5 & Hoth5 & Hnd5 & Her5 & Hlocs5 & Hroot5 & Hrepr5).
  exists h5, (LNode nd splitter (splitter :: on) ltf ltb).
  split; [|split; [|split; [|split; [|split; [|split; [|split]]]]]].
  - simpl size. rewrite Nat.add_succ_l, build_loop_step.
    erewrite build_step_cons; [|done| |by apply classify_rest_spec|exact Hmap].
    2:{ unfold list_get. by rewrite Hpls. }
    cbn [mbind result_bind].
    rewrite <- Nat.add_assoc.
    etransitivity; [|etransitivity; [exact Hrun4 | exact Hrun5]].
    try (f_equal; f_equal; unfold stack1; by destruct fr, bk).
  - simpl. lia.
  - intros i Hi Hpi. rewrite Hoth5, Hoth4, Hother3; try done; try lia; unfold nd; lia.
  - intros p c Hp Hc. pose proof (Hparent p Hp) as Hlt.
    rewrite Hoth5, Hoth4 by (unfold nd in *; lia). by apply Hparent3.
  - simpl. by rewrite Her4, Her5.
  - simpl. rewrite Hlocs4, Hlocs5, Hlen4, Hlen3. fold nd.
    f_equal. rewrite seq_app. do 2 f_equal.
  - done.
  - simpl. eexists. split; [exact Hnd5|].
    repeat split.
    + by eexists.
    + destruct fr, bk; simpl; done.
    + destruct fr, bk; simpl; done.
    + rewrite Hroot4. destruct fr, bk; simpl; by rewrite ?Hlen3.
    + rewrite Hroot5. destruct fr, bk; simpl; done.
    + eapply repr_frame; [done|]. intros l Hl. rewrite Hlocs4 in Hl.
      apply elem_of_seq in Hl. apply Hoth5; lia.
    + done.
Qed.

Lemma build_loop_done k st :
  bs_stack st = [] → build_loop k faces vertices planes st = Ok st.
Proof. intros Hst. destruct k; simpl; by rewrite Hst. Qed.

End BuilderRefinement.

Section BuildRecFacts.
Context `{Scalar}.
Variables (faces : list face) (vertices : list vertex).

Lemma spec_partition_total pl rest :
  Forall (well_formed_face vertices) faces →
  Forall (λ i, is_Some (faces !! i)) rest →
  ∃ r, spec_partition faces vertices pl rest = Ok r.
Proof.
  intros Hwf. induction 1 as [|fi rest [f Hf] _ [[[on fr] bk] IH]]; simpl; [by eexists|].
  unfold list_get. rewrite Hf. simpl.
  destruct (classify_face_total pl vertices f) as [s ->].
  { eapply Forall_lookup_1 in Hwf as [_ ?]; done. }
  simpl. rewrite IH. simpl. destruct s; by eexists.
Qed.

Lemma build_rec_total depth : ∀ idxs,
  Forall (well_formed_face vertices) faces →
  Forall (λ i, is_Some (faces !! i)) idxs →
  (length idxs ≤ depth)%nat →
  ∃ t, build_rec depth faces vertices idxs = Ok t.
Proof.
  induction depth as [|depth IH]; intros idxs Hwf Hvalid Hlen.
  { destruct idxs; [by eexists | simpl in Hlen; lia]. }
  destruct idxs as [|splitter others]; [by eexists|]. simpl in *.
  inversion Hvalid as [|? ? [f Hf] Hothers]; subst.
  unfold list_get. rewrite Hf. simpl.
  destruct (face_plane_total f vertices) as [pl ->].
  { by eapply Forall_lookup_1 in Hwf. }
  simpl. destruct (spec_partition_total pl others Hwf Hothers) as [[[on fr] bk] Hpart].
  rewrite Hpart. simpl.
  pose proof (spec_partition_perm _ _ _ _ _ _ _ Hpart) as Hperm.
  assert (length others = length on + length fr + length bk)%nat as Hlens.
  { rewrite Hperm, !length_app. lia. }
  rewrite Hperm in Hothers. apply Forall_app in Hothers as [_ Hothers].
  apply Forall_app in Hothers as [Hfr Hbk].
  destruct (IH fr Hwf Hfr) as [tf ->]; [lia|].
  destruct (IH bk Hwf Hbk) as [tb ->]; [lia|].
  by eexists.
Qed.

Lemma build_rec_perm depth : ∀ idxs t,
  build_rec depth faces vertices idxs = Ok t → all_coplanar t ≡ₚ idxs.
Proof.
  induction depth as [|depth IH]; intros [|splitter others] t; simpl;
    intros Hrec; try (by injection Hrec as <-); try discriminate.
  apply bind_Ok in Hrec as (f & Hf & Hrec).
  apply bind_Ok in Hrec as (pl & Hpl & Hrec).
  apply bind_Ok in Hrec as ([[on fr] bk] & Hpart & Hrec).
  apply bind_Ok in Hrec as (tf & Htf & Hrec).
  apply bind_Ok in Hrec as (tb & Htb & [= <-]).
  simpl. rewrite (IH _ _ Htf), (IH _ _ Htb).
  by rewrite (spec_partition_perm _ _ _ _ _ _ _ Hpart).
Qed.

(** Every node uses up its splitting face, so nodes are at most as many
    as faces. *)
Lemma build_rec_size depth : ∀ idxs t,
  build_rec depth faces vertices idxs = Ok t → (size t ≤ length idxs)%nat.
Proof.
  induction depth as [|depth IH]; intros [|splitter others] t; simpl;
    intros Hrec; try (injection Hrec as <-; simpl; lia); try discriminate.
  apply bind_Ok in Hrec as (f & Hf & Hrec).
  apply bind_Ok in Hrec as (pl & Hpl & Hrec).
  apply bind_Ok in Hrec as ([[on fr] bk] & Hpart & Hrec).
  apply bind_Ok in Hrec as (tf & Htf & Hrec).
  apply bind_Ok in Hrec as (tb & Htb & [= <-]).
  pose proof (spec_partition_perm _ _ _ _ _ _ _ Hpart) as Hperm.
  apply IH in Htf. apply IH in Htb. simpl. rewrite Hperm, !length_app. lia.
Qed.

Lemma build_spec_total :
  Forall (well_formed_face vertices) faces →
  ∃ t, build_spec faces vertices = Ok t.
Proof.
  intros Hwf. apply build_rec_total; [done | | by rewrite length_seq].
  apply Forall_forall. intros i Hi%elem_of_seq. apply lookup_lt_is_Some. lia.
Qed.

(** The iterative builder returns the tree of the recursive construction. *)
Lemma build_bsp_represents t :
  Forall (well_formed_face vertices) faces →
  build_spec faces vertices = Ok t →
  ∃ h root, build_bsp faces vertices = Ok (h, root) ∧ represents faces h root t.
Proof.
  intros Hwf Hspec. unfold build_bsp.
  destruct faces as [|f0 faces'] eqn:Hfaces.
  { injection Hspec as <-. exists [], None. split; [done|].
    exists LLeaf. repeat split; constructor. }
  rewrite <- Hfaces in *.
  destruct (mapM_total (λ f, face_plane f vertices) faces) as [planes Hplanes].
  { eapply Forall_impl; [done|]. intros f. apply face_plane_total. }
  rewrite Hplanes. cbn [mbind result_bind].
  apply mapM_Ok in Hplanes.
  pose proof (build_rec_size _ _ _ Hspec) as Hsize. rewrite length_seq in Hsize.
  destruct (build_loop_task faces vertices planes Hplanes _ _ _ Hspec
              ltac:(by rewrite Hfaces) (length faces - size t)%nat
              [new_node] [] 0%nat None None ltac:(done))
    as (h' & lt & Hrun & Hlen & _ & _ & Her & Hlocs & Hroot & Hrepr).
  replace (size t + (length faces - size t))%nat with (length faces) in Hrun by lia.
  rewrite Hrun, build_loop_done by done. cbn [mbind result_bind bs_heap bs_root].
  eexists _, _. split; [done|]. exists lt. repeat split; try done.
  rewrite Hlocs. apply NoDup_seq.
Qed.

End BuildRecFacts.

Lemma forest_locs_app ts1 ts2 :
  forest_locs (ts1 ++ ts2) = forest_locs ts1 ++ forest_locs ts2.
Proof. apply flat_map_app. Qed.

Lemma forest_locs_kids lt : forest_locs (kids lt) = locs lt.
Proof. destruct lt; simpl; [done|]. by rewrite app_nil_r. Qed.

Lemma kids_nonleaf lt : Forall (λ t, root_ref t ≠ None) (kids lt).
Proof. destruct lt; simpl; repeat constructor. done. Qed.

Lemma kids_repr faces h lt : repr faces h lt → Forall (repr faces h) (kids lt).
Proof. destruct lt; simpl; repeat constructor. done. Qed.

Lemma push_kid (q : list (option loc)) lt :
  match root_ref lt with
  | Some _ => q ++ [root_ref lt]
  | None => q
  end = q ++ map root_ref (kids lt).
Proof. destruct lt; simpl; [by rewrite app_nil_r | done]. Qed.

Lemma push_kid_top (s : list (option loc)) (o : option loc) lt :
  o = root_ref lt →
  match o with
  | Some _ => o :: s
  | None => s
  end = map root_ref (kids lt) ++ s.
Proof. intros ->. by destruct lt. Qed.

Section FlattenFacts.
Variable py_id : loc → Z.
Hypothesis py_id_inj : Inj (=) (=) py_id.
Variables (faces : list face) (h : heap).

Lemma index_loop_nil fuel (m : gmap Z nat) idx nodes :
  index_loop py_id fuel h [] m idx nodes = Ok (m, nodes).
Proof. by destruct fuel. Qed.

(** The numbering pass gives the nodes of the queued subtrees the next
    free positions, one each, in some order, and reserves their slots. *)
Lemma index_loop_spec n : ∀ ts,
  length (forest_locs ts) = n →
  Forall (λ t, root_ref t ≠ None) ts →
  Forall (repr faces h) ts →
  NoDup (forest_locs ts) →
  ∀ k (m : gmap Z nat) idx nodes,
  (∀ l, l ∈ forest_locs ts → m !! py_id l = None) →
  ∃ m' order,
    index_loop py_id (n + k) h (map root_ref ts) m idx nodes
      = Ok (m', nodes ++ replicate n None)
    ∧ order ≡ₚ forest_locs ts
    ∧ (∀ j l, order !! j = Some l → m' !! py_id l = Some (idx + j)%nat)
    ∧ (∀ z, (∀ l, l ∈ order → z ≠ py_id l) → m' !! z = m !! z)
    ∧ (∀ t, head ts = Some t → head order = head (locs t)).
Proof.
  induction n as [|n IH]; intros ts Hlen Hnl Hrepr Hnd k m idx nodes Hfresh.
  { destruct ts as [|[|l pi on f b] ts]; simpl in Hlen; try discriminate.
    - exists m, []. simpl. rewrite app_nil_r, index_loop_nil. by repeat split.
    - inversion Hnl; subst. done. }
  destruct ts as [|[|l pi on f b] ts]; simpl in Hlen; try discriminate.
  { inversion Hnl; subst. done. }
  inversion Hnl as [|? ? _ Hnl']; subst.
  inversion Hrepr as [|? ? Hnode Hrepr']; subst.
  destruct Hnode as (c & Hc & Hpi & Hpf & Hon & Hfr & Hbk & Hrf & Hrb).
  simpl in Hnd. apply NoDup_cons in Hnd as [Hl Hnd].
  set (ts' := ts ++ kids f ++ kids b).
  assert (forest_locs ts' ≡ₚ (locs f ++ locs b) ++ forest_locs ts) as Hperm.
  { unfold ts'. rewrite !forest_locs_app, !forest_locs_kids.
    apply Permutation_app_comm. }
  destruct (IH ts') with (k := k) (m := <[py_id l := idx]> m) (idx := S idx)
                         (nodes := nodes ++ [None])
    as (m' & order & Hrun & Hord & Hidx & Hout & _).
  - rewrite Hperm. injection Hlen as Hlen. exact Hlen.
  - unfold ts'. rewrite !Forall_app. auto using kids_nonleaf.
  - unfold ts'. rewrite !Forall_app. auto using kids_repr.
  - by rewrite Hperm.
  - intros l' Hl'. rewrite Hperm in Hl'.
    rewrite lookup_insert_ne.
    + apply Hfresh. simpl. right. done.
    + intros Heq%py_id_inj. subst l'. done.
  - exists m', (l :: order). split; [|split; [|split; [|split]]].
    + simpl. rewrite (Hfresh l) by (simpl; left).
      unfold list_get. rewrite Hc. cbn [mbind result_bind].
      rewrite Hfr, Hbk, !push_kid, <- app_assoc, <- !map_app.
      fold ts'. rewrite Hrun. do 2 f_equal. rewrite <- app_assoc. done.
    + simpl. by rewrite Hord, Hperm.
    + intros [|j] l' Hj; simpl in Hj.
      * injection Hj as <-. rewrite Hout, lookup_insert_eq; [f_equal; lia|].
        intros l' Hl' Heq%py_id_inj. subst l'. rewrite Hord, Hperm in Hl'. done.
      * rewrite (Hidx _ _ Hj). f_equal. lia.
    + intros z Hz. rewrite Hout.
      * apply lookup_insert_ne. intros Heq. by apply (Hz l); [left|].
      * intros l' Hl'. apply Hz. by right.
    + by intros t [= <-].
Qed.

Lemma fill_loop_nil fuel (m : gmap Z nat) fb :
  fill_loop py_id fuel h m [] fb = Ok fb.
Proof. by destruct fuel. Qed.

Lemma slots_free_perm m nodes ls ls' :
  ls ≡ₚ ls' → slots_free py_id m nodes ls → slots_free py_id m nodes ls'.
Proof.
  intros Hp [Hdom Hinj]. split.
  - intros l Hl. apply Hdom. by rewrite Hp.
  - intros l l' i Hl Hl'. apply Hinj; by rewrite Hp.
Qed.

(** The fill pass visits the nodes of the stacked subtrees depth-first,
    front child before back child, each once. *)
Lemma fill_loop_spec (m : gmap Z nat) n : ∀ ts,
  length (forest_locs ts) = n →
  Forall (λ t, root_ref t ≠ None) ts →
  Forall (repr faces h) ts →
  NoDup (forest_locs ts) →
  ∀ k fb,
  slots_free py_id m (fb_nodes fb) (forest_locs ts) →
  fill_loop py_id (n + k) h m (map root_ref ts) fb
    = Ok (foldl (fill_one py_id h m) fb (forest_locs ts)).
Proof.
  induction n as [|n IH]; intros ts Hlen Hnl Hrepr Hnd k fb Hfree.
  { destruct ts as [|[|l pi on f b] ts]; simpl in Hlen; try discriminate.
    - by rewrite fill_loop_nil.
    - inversion Hnl; subst. done. }
  destruct ts as [|[|l pi on f b] ts]; simpl in Hlen; try discriminate.
  { inversion Hnl; subst. done. }
  inversion Hnl as [|? ? _ Hnl']; subst.
  inversion Hrepr as [|? ? Hnode Hrepr']; subst.
  destruct Hnode as (c & Hc & Hpi & Hpf & Hon & Hfr & Hbk & Hrf & Hrb).
  simpl in Hnd. apply NoDup_cons in Hnd as [Hl Hnd].
  destruct Hfree as [Hdom Hinj].
  destruct (Hdom l) as (i & Hi & Hslot); [by left|].
  set (ts' := kids f ++ kids b ++ ts).
  assert (forest_locs ts' = (locs f ++ locs b) ++ forest_locs ts) as Hlocs.
  { unfold ts'. by rewrite !forest_locs_app, !forest_locs_kids, app_assoc. }
  simpl. rewrite Hi. cbn [mbind result_bind].
  assert (list_get (fb_nodes fb) i = Ok None) as -> by (unfold list_get; by rewrite Hslot).
  cbn [mbind result_bind].
  assert (list_get h l = Ok c) as -> by (unfold list_get; by rewrite Hc).
  cbn [mbind result_bind].
  rewrite (push_kid_top _ _ b Hbk), (push_kid_top _ _ f Hfr).
  rewrite app_assoc, <- !map_app, <- app_assoc. fold ts'.
  unfold fill_one at 2. rewrite Hi, Hc.
  fold (forest_locs ts). rewrite <- Hlocs.
  apply IH.
  - rewrite Hlocs. by injection Hlen.
  - unfold ts'. rewrite !Forall_app. auto using kids_nonleaf.
  - unfold ts'. rewrite !Forall_app. auto using kids_repr.
  - by rewrite Hlocs.
  - rewrite Hlocs. split.
    + intros l' Hl'. destruct (Hdom l') as (i' & Hi' & Hslot'); [by right|].
      exists i'. split; [done|]. simpl.
      rewrite list_lookup_insert_ne; [done|].
      intros Heq. subst i'. assert (l = l') as <-.
      { apply (Hinj l l' i); try done; [by left | by right]. }
      done.
    + intros l1 l2 i' Hl1 Hl2. apply Hinj; by right.
Qed.

End FlattenFacts.

Section FillFacts.
Variable py_id : loc → Z.
Variable h : heap.

Lemma fill_fold_faces m ls : ∀ fb,
  fb_faces (foldl (fill_one py_id h m) fb ls) = fb_faces fb.
Proof.
  induction ls as [|l ls IH]; intros fb; simpl; [done|].
  rewrite IH. unfold fill_one. by destruct (m !! py_id l), (h !! l).
Qed.

Lemma fill_fold_faces_one m fb l :
  fb_faces (fill_one py_id h m fb l) = fb_faces fb.
Proof. unfold fill_one. by destruct (m !! py_id l), (h !! l). Qed.

Lemma fill_fold_length m ls : ∀ fb,
  length (fb_nodes (foldl (fill_one py_id h m) fb ls)) = length (fb_nodes fb).
Proof.
  induction ls as [|l ls IH]; intros fb; simpl; [done|].
  rewrite IH. unfold fill_one. destruct (m !! py_id l), (h !! l); simpl; try done.
  apply length_insert.
Qed.

Lemma fill_fold_table (m : gmap Z nat) ls : ∀ fb,
  (∀ l, l ∈ ls → is_Some (m !! py_id l)) →
  fb_faces_on_plane (foldl (fill_one py_id h m) fb ls)
    = fb_faces_on_plane fb ++ concat (map (on_of h) ls).
Proof.
  induction ls as [|l ls IH]; intros fb Hdom; simpl; [by rewrite app_nil_r|].
  rewrite IH by (intros l' Hl'; apply Hdom; by right).
  destruct (Hdom l) as [i Hi]; [by left|].
  unfold fill_one, on_of. rewrite Hi. destruct (h !! l); simpl.
  - by rewrite app_assoc.
  - done.
Qed.

Lemma fill_fold_other (m : gmap Z nat) ls i : ∀ fb,
  (∀ l, l ∈ ls → m !! py_id l ≠ Some i) →
  fb_nodes (foldl (fill_one py_id h m) fb ls) !! i = fb_nodes fb !! i.
Proof.
  induction ls as [|l ls IH]; intros fb Hne; simpl; [done|].
  rewrite IH by (intros l' Hl'; apply Hne; by right).
  unfold fill_one. destruct (m !! py_id l) as [i'|] eqn:Hi'; [|done].
  destruct (h !! l); [|done]. simpl.
  apply list_lookup_insert_ne. intros ->. by apply (Hne l); [left|].
Qed.

(** After the fill pass, the slot of the [j]-th visited node holds its
    record, whose run starts where the runs of the nodes before it end. *)
Lemma fill_fold_slot (m : gmap Z nat) ls : ∀ fb j l c i,
  (∀ l l' i, l ∈ ls → l' ∈ ls →
     m !! py_id l = Some i → m !! py_id l' = Some i → l = l') →
  (∀ l, l ∈ ls → is_Some (m !! py_id l)) →
  NoDup ls →
  ls !! j = Some l → h !! l = Some c → m !! py_id l = Some i →
  (i < length (fb_nodes fb))%nat →
  fb_nodes (foldl (fill_one py_id h m) fb ls) !! i
    = Some (Some (flat_record py_id m (fb_faces fb)
                    (length (fb_faces_on_plane fb)
                     + length (concat (map (on_of h) (take j ls)))) c)).
Proof.
  induction ls as [|l0 ls IH]; intros fb j l c i Hinj Hdom Hnd Hj Hc Hi Hlt; [done|].
  apply NoDup_cons in Hnd as [Hl0 Hnd].
  destruct j as [|j]; simpl in Hj.
  - injection Hj as ->. simpl.
    rewrite fill_fold_other.
    + unfold fill_one. rewrite Hi, Hc. simpl.
      rewrite list_lookup_insert_eq by done. by rewrite Nat.add_0_r.
    + intros l' Hl' Hi'. assert (l = l') as <-; [|done].
      apply (Hinj l l' i); try done; [by left | by right].
  - simpl foldl. erewrite IH; try done.
    + rewrite fill_fold_faces_one. do 3 f_equal.
      destruct (Hdom l0) as [i0 Hi0]; [by left|].
      unfold fill_one, on_of. rewrite Hi0. simpl.
      destruct (h !! l0); simpl; rewrite ?length_app; lia.
    + intros l1 l2 i' Hl1 Hl2. apply Hinj; by right.
    + intros l' Hl'. apply Hdom. by right.
    + unfold fill_one. destruct (m !! py_id l0), (h !! l0); simpl; try done.
      by rewrite length_insert.
Qed.

End FillFacts.

Lemma repr_locs_valid faces h lt l :
  repr faces h lt → l ∈ locs lt → is_Some (h !! l).
Proof.
  induction lt as [|l0 pi on f IHf b IHb]; simpl; [by intros _ ?%elem_of_nil|].
  intros (c & Hc & _ & _ & _ & _ & _ & Hrf & Hrb) Hl.
  apply elem_of_cons in Hl as [->|Hl]; [by eexists|].
  apply elem_of_app in Hl as [Hl|Hl]; auto.
Qed.

Lemma repr_locs_bound faces h lt :
  repr faces h lt → NoDup (locs lt) → (length (locs lt) ≤ length h)%nat.
Proof.
  intros Hrepr Hnd.
  replace (length h) with (length (seq 0 (length h))) by apply length_seq.
  apply submseteq_length, NoDup_submseteq; [done|].
  intros l Hl. apply elem_of_seq. split; [lia|].
  apply lookup_lt_is_Some. by eapply repr_locs_valid.
Qed.

Section FlatRun.
Variable py_id : loc → Z.
Hypothesis py_id_inj : Inj (=) (=) py_id.
Variables (faces : list face) (h : heap).

(** What [FlatBSP.run] computes for a linked tree: the numbering [m], the
    dictionary of the first pass, is a bijection between the nodes and the
    slots, the slot of each node holds its record, and the coplanar table
    is the concatenation of the nodes' coplanar faces in depth-first
    order. *)
Lemma flat_run_spec_idx lt fcs :
  repr faces h lt → NoDup (locs lt) → lt ≠ LLeaf →
  ∃ (m : gmap Z nat) fb,
    flat_run py_id h (root_ref lt) fcs = Ok fb
    ∧ fb_faces fb = fcs
    ∧ length (fb_nodes fb) = length (locs lt)
    ∧ fb_faces_on_plane fb = concat (map (on_of h) (locs lt))
    ∧ (∀ j l c, locs lt !! j = Some l → h !! l = Some c →
         ∃ i, m !! py_id l = Some i
              ∧ fb_nodes fb !! i
                = Some (Some (flat_record py_id m fcs
                    (length (concat (map (on_of h) (take j (locs lt))))) c)))
    ∧ (∀ i, (i < length (locs lt))%nat →
         ∃ l, l ∈ locs lt ∧ m !! py_id l = Some i)
    ∧ (∀ l l' i, l ∈ locs lt → l' ∈ locs lt →
         m !! py_id l = Some i → m !! py_id l' = Some i → l = l')
    ∧ (∀ l, root_ref lt = Some l → m !! py_id l = Some 0%nat)
    ∧ node_to_idx py_id h (root_ref lt) = Ok m.
Proof.
  intros Hrepr Hnd Hnl.
  set (n := length (locs lt)).
  pose proof (repr_locs_bound _ _ _ Hrepr Hnd) as Hbound.
  assert (forest_locs [lt] = locs lt) as Hfl by apply app_nil_r.
  assert (root_ref lt ≠ None) as Hroot by (by destruct lt).
  destruct (index_loop_spec py_id py_id_inj faces h n [lt]) with
    (k := (flatten_fuel h - n)%nat) (m := (∅ : gmap Z nat)) (idx := 0%nat)
    (nodes := @nil (option flat_node))
    as (m & order & Hidx & Hord & Hnum & _ & Hhead); try done.
  { by rewrite Hfl. }
  { by repeat constructor. }
  { by repeat constructor. }
  { by rewrite Hfl. }
  rewrite Hfl in Hord.
  replace (n + (flatten_fuel h - n))%nat with (flatten_fuel h) in Hidx
    by (unfold flatten_fuel; lia).
  assert (length order = n) as Hlen_order by (by rewrite Hord).
  assert (∀ l l' i, l ∈ locs lt → l' ∈ locs lt →
            m !! py_id l = Some i → m !! py_id l' = Some i → l = l') as Hinj.
  { intros l l' i Hl Hl' Hi Hi'. rewrite <- Hord in Hl, Hl'.
    apply list_elem_of_lookup in Hl as [j Hj], Hl' as [j' Hj'].
    rewrite (Hnum _ _ Hj) in Hi. rewrite (Hnum _ _ Hj') in Hi'.
    simpl in Hi, Hi'. assert (j = j') as <- by congruence. congruence. }
  assert (slots_free py_id m (replicate n None) (locs lt)) as Hfree.
  { split; [|done]. intros l Hl. rewrite <- Hord in Hl.
    apply list_elem_of_lookup in Hl as [j Hj]. exists j. split; [by apply Hnum|].
    apply lookup_replicate_2. apply lookup_lt_Some in Hj. lia. }
  pose proof (fill_loop_spec py_id faces h m n [lt]) as Hfill.
  rewrite Hfl in Hfill.
  specialize (Hfill eq_refl ltac:(by repeat constructor) ltac:(by repeat constructor)
                Hnd (flatten_fuel h - n)%nat
                {| fb_nodes := replicate n None; fb_faces_on_plane := [];
                   fb_faces := fcs |} Hfree).
  replace (n + (flatten_fuel h - n))%nat with (flatten_fuel h) in Hfill
    by (unfold flatten_fuel; lia).
  exists m. eexists.
  split; [|split; [|split; [|split; [|split; [|split; [|split; [|split]]]]]]].
  - unfold flat_run, flatten. destruct (root_ref lt) eqn:Hr; [|exfalso; by apply Hroot].
    simpl map in Hidx, Hfill. rewrite Hr in Hidx, Hfill.
    cbn [fb_nodes fb_faces_on_plane fb_faces]. rewrite Hidx. cbn [mbind result_bind fb_nodes app].
    cbn [fb_faces_on_plane fb_faces]. rewrite Hfill. cbn [mbind result_bind]. done.
  - by rewrite fill_fold_faces.
  - rewrite fill_fold_length. simpl. by rewrite length_replicate.
  - rewrite fill_fold_table; [done|].
    intros l Hl. destruct Hfree as [Hdom _]. destruct (Hdom l Hl) as (i & -> & _). by eexists.
  - intros j l c Hj Hc. destruct Hfree as [Hdom _].
    destruct (Hdom l) as (i & Hi & Hslot); [by eapply list_elem_of_lookup_2|].
    exists i. split; [done|].
    erewrite fill_fold_slot; try done.
    + intros l' Hl'. destruct (Hdom l' Hl') as (i' & -> & _). by eexists.
    + simpl. by eapply lookup_lt_Some.
  - intros i Hi. destruct (lookup_lt_is_Some_2 order i) as [l Hl]; [lia|].
    exists l. split; [rewrite <- Hord; by eapply list_elem_of_lookup_2|].
    by rewrite (Hnum _ _ Hl).
  - done.
  - intros l Hl. destruct lt as [|l0 pi on f b]; [done|]. injection Hl as <-.
    specialize (Hhead _ eq_refl). simpl in Hhead.
    destruct order as [|l1 order]; [done|]. injection Hhead as ->.
    by rewrite (Hnum 0%nat l0).
  - unfold node_to_idx. destruct (root_ref lt) eqn:Hr; [|exfalso; by apply Hroot].
    simpl map in Hidx. rewrite Hr in Hidx. by rewrite Hidx.
Qed.

(** The same, for some numbering. *)
Lemma flat_run_spec lt fcs :
  repr faces h lt → NoDup (locs lt) → lt ≠ LLeaf →
  ∃ (m : gmap Z nat) fb,
    flat_run py_id h (root_ref lt) fcs = Ok fb
    ∧ fb_faces fb = fcs
    ∧ length (fb_nodes fb) = length (locs lt)
    ∧ fb_faces_on_plane fb = concat (map (on_of h) (locs lt))
    ∧ (∀ j l c, locs lt !! j = Some l → h !! l = Some c →
         ∃ i, m !! py_id l = Some i
              ∧ fb_nodes fb !! i
                = Some (Some (flat_record py_id m fcs
                    (length (concat (map (on_of h) (take j (locs lt))))) c)))
    ∧ (∀ i, (i < length (locs lt))%nat →
         ∃ l, l ∈ locs lt ∧ m !! py_id l = Some i)
    ∧ (∀ l l' i, l ∈ locs lt → l' ∈ locs lt →
         m !! py_id l = Some i → m !! py_id l' = Some i → l = l')
    ∧ (∀ l, root_ref lt = Some l → m !! py_id l = Some 0%nat).
Proof.
  intros Hrepr Hnd Hnl.
  destruct (flat_run_spec_idx lt fcs Hrepr Hnd Hnl)
    as (m & fb & H1 & H2 & H3 & H4 & H5 & H6 & H7 & H8 & _).
  by exists m, fb.
Qed.

End FlatRun.

Lemma lnodes_locs lt : (lnodes lt).*1.*1 = locs lt.
Proof.
  induction lt as [|l pi on f IHf b IHb]; simpl; [done|].
  by rewrite !fmap_app, IHf, IHb.
Qed.

Lemma reachable_lnodes faces h lt l :
  repr faces h lt → reachable h (root_ref lt) l →
  ∃ pi on, (l, pi, on) ∈ lnodes lt.
Proof.
  intros Hrepr Hreach. remember (root_ref lt) as r eqn:Hr.
  revert lt Hrepr Hr.
  induction Hreach as [l|l c l' Hc _ IH|l c l' Hc _ IH]; intros lt Hrepr Hr;
    destruct lt as [|l0 pi on f b]; simpl in Hr; try discriminate;
    injection Hr as ->; simpl in Hrepr;
    destruct Hrepr as (c' & Hc' & _ & _ & _ & Hfr & Hbk & Hrf & Hrb).
  - exists pi, on. simpl. by left.
  - rewrite Hc in Hc'. injection Hc' as <-.
    destruct (IH f Hrf Hfr) as (pi' & on' & Hin).
    exists pi', on'. simpl. right. apply elem_of_app. by left.
  - rewrite Hc in Hc'. injection Hc' as <-.
    destruct (IH b Hrb Hbk) as (pi' & on' & Hin).
    exists pi', on'. simpl. right. apply elem_of_app. by right.
Qed.

Lemma locs_reachable faces h lt l :
  repr faces h lt → l ∈ locs lt → reachable h (root_ref lt) l.
Proof.
  induction lt as [|l0 pi on f IHf b IHb]; simpl; [by intros _ ?%elem_of_nil|].
  intros (c & Hc & _ & _ & _ & Hfr & Hbk & Hrf & Hrb) Hin.
  apply elem_of_cons in Hin as [->|Hin]; [constructor|].
  apply elem_of_app in Hin as [Hin|Hin].
  - eapply reach_front; [done|]. rewrite Hfr. by apply IHf.
  - eapply reach_back; [done|]. rewrite Hbk. by apply IHb.
Qed.

Lemma reachable_locs faces h lt l :
  repr faces h lt → reachable h (root_ref lt) l → l ∈ locs lt.
Proof.
  intros Hrepr Hreach.
  destruct (reachable_lnodes _ _ _ _ Hrepr Hreach) as (pi & on & Hin).
  rewrite <- lnodes_locs.
  apply (list_elem_of_fmap_2 fst) in Hin. apply (list_elem_of_fmap_2 fst) in Hin.
  exact Hin.
Qed.

Lemma lnodes_repr faces h lt l pi on :
  repr faces h lt → (l, pi, on) ∈ lnodes lt →
  ∃ c, h !! l = Some c
       ∧ is_Some (faces !! pi)
       ∧ n_plane_face c = faces !! pi
       ∧ Forall2 (λ i f, faces !! i = Some f) on (n_faces_on_plane c).
Proof.
  induction lt as [|l0 pi0 on0 f IHf b IHb]; simpl; [by intros _ ?%elem_of_nil|].
  intros (c & Hc & Hpi & Hpf & Hon & _ & _ & Hrf & Hrb) Hin.
  apply elem_of_cons in Hin as [[= -> -> ->]|Hin]; [by exists c|].
  apply elem_of_app in Hin as [Hin|Hin]; auto.
Qed.

Lemma lnodes_subtrees lt l pi on :
  (l, pi, on) ∈ lnodes lt → ∃ f b, Node pi on f b ∈ subtrees (erase lt).
Proof.
  induction lt as [|l0 pi0 on0 f IHf b IHb]; simpl; [by intros ?%elem_of_nil|].
  intros Hin. apply elem_of_cons in Hin as [[= -> -> ->]|Hin].
  { eexists _, _. by left. }
  apply elem_of_app in Hin as [Hin|Hin].
  - destruct (IHf Hin) as (f' & b' & Hsub). exists f', b'. right.
    apply elem_of_app. by left.
  - destruct (IHb Hin) as (f' & b' & Hsub). exists f', b'. right.
    apply elem_of_app. by right.
Qed.

Section TreeInvariants.
Context `{Scalar}.
Variables (faces : list face) (vertices : list vertex).

Lemma spec_partition_classes pl rest on fr bk :
  spec_partition faces vertices pl rest = Ok (on, fr, bk) →
  (∀ fi, fi ∈ on → class_of faces vertices pl fi On)
  ∧ (∀ fi, fi ∈ fr → class_of faces vertices pl fi Front ∨ class_of faces vertices pl fi Spanning)
  ∧ (∀ fi, fi ∈ bk → class_of faces vertices pl fi Back).
Proof.
  revert on fr bk. induction rest as [|fi0 rest IH]; intros on fr bk; simpl.
  { intros [= <- <- <-]. repeat split; by intros ? ?%elem_of_nil. }
  intros Hspec.
  apply bind_Ok in Hspec as (f & Hf & Hspec).
  apply bind_Ok in Hspec as (s & Hs & Hspec).
  apply bind_Ok in Hspec as ([[on' fr'] bk'] & Hrest & Hspec).
  destruct (IH _ _ _ Hrest) as (Hon & Hfr & Hbk).
  assert (class_of faces vertices pl fi0 s) as Hcls.
  { exists f. split; [|done]. unfold list_get in Hf.
    destruct (faces !! fi0); by inversion Hf. }
  destruct s; injection Hspec as <- <- <-; repeat split; try done;
    intros fi [->|Hin]%elem_of_cons; auto.
Qed.

Lemma build_rec_nodes depth : ∀ idxs t,
  build_rec depth faces vertices idxs = Ok t →
  Forall (node_ok faces vertices) (subtrees t).
Proof.
  induction depth as [|depth IH]; intros [|splitter others] t; simpl;
    intros Hrec; try (injection Hrec as <-; constructor); try discriminate.
  apply bind_Ok in Hrec as (f & Hf & Hrec).
  apply bind_Ok in Hrec as (pl & Hpl & Hrec).
  apply bind_Ok in Hrec as ([[on fr] bk] & Hpart & Hrec).
  apply bind_Ok in Hrec as (tf & Htf & Hrec).
  apply bind_Ok in Hrec as (tb & Htb & [= <-]).
  simpl. constructor; [|apply Forall_app; split; eauto].
  destruct (spec_partition_classes _ _ _ _ _ Hpart) as (Hon & Hfr & Hbk).
  exists f, pl, on. repeat split; try done.
  - unfold list_get in Hf. destruct (faces !! splitter); by inversion Hf.
  - intros fi Hfi. apply Hfr. by rewrite <- (build_rec_perm _ _ _ _ _ Htf).
  - intros fi Hfi. apply Hbk. by rewrite <- (build_rec_perm _ _ _ _ _ Htb).
Qed.

End TreeInvariants.

Section Claims.
Context `{Scalar}.

(** C9: for a face whose vertex indices are in range, [face_plane] raises
    exactly when the face has fewer than three vertices, the exception is
    then the [ValueError] of the length check, and a face with three or
    more vertices gets a plane. *)
Theorem face_plane_raises_iff (f : face) (vertices : list vertex) :
  Forall (in_range vertices) f →
  ((∃ e, face_plane f vertices = Raise e) ↔ (length f < 3)%nat)
  ∧ (∀ e, face_plane f vertices = Raise e → e = ValueError)
  ∧ ((3 ≤ length f)%nat → ∃ pl, face_plane f vertices = Ok pl).
Proof.
  intros Hall.
  assert ((3 ≤ length f)%nat → ∃ pl, face_plane f vertices = Ok pl) as Hok.
  { intros Hlen. by apply face_plane_total. }
  destruct (Nat.lt_ge_cases (length f) 3) as [Hlt|Hge].
  - pose proof (face_plane_short f vertices Hlt) as Hshort.
    split; [|split].
    + split; [done|]. intros _. by eexists.
    + intros e He. congruence.
    + lia.
  - destruct (Hok Hge) as [pl Hpl]. split; [|split].
    + split; [|lia]. intros [e He]. congruence.
    + intros e He. congruence.
    + done.
Qed.

(** C8: when the cross product of the first two edges of a face has
    magnitude zero, [face_plane] returns the plane through the first vertex
    with the default normal (0, 0, 1), and any face whose indices are in
    range is classified against that plane without an exception. *)
Theorem face_plane_degenerate (f : face) (vertices : list vertex)
    i0 i1 i2 rest p0 p1 p2 :
  f = i0 :: i1 :: i2 :: rest →
  py_index vertices i0 = Ok p0 →
  py_index vertices i1 = Ok p1 →
  py_index vertices i2 = Ok p2 →
  f_eqb (magnitude (cross p0 p1 p2)) f_zero = true →
  face_plane f vertices = Ok {| point := p0; normal := (f_zero, f_zero, f_one) |}
  ∧ ∀ g : face, Forall (in_range vertices) g →
      ∃ s, classify_face g {| point := p0; normal := (f_zero, f_zero, f_one) |}
             vertices = Ok s.
Proof.
  intros -> H0 H1 H2 Hzero. split.
  - rewrite (face_plane_unfold _ _ _ _ _ _ _ _ H0 H1 H2). cbv zeta. by rewrite Hzero.
  - intros g Hg. by apply classify_face_total.
Qed.

(** C2: on a mesh whose faces have at least three vertex indices, all in
    range, the work-list construction of [build_bsp] succeeds and the
    linked nodes it returns are the tree of the recursive construction:
    same splitting face, same coplanar faces, same subtrees at every node. *)
Theorem iterative_build_refines_recursive (faces : list face) (vertices : list vertex) :
  Forall (well_formed_face vertices) faces →
  ∃ t h root,
    build_spec faces vertices = Ok t
    ∧ build_bsp faces vertices = Ok (h, root)
    ∧ represents faces h root t.
Proof.
  intros Hwf.
  destruct (build_spec_total faces vertices Hwf) as [t Ht].
  destruct (build_bsp_represents faces vertices t Hwf Ht) as (h & root & Hbuild & Hrep).
  by exists t, h, root.
Qed.

(** C4: every node that can be reached from the root returned by
    [build_bsp] has a splitting face, and that face is the first of the
    node's coplanar faces, which are therefore not empty. *)
Theorem coplanar_contains_splitter (faces : list face) (vertices : list vertex) h root :
  Forall (well_formed_face vertices) faces →
  build_bsp faces vertices = Ok (h, root) →
  ∀ l, reachable h root l →
    ∃ c f, h !! l = Some c
           ∧ n_plane_face c = Some f
           ∧ head (n_faces_on_plane c) = Some f
           ∧ f ∈ n_faces_on_plane c.
Proof.
  intros Hwf Hbuild l Hreach.
  destruct (build_spec_total faces vertices Hwf) as [t Ht].
  destruct (build_bsp_represents faces vertices t Hwf Ht)
    as (h' & root' & Hbuild' & lt & Hrepr & Hroot & Her & Hnd).
  rewrite Hbuild in Hbuild'. injection Hbuild' as <- <-.
  rewrite <- Hroot in Hreach.
  destruct (reachable_lnodes _ _ _ _ Hrepr Hreach) as (pi & on & Hin).
  destruct (lnodes_repr _ _ _ _ _ _ Hrepr Hin) as (c & Hc & [f Hf] & Hpf & Hon).
  destruct (lnodes_subtrees _ _ _ _ Hin) as (tf & tb & Hsub).
  rewrite Her in Hsub.
  pose proof (build_rec_nodes _ _ _ _ _ Ht) as Hok.
  rewrite Forall_forall in Hok. specialize (Hok _ Hsub).
  destruct Hok as (fp & pl & on' & -> & Hfp & _).
  inversion Hon as [|? f' ? fs Hf' Hrest Heq1 Heq2]; subst.
  rewrite Hf in Hf'. injection Hf' as <-.
  exists c, f. rewrite <- Heq2. repeat split; try done.
  - by rewrite Hpf.
  - by left.
Qed.

(** C5: a face that is classified against a node's plane (every face the
    node receives other than its splitting face, which is never classified)
    and spans it ends up in the node's front subtree, not in its back
    subtree and not among its coplanar faces; and the tree holds every face
    index exactly once, so no face is divided. *)
Theorem spanning_goes_front (faces : list face) (vertices : list vertex) :
  Forall (well_formed_face vertices) faces →
  ∃ t h root,
    build_bsp faces vertices = Ok (h, root)
    ∧ represents faces h root t
    ∧ (all_coplanar t ≡ₚ seq 0 (length faces))
    ∧ ∀ pi on tf tb fi fp f pl,
        Node pi on tf tb ∈ subtrees t →
        fi ∈ all_coplanar (Node pi on tf tb) →
        fi ≠ pi →
        faces !! pi = Some fp →
        face_plane fp vertices = Ok pl →
        faces !! fi = Some f →
        classify_face f pl vertices = Ok Spanning →
        fi ∈ all_coplanar tf ∧ (fi ∉ all_coplanar tb) ∧ (fi ∉ on).
Proof.
  intros Hwf.
  destruct (build_spec_total faces vertices Hwf) as [t Ht].
  destruct (build_bsp_represents faces vertices t Hwf Ht) as (h & root & Hbuild & Hrep).
  pose proof (build_rec_perm _ _ _ _ _ Ht) as Hperm.
  exists t, h, root. split; [done|]. split; [done|]. split; [done|].
  intros pi on tf tb fi fp f pl Hsub Hin Hne Hfp Hpl Hf Hspan.
  pose proof (build_rec_nodes _ _ _ _ _ Ht) as Hok.
  rewrite Forall_forall in Hok. specialize (Hok _ Hsub).
  destruct Hok as (fp' & pl' & on' & -> & Hfp' & Hpl' & Hon & Hfr & Hbk).
  rewrite Hfp in Hfp'. injection Hfp' as <-.
  rewrite Hpl in Hpl'. injection Hpl' as <-.
  assert (∀ s, class_of faces vertices pl fi s → s = Spanning) as Hcls.
  { intros s (f' & Hf' & Hs). congruence. }
  assert (fi ∉ on') as Hnot_on.
  { intros Hi. by specialize (Hcls _ (Hon _ Hi)). }
  assert (fi ∉ all_coplanar tb) as Hnot_back.
  { intros Hi. by specialize (Hcls _ (Hbk _ Hi)). }
  split; [|split; [done|]].
  - simpl in Hin. apply elem_of_cons in Hin as [->|Hin]; [done|].
    apply elem_of_app in Hin as [?|Hin]; [done|].
    by apply elem_of_app in Hin as [?|?].
  - by intros [->|?]%elem_of_cons.
Qed.

End Claims.

(** ** The face lookup *)

Lemma find_face_from_not_in i (fcs : list face) (f : face) :
  f ∉ fcs → find_face_from i fcs (Some f) = 0xFFFF.
Proof.
  revert i. induction fcs as [|g fcs IH]; intros i Hnot; simpl; [done|].
  destruct (decide (Some g = Some f)) as [[= ->]|Hne].
  - exfalso. apply Hnot. by left.
  - apply IH. intros Hin. apply Hnot. by right.
Qed.

Lemma find_face_from_in i (fcs : list face) (f : face) :
  f ∈ fcs →
  ∃ k, fcs !! k = Some f
       ∧ find_face_from i fcs (Some f) = i + Z.of_nat k
       ∧ ∀ k', (k' < k)%nat → fcs !! k' ≠ Some f.
Proof.
  revert i. induction fcs as [|g fcs IH]; intros i Hin; simpl.
  { by apply elem_of_nil in Hin. }
  destruct (decide (Some g = Some f)) as [[= ->]|Hne].
  - exists 0%nat. repeat split; [lia|]. intros k' Hk'. lia.
  - apply elem_of_cons in Hin as [->|Hin]; [done|].
    destruct (IH (i + 1) Hin) as (k & Hk & Hfind & Hfirst).
    exists (S k). repeat split; [done | lia |].
    intros [|k'] Hk'; simpl; [congruence|]. apply Hfirst. lia.
Qed.

Lemma find_face_idx_None (fcs : list face) : find_face_idx fcs None = 0xFFFF.
Proof.
  unfold find_face_idx. generalize 0. induction fcs as [|g fcs IH]; intros i; simpl; [done|].
  destruct (decide (Some g = None)); [done | apply IH].
Qed.

Lemma find_face_idx_NoDup (fcs : list face) k (f : face) :
  NoDup fcs → fcs !! k = Some f → find_face_idx fcs (Some f) = Z.of_nat k.
Proof.
  intros Hnd Hk. unfold find_face_idx.
  destruct (find_face_from_in 0 fcs f) as (k' & Hk' & -> & _).
  { by eapply list_elem_of_lookup_2. }
  assert (k' = k) as -> by (by eapply NoDup_lookup). lia.
Qed.

(** ** Slices of a concatenation *)

Lemma concat_slice {A} (xs : list (list A)) j x :
  xs !! j = Some x →
  take (length x) (drop (length (concat (take j xs))) (concat xs)) = x.
Proof.
  revert j. induction xs as [|y xs IH]; intros j Hj; [done|].
  destruct j as [|j]; simpl in *.
  - injection Hj as ->. apply take_app_length.
  - rewrite length_app, drop_app_add. by apply IH.
Qed.

Lemma NoDup_concat_block {A} (xs : list (list A)) j j' a b x :
  NoDup (concat xs) → xs !! j = Some a → xs !! j' = Some b →
  x ∈ a → x ∈ b → j = j'.
Proof.
  revert j j'. induction xs as [|y xs IH]; intros j j' Hnd Hj Hj' Ha Hb; [done|].
  simpl in Hnd. apply NoDup_app in Hnd as (_ & Hdisj & Hnd).
  assert (∀ i c, xs !! i = Some c → x ∈ c → x ∈ concat xs) as Hin.
  { intros i c Hi Hc. apply list_elem_of_In, in_concat. exists c.
    split; apply list_elem_of_In; [by eapply list_elem_of_lookup_2 | done]. }
  destruct j as [|j], j' as [|j']; simpl in *.
  - done.
  - injection Hj as ->. exfalso. eapply Hdisj; eauto.
  - injection Hj' as ->. exfalso. eapply Hdisj; eauto.
  - f_equal. eauto.
Qed.

(** ** What the encoder writes as coplanar table *)

Lemma all_coplanar_lnodes lt : all_coplanar (erase lt) = concat (lnodes lt).*2.
Proof.
  induction lt as [|l pi on f IHf b IHb]; simpl; [done|].
  by rewrite IHf, IHb, fmap_app, concat_app.
Qed.

Lemma lnodes_lookup_locs lt j l pi on :
  lnodes lt !! j = Some (l, pi, on) → locs lt !! j = Some l.
Proof.
  intros Hj. rewrite <- lnodes_locs, !list_lookup_fmap, Hj. done.
Qed.

Lemma locs_lookup_lnodes lt j l :
  locs lt !! j = Some l → ∃ pi on, lnodes lt !! j = Some (l, pi, on).
Proof.
  rewrite <- lnodes_locs, !list_lookup_fmap.
  destruct (lnodes lt !! j) as [[[l' pi] on]|]; simpl; [|done].
  intros [= ->]. by eexists _, _.
Qed.

Section Pipeline.
Variable py_id : loc → Z.
Hypothesis py_id_inj : Inj (=) (=) py_id.
Variables (faces : list face) (h : heap) (lt : ltree).
Hypothesis Hrepr : repr faces h lt.
Hypothesis Hnd : NoDup (locs lt).

(** The coplanar faces stored at the nodes, in depth-first order, are the
    faces at the coplanar indices of the tree. *)
Lemma on_of_lnodes :
  Forall2 (λ nd fs, Forall2 (λ (i : nat) f, faces !! i = Some f) nd.2 fs)
          (lnodes lt) (map (on_of h) (locs lt)).
Proof.
  rewrite <- lnodes_locs, <- !list_fmap_compose.
  apply Forall2_fmap_r, Forall_Forall2_diag, Forall_forall.
  intros [[l pi] on] Hin. simpl.
  destruct (lnodes_repr _ _ _ _ _ _ Hrepr Hin) as (c & Hc & _ & _ & Hon).
  unfold on_of. by rewrite Hc.
Qed.

Lemma flat_run_total fcs :
  ∃ (m : gmap Z nat) fb,
    flat_run py_id h (root_ref lt) fcs = Ok fb
    ∧ fb_faces fb = fcs
    ∧ length (fb_nodes fb) = length (locs lt)
    ∧ fb_faces_on_plane fb = concat (map (on_of h) (locs lt))
    ∧ (∀ j l c, locs lt !! j = Some l → h !! l = Some c →
         ∃ i, m !! py_id l = Some i
              ∧ fb_nodes fb !! i
                = Some (Some (flat_record py_id m fcs
                    (length (concat (map (on_of h) (take j (locs lt))))) c)))
    ∧ (∀ i, (i < length (locs lt))%nat →
         ∃ l, l ∈ locs lt ∧ m !! py_id l = Some i)
    ∧ (∀ l l' i, l ∈ locs lt → l' ∈ locs lt →
         m !! py_id l = Some i → m !! py_id l' = Some i → l = l').
Proof.
  destruct (decide (lt = LLeaf)) as [->|Hne].
  - exists ∅. eexists. split; [done|]. simpl. repeat split; try done.
    intros i Hi. lia.
  - destruct (flat_run_spec py_id py_id_inj faces h lt fcs Hrepr Hnd Hne)
      as (m & fb & H1 & H2 & H3 & H4 & H5 & H6 & H7 & _).
    by exists m, fb.
Qed.

End Pipeline.

Section PipelineFacts.
Context `{Scalar}.
Variable py_id : loc → Z.
Hypothesis py_id_inj : Inj (=) (=) py_id.
Variables (faces : list face) (vertices : list vertex).
Hypothesis Hwf : Forall (well_formed_face vertices) faces.

(** The flattened form of the tree that [build_bsp] returns: every slot
    belongs to one node of the tree and holds that node's record, and the
    run of the record is the node's coplanar faces. *)
Lemma build_flatten_spec :
  ∃ t h root lt fb,
    build_spec faces vertices = Ok t
    ∧ build_bsp faces vertices = Ok (h, root)
    ∧ repr faces h lt ∧ root_ref lt = root ∧ erase lt = t ∧ NoDup (locs lt)
    ∧ flat_run py_id h root faces = Ok fb
    ∧ fb_faces fb = faces
    ∧ length (fb_nodes fb) = size t
    ∧ (∀ j l pi on, lnodes lt !! j = Some (l, pi, on) →
         ∃ k nd c, fb_nodes fb !! k = Some (Some nd)
           ∧ h !! l = Some c
           ∧ plane_face_idx nd = find_face_idx faces (n_plane_face c)
           ∧ take (Z.to_nat (faces_on_plane_count nd))
                  (drop (Z.to_nat (faces_on_plane_idx_start nd))
                        (fb_faces_on_plane fb))
             = n_faces_on_plane c
           ∧ (∀ k' slot, fb_nodes fb !! k' = Some slot →
                ∃ j' l' pi' on', lnodes lt !! j' = Some (l', pi', on')
                  ∧ (j' = j → k' = k)
                  ∧ ∃ nd', slot = Some nd'
                      ∧ take (Z.to_nat (faces_on_plane_count nd'))
                             (drop (Z.to_nat (faces_on_plane_idx_start nd'))
                                   (fb_faces_on_plane fb))
                        = on_of h l'))
    ∧ (∀ k slot, fb_nodes fb !! k = Some slot →
         ∃ j l pi on c nd, lnodes lt !! j = Some (l, pi, on)
           ∧ h !! l = Some c ∧ slot = Some nd
           ∧ plane_face_idx nd = find_face_idx faces (n_plane_face c)).
Proof.
  destruct (build_spec_total faces vertices Hwf) as [t Ht].
  destruct (build_bsp_represents faces vertices t Hwf Ht)
    as (h & root & Hbuild & lt & Hrepr & Hroot & Her & Hnd).
  destruct (flat_run_total py_id py_id_inj faces h lt Hrepr Hnd faces)
    as (m & fb & Hrun & Hfaces & Hlen & Htable & Hslot & Hsurj & Hinj).
  assert (∀ j l c, locs lt !! j = Some l → h !! l = Some c →
            take (length (n_faces_on_plane c))
              (drop (length (concat (map (on_of h) (take j (locs lt)))))
                 (fb_faces_on_plane fb)) = n_faces_on_plane c) as Hslice.
  { intros j l c Hj Hc. rewrite Htable.
    replace (map (on_of h) (take j (locs lt)))
      with (take j (map (on_of h) (locs lt))) by (symmetry; apply fmap_take).
    apply concat_slice.
    change (map (on_of h) (locs lt)) with (on_of h <$> locs lt).
    rewrite list_lookup_fmap, Hj. simpl. unfold on_of. by rewrite Hc. }
  assert (∀ k slot, fb_nodes fb !! k = Some slot →
            ∃ j l pi on c, lnodes lt !! j = Some (l, pi, on)
              ∧ h !! l = Some c ∧ m !! py_id l = Some k
              ∧ slot = Some (flat_record py_id m faces
                   (length (concat (map (on_of h) (take j (locs lt))))) c))
    as Hslots.
  { intros k slot Hk.
    destruct (Hsurj k) as (l & Hl & Hmk).
    { rewrite <- Hlen. by eapply lookup_lt_Some. }
    apply list_elem_of_lookup in Hl as [j Hj].
    destruct (locs_lookup_lnodes _ _ _ Hj) as (pi & on & Hnode).
    destruct (repr_locs_valid _ _ _ l Hrepr) as [c Hc];
      [by eapply list_elem_of_lookup_2|].
    destruct (Hslot j l c Hj Hc) as (k' & Hmk' & Hrec).
    rewrite Hmk in Hmk'. injection Hmk' as <-.
    rewrite Hk in Hrec. injection Hrec as ->.
    by exists j, l, pi, on, c. }
  subst root. exists t, h, (root_ref lt), lt, fb.
  do 8 (split; [done|]). split; [by rewrite Hlen, size_erase_locs, Her|]. split.
  - intros j l pi on Hnode.
    pose proof (lnodes_lookup_locs _ _ _ _ _ Hnode) as Hj.
    destruct (repr_locs_valid _ _ _ l Hrepr) as [c Hc];
      [by eapply list_elem_of_lookup_2|].
    destruct (Hslot j l c Hj Hc) as (k & Hmk & Hrec).
    eexists k, _, c. split; [exact Hrec|]. split; [done|]. split; [done|].
    split.
    { simpl. rewrite !Nat2Z.id. by apply (Hslice j l c). }
    intros k' slot Hk'.
    destruct (Hslots k' slot Hk') as (j' & l' & pi' & on' & c' & Hnode' & Hc' & Hmk' & ->).
    exists j', l', pi', on'. split; [done|]. split.
    { intros ->. rewrite Hnode in Hnode'. injection Hnode' as <- <- <-. congruence. }
    eexists. split; [done|]. simpl. rewrite !Nat2Z.id.
    unfold on_of at 2. rewrite Hc'. apply (Hslice j' l' c'); [|done].
    by eapply lnodes_lookup_locs.
  - intros k slot Hk.
    destruct (Hslots k slot Hk) as (j & l & pi & on & c & Hnode & Hc & Hmk & ->).
    by eexists j, l, pi, on, c, _.
Qed.

End PipelineFacts.

Lemma coplanar_run_unfold fb nd :
  coplanar_run fb nd
  = map (λ f, find_face_idx (fb_faces fb) (Some f))
      (take (Z.to_nat (faces_on_plane_count nd))
         (drop (Z.to_nat (faces_on_plane_idx_start nd)) (fb_faces_on_plane fb))).
Proof.
  unfold coplanar_run, coplanar_indices.
  change map with (@fmap list _). by rewrite fmap_take, fmap_drop.
Qed.

Lemma find_on_NoDup (faces : list face) (on : list nat) (fs : list face) :
  NoDup faces →
  Forall2 (λ (i : nat) f, faces !! i = Some f) on fs →
  map (λ f, find_face_idx faces (Some f)) fs = map Z.of_nat on.
Proof.
  intros Hnd. induction 1 as [|i f on fs Hi _ IH]; simpl; [done|].
  by rewrite IH, (find_face_idx_NoDup faces i f).
Qed.

Lemma write_header (S : Scalar) vertices (faces : list face) fb bytes :
  write_bsp_binary vertices faces fb = Ok bytes →
  take 6 bytes = le16 (Z.of_nat (length vertices)) ++ le16 (Z.of_nat (length faces))
                 ++ le16 (Z.of_nat (length (fb_nodes fb))).
Proof.
  unfold write_bsp_binary. intros Hw.
  apply bind_Ok in Hw as (hdr & Hhdr & Hw).
  apply bind_Ok in Hw as (vs & _ & Hw).
  apply bind_Ok in Hw as (fs & _ & Hw).
  apply bind_Ok in Hw as (ns & _ & Hw).
  apply bind_Ok in Hw as (ts & _ & [= <-]).
  unfold pack_header in Hhdr.
  apply bind_Ok in Hhdr as (a & Ha & Hhdr).
  apply bind_Ok in Hhdr as (b & Hb & Hhdr).
  apply bind_Ok in Hhdr as (c & Hc & [= <-]).
  unfold pack_H in Ha, Hb, Hc.
  destruct (_ && _) in Ha; [|done]. destruct (_ && _) in Hb; [|done].
  destruct (_ && _) in Hc; [|done].
  injection Ha as <-. injection Hb as <-. injection Hc as <-. done.
Qed.

Section FlattenClaims.
Context `{Scalar}.

(** C6: the tree that [build_bsp] returns has at most as many nodes as the
    mesh has faces; the flattened node array has one slot per node, and the
    header that the encoder writes carries that count. *)
Theorem node_count_le_face_count (py_id : loc → Z) (faces : list face)
    (vertices : list vertex) :
  Inj (=) (=) py_id →
  Forall (well_formed_face vertices) faces →
  ∃ t h root fb,
    build_bsp faces vertices = Ok (h, root)
    ∧ represents faces h root t
    ∧ (size t ≤ length faces)%nat
    ∧ flat_run py_id h root faces = Ok fb
    ∧ length (fb_nodes fb) = size t
    ∧ ∀ bytes, write_bsp_binary vertices faces fb = Ok bytes →
        take 6 bytes = le16 (Z.of_nat (length vertices))
                       ++ le16 (Z.of_nat (length faces))
                       ++ le16 (Z.of_nat (size t)).
Proof.
  intros Hinj Hwf.
  destruct (build_flatten_spec py_id Hinj faces vertices Hwf)
    as (t & h & root & lt & fb & Ht & Hbuild & Hrepr & Hroot & Her & Hnd
        & Hrun & Hfaces & Hlen & _).
  exists t, h, root, fb. split; [done|]. split; [by exists lt|]. split.
  { pose proof (build_rec_size _ _ _ _ _ Ht) as Hsize. by rewrite length_seq in Hsize. }
  split; [done|]. split; [done|].
  intros bytes Hw. rewrite <- Hlen. by eapply write_header.
Qed.

(** C3, as the code has it: when no two faces of the mesh are equal as
    index lists, the coplanar table that the encoder writes holds every
    canonical index once, and every index lies in the run of exactly one
    slot of the node array. *)
Theorem each_face_in_one_run (py_id : loc → Z) (faces : list face)
    (vertices : list vertex) :
  Inj (=) (=) py_id →
  Forall (well_formed_face vertices) faces →
  NoDup faces →
  ∃ h root fb,
    build_bsp faces vertices = Ok (h, root)
    ∧ flat_run py_id h root faces = Ok fb
    ∧ (coplanar_indices fb ≡ₚ map Z.of_nat (seq 0 (length faces)))
    ∧ ∀ i, (i < length faces)%nat →
        ∃ k nd, fb_nodes fb !! k = Some (Some nd)
          ∧ Z.of_nat i ∈ coplanar_run fb nd
          ∧ ∀ k' nd', fb_nodes fb !! k' = Some (Some nd') →
              Z.of_nat i ∈ coplanar_run fb nd' → k' = k.
Proof.
  intros Hinj Hwf Hdistinct.
  destruct (build_flatten_spec py_id Hinj faces vertices Hwf)
    as (t & h & root & lt & fb & Ht & Hbuild & Hrepr & Hroot & Her & Hnd
        & Hrun & Hfaces & Hlen & Hnode & _).
  pose proof (build_rec_perm _ _ _ _ _ Ht) as Hperm.
  rewrite <- Her, all_coplanar_lnodes in Hperm.
  pose proof (on_of_lnodes faces h lt Hrepr) as Hon.
  assert (∀ l' j' pi' on', lnodes lt !! j' = Some (l', pi', on') →
            map (λ f, find_face_idx faces (Some f)) (on_of h l') = map Z.of_nat on')
    as Hfind.
  { intros l' j' pi' on' Hj'. apply find_on_NoDup; [done|].
    destruct (Forall2_lookup_l _ _ _ _ _ Hon Hj') as (fs & Hfs & Hall).
    change (map (on_of h) (locs lt)) with (on_of h <$> locs lt) in Hfs.
    rewrite list_lookup_fmap, (lnodes_lookup_locs _ _ _ _ _ Hj') in Hfs.
    injection Hfs as <-. done. }
  exists h, root, fb. split; [done|]. split; [done|]. split.
  - (* the table as a whole *)
    rewrite <- Hperm. unfold coplanar_indices. rewrite Hfaces.
    destruct (flat_run_total py_id Hinj faces h lt Hrepr Hnd faces)
      as (m' & fb' & Hrun' & _ & _ & Htable & _).
    rewrite Hroot, Hrun in Hrun'. injection Hrun' as <-.
    rewrite Htable. clear -Hon Hdistinct.
    induction Hon as [|[[l pi] on] fs nodes fss Hhd _ IH]; simpl; [done|].
    rewrite !map_app, IH. simpl in Hhd.
    by rewrite (find_on_NoDup faces on fs).
  - intros i Hi.
    assert (i ∈ concat (lnodes lt).*2) as Hin.
    { rewrite Hperm. apply elem_of_seq. lia. }
    apply list_elem_of_In, in_concat in Hin as (on & Hon_in & Hi_on).
    apply list_elem_of_In, list_elem_of_lookup in Hon_in as [j Hj].
    rewrite list_lookup_fmap in Hj.
    destruct (lnodes lt !! j) as [[[l pi] on0]|] eqn:Hnode_j; [|done].
    injection Hj as ->.
    destruct (Hnode j l pi on Hnode_j) as (k & nd & c & Hk & Hc & _ & Htake & Hothers).
    assert (on_of h l = n_faces_on_plane c) as Hon_l by (unfold on_of; by rewrite Hc).
    exists k, nd. split; [done|]. split.
    + rewrite coplanar_run_unfold, Htake, Hfaces, <- Hon_l, (Hfind l j pi on Hnode_j).
      apply list_elem_of_fmap_2. by apply list_elem_of_In.
    + intros k' nd' Hk' Hi'.
      destruct (Hothers k' _ Hk') as (j' & l' & pi' & on' & Hnode_j' & Hsame & nd'' & [= <-] & Htake').
      apply Hsame.
      rewrite coplanar_run_unfold, Htake', Hfaces, (Hfind l' j' pi' on' Hnode_j') in Hi'.
      apply list_elem_of_fmap in Hi' as (i' & Heq & Hi'). apply Nat2Z.inj in Heq. subst i'.
      symmetry. eapply (NoDup_concat_block (lnodes lt).*2 j j' on on' i).
      * rewrite Hperm. apply NoDup_seq.
      * by rewrite list_lookup_fmap, Hnode_j.
      * by rewrite list_lookup_fmap, Hnode_j'.
      * by apply list_elem_of_In.
      * done.
Qed.

End FlattenClaims.

(** ** Independence of the object identities *)

Section Identities.
Variables py_id py_id' : loc → Z.
Hypothesis py_id_inj : Inj (=) (=) py_id.
Hypothesis py_id_inj' : Inj (=) (=) py_id'.

Lemma same_numbering_insert m m' l idx :
  same_numbering py_id py_id' m m' →
  same_numbering py_id py_id' (<[py_id l := idx]> m) (<[py_id' l := idx]> m').
Proof.
  intros Hsame l2. destruct (decide (l = l2)) as [->|Hne].
  - by rewrite !lookup_insert_eq.
  - rewrite !lookup_insert_ne; [apply Hsame | |].
    + intros Heq. by apply py_id_inj' in Heq.
    + intros Heq. by apply py_id_inj in Heq.
Qed.

Lemma index_loop_ids fuel (h : heap) : ∀ queue m m' idx nodes,
  same_numbering py_id py_id' m m' →
  match index_loop py_id fuel h queue m idx nodes,
        index_loop py_id' fuel h queue m' idx nodes with
  | Ok (m1, n1), Ok (m2, n2) => n1 = n2 ∧ same_numbering py_id py_id' m1 m2
  | Raise e1, Raise e2 => e1 = e2
  | _, _ => False
  end.
Proof.
  induction fuel as [|fuel IH]; intros queue m m' idx nodes Hsame;
    destruct queue as [|[l|] queue]; simpl; try done.
  - rewrite <- (Hsame l). destruct (m !! py_id l); [by apply IH|].
    destruct (list_get h l) as [c|e]; simpl; [|done].
    apply IH. by apply same_numbering_insert.
  - by apply IH.
Qed.

Lemma child_idx_ids m m' child :
  same_numbering py_id py_id' m m' → child_idx py_id m child = child_idx py_id' m' child.
Proof. intros Hsame. destruct child as [l|]; simpl; [|done]. by rewrite (Hsame l). Qed.

Lemma fill_loop_ids fuel (h : heap) m m' : ∀ stack fb,
  same_numbering py_id py_id' m m' →
  fill_loop py_id fuel h m stack fb = fill_loop py_id' fuel h m' stack fb.
Proof.
  intros stack fb Hsame. revert stack fb.
  induction fuel as [|fuel IH]; intros stack fb;
    destruct stack as [|[l|] stack]; simpl; try done.
  rewrite <- (Hsame l). destruct (m !! py_id l) as [i|]; simpl; [|done].
  destruct (list_get (fb_nodes fb) i) as [[nd|]|e]; simpl; try done.
  destruct (list_get h l) as [c|e]; simpl; [|done].
  rewrite !(child_idx_ids m m') by done. apply IH.
Qed.

(** The flattened tree does not depend on the identities of the nodes. *)
Lemma flat_run_ids (h : heap) root (fcs : list face) :
  flat_run py_id h root fcs = flat_run py_id' h root fcs.
Proof.
  unfold flat_run, flatten. destruct root as [l|]; [|done].
  cbn [fb_nodes fb_faces_on_plane fb_faces].
  assert (same_numbering py_id py_id' ∅ ∅) as Hempty by (intros l0; by rewrite !lookup_empty).
  pose proof (index_loop_ids (flatten_fuel h) h [Some l] ∅ ∅ 0%nat [] Hempty) as Hidx.
  destruct (index_loop py_id _ _ _ _ _ _) as [[m1 n1]|e1],
           (index_loop py_id' _ _ _ _ _ _) as [[m2 n2]|e2];
    simpl in Hidx; cbn [mbind result_bind]; try done.
  - destruct Hidx as [-> Hsame].
    by rewrite (fill_loop_ids _ _ m1 m2).
  - by rewrite Hidx.
Qed.

End Identities.

(** C7: the bytes that build, flatten and encode produce for a mesh do not
    depend on the identities [id(node)] that the run happens to give the
    node dictionaries, the only input of the pipeline besides the vertex
    and face sequences; so two runs on the same sequences write the same
    bytes, and flatten the same linked tree to the same arrays. *)
Theorem pipeline_deterministic `{Scalar} (py_id py_id' : loc → Z)
    (vertices : list vertex) (faces : list face) :
  Inj (=) (=) py_id → Inj (=) (=) py_id' →
  build_flatten_encode py_id vertices faces
    = build_flatten_encode py_id' vertices faces
  ∧ ∀ (h : heap) root, flat_run py_id h root faces = flat_run py_id' h root faces.
Proof.
  intros Hinj Hinj'. split.
  - unfold build_flatten_encode.
    destruct (build_bsp faces vertices) as [[h root]|e]; simpl; [|done].
    by rewrite (flat_run_ids py_id py_id' Hinj Hinj').
  - intros h root. by apply flat_run_ids.
Qed.

(** ** The encoder *)

Lemma Z_of_byte_of_Z z : Z_of_byte (byte_of_Z z) = z mod 256.
Proof.
  unfold Z_of_byte, byte_of_Z.
  pose proof (Z.mod_pos_bound z 256 ltac:(lia)) as Hm.
  destruct (Byte.of_N (Z.to_N (z mod 256))) as [b|] eqn:Hb.
  - apply Byte.to_of_N in Hb. rewrite Hb. lia.
  - apply Byte.of_N_None_iff in Hb. lia.
Qed.

Lemma le16_unsigned z : fits_H z → unpack_H (le16 z) = Some z.
Proof.
  unfold fits_H, le16, unpack_H. intros Hz.
  rewrite !Z_of_byte_of_Z, Z.shiftr_div_pow2 by lia.
  rewrite (Z.mod_small z 65536) by lia.
  change (2 ^ 8) with 256.
  rewrite (Z.mod_small (z / 256)).
  - f_equal. pose proof (Z.div_mod z 256). lia.
  - split; [apply Z.div_pos; lia | apply Z.div_lt_upper_bound; lia].
Qed.

Lemma le16_signed z : fits_h z → unpack_h (le16 z) = Some z.
Proof.
  unfold fits_h, le16, unpack_h. intros Hz.
  rewrite !Z_of_byte_of_Z, Z.shiftr_div_pow2 by lia.
  change (2 ^ 8) with 256.
  assert (z mod 256 = (z mod 65536) mod 256) as ->.
  { symmetry. apply Z.mod_mod_divide. by exists 256. }
  set (u := z mod 65536).
  assert (0 ≤ u < 65536) as Hu by (apply Z.mod_pos_bound; lia).
  rewrite (Z.mod_small (u / 256)).
  2:{ split; [apply Z.div_pos; lia | apply Z.div_lt_upper_bound; lia]. }
  assert (u mod 256 + 256 * (u / 256) = u) as -> by (pose proof (Z.div_mod u 256); lia).
  f_equal. destruct (Z.leb_spec 32768 u).
  - assert (z < 0 ∨ 0 ≤ z) as [Hneg|Hpos] by lia.
    + assert (u = z + 65536); [|lia].
      unfold u. symmetry. apply (Z.mod_unique z 65536 (-1)); lia.
    + unfold u in *. rewrite Z.mod_small in * by lia. lia.
  - assert (z < 0 ∨ 0 ≤ z) as [Hneg|Hpos] by lia.
    + assert (u = z + 65536); [|lia].
      unfold u. symmetry. apply (Z.mod_unique z 65536 (-1)); lia.
    + unfold u. apply Z.mod_small. lia.
Qed.

Lemma pack_B_Ok x bs : pack_B x = Ok bs ↔ fits_B x ∧ bs = [byte_of_Z x].
Proof.
  unfold pack_B, fits_B.
  destruct (Z.leb_spec 0 x), (Z.leb_spec x 255); simpl; split;
    try (intros [= <-]; split; [lia | done]); try discriminate;
    try (intros [? ->]; done); intros [? _]; lia.
Qed.

Lemma pack_H_Ok x bs : pack_H x = Ok bs ↔ fits_H x ∧ bs = le16 x.
Proof.
  unfold pack_H, fits_H.
  destruct (Z.leb_spec 0 x), (Z.leb_spec x 65535); simpl; split;
    try (intros [= <-]; split; [lia | done]); try discriminate;
    try (intros [? ->]; done); intros [? _]; lia.
Qed.

Lemma pack_h_Ok x bs : pack_h x = Ok bs ↔ fits_h x ∧ bs = le16 x.
Proof.
  unfold pack_h, fits_h.
  destruct (Z.leb_spec (-32768) x), (Z.leb_spec x 32767); simpl; split;
    try (intros [= <-]; split; [lia | done]); try discriminate;
    try (intros [? ->]; done); intros [? _]; lia.
Qed.

Lemma result_cases {A} (r : result A) : (∃ a, r = Ok a) ∨ (∃ e, r = Raise e).
Proof. destruct r; [left | right]; by eexists. Qed.

Lemma mapM_Ok_iff {A B} (g : A → result B) l :
  (∃ ys, mapM g l = Ok ys) ↔ Forall (λ x, ∃ y, g x = Ok y) l.
Proof.
  split; [|apply mapM_total].
  intros [ys Hys]. apply mapM_Ok in Hys.
  induction Hys; constructor; [by eexists | done].
Qed.

Lemma unpack_Hs_pack (idxs : list Z) bss :
  mapM pack_H idxs = Ok bss → unpack_Hs (concat bss) = Some idxs.
Proof.
  rewrite mapM_Ok. induction 1 as [|x bs idxs bss Hx _ IH]; simpl; [done|].
  apply pack_H_Ok in Hx as [Hfit ->].
  pose proof (le16_unsigned x Hfit) as Hun. unfold le16 in *. simpl in *.
  rewrite IH. simpl. by injection Hun as ->.
Qed.

Lemma pack_header_Ok nv nf nn :
  (∃ bs, pack_header nv nf nn = Ok bs)
  ↔ fits_H (Z.of_nat nv) ∧ fits_H (Z.of_nat nf) ∧ fits_H (Z.of_nat nn).
Proof.
  unfold pack_header. split.
  - intros [bs Hbs].
    apply bind_Ok in Hbs as (a & Ha%pack_H_Ok & Hbs).
    apply bind_Ok in Hbs as (b & Hb%pack_H_Ok & Hbs).
    apply bind_Ok in Hbs as (c & Hc%pack_H_Ok & _).
    by destruct Ha, Hb, Hc.
  - intros (Ha & Hb & Hc).
    rewrite (proj2 (pack_H_Ok _ _) (conj Ha eq_refl)). simpl.
    rewrite (proj2 (pack_H_Ok _ _) (conj Hb eq_refl)). simpl.
    rewrite (proj2 (pack_H_Ok _ _) (conj Hc eq_refl)). simpl.
    by eexists.
Qed.

Lemma pack_header_unpack nv nf nn bs :
  pack_header nv nf nn = Ok bs →
  unpack_header bs = Some (Z.of_nat nv, Z.of_nat nf, Z.of_nat nn).
Proof.
  unfold pack_header. intros Hbs.
  apply bind_Ok in Hbs as (a & Ha & Hbs).
  apply bind_Ok in Hbs as (b & Hb & Hbs).
  apply bind_Ok in Hbs as (c & Hc & [= <-]).
  assert (mapM pack_H [Z.of_nat nv; Z.of_nat nf; Z.of_nat nn] = Ok [a; b; c]) as Hm.
  { simpl. by rewrite Ha, Hb, Hc. }
  apply unpack_Hs_pack in Hm. simpl in Hm. rewrite app_nil_r in Hm.
  unfold unpack_header. by rewrite Hm.
Qed.

Lemma pack_face_Ok (f : face) :
  (∃ bs, pack_face f = Ok bs) ↔ face_encodable f.
Proof.
  unfold pack_face, face_encodable. split.
  - intros [bs Hbs].
    apply bind_Ok in Hbs as (n & Hn%pack_B_Ok & Hbs).
    apply bind_Ok in Hbs as (idxs & Hidxs & _).
    split; [by destruct Hn|].
    assert (∃ ys, mapM pack_H f = Ok ys) as Hex by (by eexists).
    apply mapM_Ok_iff in Hex. eapply Forall_impl; [done|].
    intros x [y Hy%pack_H_Ok]. by destruct Hy.
  - intros [Hn Hall].
    rewrite (proj2 (pack_B_Ok _ _) (conj Hn eq_refl)). simpl.
    destruct (proj2 (mapM_Ok_iff pack_H f)) as [idxs ->]; [|by eexists].
    eapply Forall_impl; [done|]. intros x Hx. exists (le16 x). by apply pack_H_Ok.
Qed.

Lemma pack_face_unpack (f : face) bs :
  pack_face f = Ok bs → unpack_face bs = Some f.
Proof.
  unfold pack_face. intros Hbs.
  apply bind_Ok in Hbs as (n & Hn%pack_B_Ok & Hbs).
  apply bind_Ok in Hbs as (idxs & Hidxs & [= <-]).
  destruct Hn as [Hfit ->]. simpl.
  rewrite (unpack_Hs_pack _ _ Hidxs). simpl.
  rewrite Z_of_byte_of_Z, Z.mod_small by (unfold fits_B in Hfit; lia).
  by rewrite decide_True.
Qed.

Lemma pack_node_Ok slot :
  (∃ bs, pack_node slot = Ok bs) ↔ node_encodable slot.
Proof.
  unfold pack_node, node_encodable. split.
  - intros [bs Hbs]. destruct slot as [nd|]; [|done]. exists nd.
    apply bind_Ok in Hbs as (a & Ha%pack_H_Ok & Hbs).
    apply bind_Ok in Hbs as (b & Hb%pack_H_Ok & Hbs).
    apply bind_Ok in Hbs as (c & Hc%pack_H_Ok & Hbs).
    apply bind_Ok in Hbs as (d & Hd%pack_h_Ok & Hbs).
    apply bind_Ok in Hbs as (e & He%pack_h_Ok & _).
    by destruct Ha, Hb, Hc, Hd, He.
  - intros (nd & -> & Ha & Hb & Hc & Hd & He).
    rewrite (proj2 (pack_H_Ok _ _) (conj Ha eq_refl)). simpl.
    rewrite (proj2 (pack_H_Ok _ _) (conj Hb eq_refl)). simpl.
    rewrite (proj2 (pack_H_Ok _ _) (conj Hc eq_refl)). simpl.
    rewrite (proj2 (pack_h_Ok _ _) (conj Hd eq_refl)). simpl.
    rewrite (proj2 (pack_h_Ok _ _) (conj He eq_refl)). simpl.
    by eexists.
Qed.

Lemma pack_node_unpack slot bs :
  pack_node slot = Ok bs → ∃ nd, slot = Some nd ∧ unpack_node bs = Some nd.
Proof.
  unfold pack_node. intros Hbs. destruct slot as [nd|]; [|done]. exists nd.
  split; [done|].
  apply bind_Ok in Hbs as (a & [Ha ->]%pack_H_Ok & Hbs).
  apply bind_Ok in Hbs as (b & [Hb ->]%pack_H_Ok & Hbs).
  apply bind_Ok in Hbs as (c & [Hc ->]%pack_H_Ok & Hbs).
  apply bind_Ok in Hbs as (d & [Hd ->]%pack_h_Ok & Hbs).
  apply bind_Ok in Hbs as (e & [He ->]%pack_h_Ok & [= <-]).
  apply le16_unsigned in Ha, Hb, Hc. apply le16_signed in Hd, He.
  unfold le16 in *. cbn [app]. unfold unpack_node.
  rewrite Ha, Hb, Hc, Hd, He. simpl. by destruct nd.
Qed.

Lemma find_face_from_range i (fcs : list face) o :
  find_face_from i fcs o = 0xFFFF
  ∨ i ≤ find_face_from i fcs o < i + Z.of_nat (length fcs).
Proof.
  revert i. induction fcs as [|g fcs IH]; intros i; simpl; [by left|].
  destruct (decide (Some g = o)); [right; lia|].
  destruct (IH (i + 1)) as [?|?]; [by left | right; lia].
Qed.

Lemma find_face_idx_fits (fcs : list face) o :
  Z.of_nat (length fcs) ≤ 65536 → fits_H (find_face_idx fcs o).
Proof.
  intros Hlen. unfold find_face_idx, fits_H.
  destruct (find_face_from_range 0 fcs o) as [->|?]; lia.
Qed.

Lemma pack_H_length x bs : pack_H x = Ok bs → length bs = 2%nat.
Proof. by intros [_ ->]%pack_H_Ok. Qed.

Lemma pack_h_length x bs : pack_h x = Ok bs → length bs = 2%nat.
Proof. by intros [_ ->]%pack_h_Ok. Qed.

Lemma pack_node_length slot bs : pack_node slot = Ok bs → length bs = 10%nat.
Proof.
  unfold pack_node. intros Hbs. destruct slot as [nd|]; [|done].
  apply bind_Ok in Hbs as (a & Ha%pack_H_length & Hbs).
  apply bind_Ok in Hbs as (b & Hb%pack_H_length & Hbs).
  apply bind_Ok in Hbs as (c & Hc%pack_H_length & Hbs).
  apply bind_Ok in Hbs as (d & Hd%pack_h_length & Hbs).
  apply bind_Ok in Hbs as (e & He%pack_h_length & [= <-]).
  rewrite !length_app. lia.
Qed.

Section EncoderFacts.
Context `{Scalar}.

Lemma write_bsp_binary_Ok vertices (faces : list face) fb :
  (∃ bytes, write_bsp_binary vertices faces fb = Ok bytes)
  ↔ encodable vertices faces fb.
Proof.
  unfold write_bsp_binary, encodable. split.
  - intros [bytes Hw].
    apply bind_Ok in Hw as (hdr & Hhdr & Hw).
    apply bind_Ok in Hw as (vs & Hvs & Hw).
    apply bind_Ok in Hw as (fs & Hfs & Hw).
    apply bind_Ok in Hw as (ns & Hns & Hw).
    apply bind_Ok in Hw as (ts & Hts & _).
    destruct (proj1 (pack_header_Ok (length vertices) (length faces)
                       (length (fb_nodes fb)))) as (Ha & Hb & Hc); [by eexists|].
    do 3 (split; [done|]). split; [|split; [|split]].
    + apply mapM_Ok_iff. by eexists.
    + eapply Forall_impl; [apply (proj1 (mapM_Ok_iff pack_face faces)); by eexists|].
      intros f Hf. by apply pack_face_Ok.
    + eapply Forall_impl;
        [apply (proj1 (mapM_Ok_iff pack_node (fb_nodes fb))); by eexists|].
      intros slot Hslot. by apply pack_node_Ok.
    + eapply Forall_impl;
        [apply (proj1 (mapM_Ok_iff (pack_coplanar (fb_faces fb))
                         (fb_faces_on_plane fb))); by eexists|].
      intros f [bs Hbs%pack_H_Ok]. by destruct Hbs.
  - intros (Ha & Hb & Hc & Hvs & Hfs & Hns & Hts).
    destruct (proj2 (pack_header_Ok (length vertices) (length faces)
                       (length (fb_nodes fb)))) as [hdr ->]; [done|].
    destruct (proj2 (mapM_Ok_iff pack_fff vertices) Hvs) as [vs ->].
    destruct (proj2 (mapM_Ok_iff pack_face faces)) as [fs ->].
    { eapply Forall_impl; [done|]. intros f Hf. by apply pack_face_Ok. }
    destruct (proj2 (mapM_Ok_iff pack_node (fb_nodes fb))) as [ns ->].
    { eapply Forall_impl; [done|]. intros f Hf. by apply pack_node_Ok. }
    destruct (proj2 (mapM_Ok_iff (pack_coplanar (fb_faces fb))
                       (fb_faces_on_plane fb))) as [ts ->].
    { eapply Forall_impl; [done|]. intros f Hf. eexists. by apply pack_H_Ok. }
    by eexists.
Qed.

Lemma write_bsp_binary_layout vertices (faces : list face) fb bytes :
  write_bsp_binary vertices faces fb = Ok bytes →
  file_layout vertices faces fb bytes.
Proof.
  unfold write_bsp_binary. intros Hw.
  apply bind_Ok in Hw as (hdr & Hhdr & Hw).
  apply bind_Ok in Hw as (vs & Hvs & Hw).
  apply bind_Ok in Hw as (fs & Hfs & Hw).
  apply bind_Ok in Hw as (ns & Hns & Hw).
  apply bind_Ok in Hw as (ts & Hts & [= <-]).
  exists hdr, vs, fs, ns, ts. split; [done|]. split; [by apply pack_header_unpack|].
  apply mapM_Ok in Hvs, Hfs, Hns, Hts. split; [done|]. split; [|split].
  - eapply Forall2_impl; [done|]. intros f b. apply pack_face_unpack.
  - eapply Forall2_impl; [done|]. intros slot b. apply pack_node_unpack.
  - eapply Forall2_impl; [done|]. intros f b [Hfit ->]%pack_H_Ok.
    by apply le16_unsigned.
Qed.

End EncoderFacts.

Section EncoderClaims.
Context `{Scalar}.

Lemma exceeds_not_encodable vertices (faces : list face) fb :
  exceeds_field vertices faces fb → ¬ encodable vertices faces fb.
Proof.
  intros Hex (Ha & Hb & Hc & Hvs & Hfs & Hns & Hts).
  unfold fits_H in *.
  destruct Hex as [?|[?|[?|[(f & Hf & Hbad)|[(nd & Hnd & Hbad)|(f & Hf & Hbad)]]]]];
    try lia.
  - rewrite Forall_forall in Hfs. destruct (Hfs f Hf) as [Hlen Hidx].
    unfold fits_B in Hlen. destruct Hbad as [?|(i & Hi & Hbig)]; [lia|].
    rewrite Forall_forall in Hidx. specialize (Hidx i Hi). unfold fits_H in Hidx. lia.
  - rewrite Forall_forall in Hns.
    destruct (Hns _ Hnd) as (nd' & [= <-] & H1 & H2 & H3 & H4 & H5).
    unfold fits_H, fits_h in *. lia.
  - rewrite Forall_forall in Hts. specialize (Hts f Hf). unfold fits_H in Hts. lia.
Qed.

(** C10, as the code has it: [write_bsp_binary] finishes exactly on the
    inputs whose counts, face lengths, vertex indices, node fields and
    resolved coplanar-table entries fit their fields, with child indices in
    the signed 16-bit range, every node slot filled and coordinates that
    fit a binary32 number, and raises on every other input, in particular
    when a count, a length or an index is too large; in a finished file
    every integer field reads back as the value it was written from. *)
Theorem encoder_raises_iff_out_of_range (vertices : list vertex)
    (faces : list face) (fb : FlatBSP) :
  ((∃ bytes, write_bsp_binary vertices faces fb = Ok bytes)
     ↔ encodable vertices faces fb)
  ∧ ((∃ e, write_bsp_binary vertices faces fb = Raise e)
     ↔ ¬ encodable vertices faces fb)
  ∧ (exceeds_field vertices faces fb
     → ∃ e, write_bsp_binary vertices faces fb = Raise e)
  ∧ (∀ bytes, write_bsp_binary vertices faces fb = Ok bytes
     → file_layout vertices faces fb bytes).
Proof.
  pose proof (write_bsp_binary_Ok vertices faces fb) as Hiff.
  assert ((∃ e, write_bsp_binary vertices faces fb = Raise e)
          ↔ ¬ encodable vertices faces fb) as Hraise.
  { split.
    - intros [e He] Henc. apply Hiff in Henc as [bytes Hb]. congruence.
    - intros Hnot. destruct (result_cases (write_bsp_binary vertices faces fb))
        as [[bytes Hb]|?]; [|done].
      exfalso. apply Hnot, Hiff. by eexists. }
  split; [done|]. split; [done|]. split.
  - intros Hex. by apply Hraise, exceeds_not_encodable.
  - apply write_bsp_binary_layout.
Qed.

End EncoderClaims.

Section Sentinel.
Context `{Scalar}.

(** The record of slot [k] in a finished file: what precedes it, its ten
    bytes, and what follows it (the later records and the coplanar table). *)
Lemma write_bsp_binary_record (vertices : list vertex) (fcs : list face) fb bytes k nd :
  write_bsp_binary vertices fcs fb = Ok bytes →
  fb_nodes fb !! k = Some (Some nd) →
  ∃ pre rec post,
    bytes = pre ++ rec ++ post
    ∧ pack_node (Some nd) = Ok rec
    ∧ length post = (10 * (length (fb_nodes fb) - S k)
                     + 2 * length (fb_faces_on_plane fb))%nat.
Proof.
  unfold write_bsp_binary. intros Hw Hk.
  apply bind_Ok in Hw as (hdr & Hhdr & Hw).
  apply bind_Ok in Hw as (vs & Hvs & Hw).
  apply bind_Ok in Hw as (fs & Hfs & Hw).
  apply bind_Ok in Hw as (ns & Hns & Hw).
  apply bind_Ok in Hw as (ts & Hts & [= <-]).
  apply mapM_Ok in Hns, Hts.
  destruct (Forall2_lookup_l _ _ _ _ _ Hns Hk) as (rec & Hrec & Hpack).
  exists (hdr ++ concat vs ++ concat fs ++ concat (take k ns)), rec,
         (concat (drop (S k) ns) ++ concat ts).
  split; [|split; [done|]].
  - rewrite <- (take_drop_middle ns k rec Hrec) at 1.
    rewrite concat_app. simpl. by rewrite <- !app_assoc.
  - rewrite length_app.
    assert (length (concat (drop (S k) ns)) = (10 * (length (fb_nodes fb) - S k))%nat) as ->.
    { pose proof (Forall2_length _ _ _ Hns) as Hlen.
      pose proof (Forall2_drop _ _ _ (S k) Hns) as Hdrop.
      rewrite Hlen, <- length_drop. clear -Hdrop.
      induction Hdrop as [|s bs slots nss Hs _ IH]; simpl; [done|].
      rewrite length_app, IH, (pack_node_length _ _ Hs). lia. }
    assert (length (concat ts) = (2 * length (fb_faces_on_plane fb))%nat) as ->; [|done].
    clear -Hts. induction Hts as [|f bs fcs' ts Hf _ IH]; simpl; [done|].
    rewrite length_app, IH. unfold pack_coplanar in Hf.
    rewrite (pack_H_length _ _ Hf). lia.
Qed.

Lemma pack_node_sentinel nd rec :
  pack_node (Some nd) = Ok rec → plane_face_idx nd = 0xFFFF →
  take 2 rec = ["255"%byte; "255"%byte].
Proof.
  unfold pack_node. intros Hrec Hpfi. rewrite Hpfi in Hrec.
  apply bind_Ok in Hrec as (a & Ha & Hrec).
  apply bind_Ok in Hrec as (b & Hb & Hrec).
  apply bind_Ok in Hrec as (c & Hc & Hrec).
  apply bind_Ok in Hrec as (d & Hd & Hrec).
  apply bind_Ok in Hrec as (e & He & [= <-]).
  by injection Ha as <-.
Qed.

End Sentinel.

Section FlatSlots.
Variable py_id : loc → Z.
Hypothesis py_id_inj : Inj (=) (=) py_id.

(** [FlatBSP.run] on a linked tree, against any face list: nothing raises,
    every node has the slot that the first pass gave it, the slot holds
    whatever [find_face_idx] returned for the node's splitting face, and
    every slot is the slot of a node. *)
Lemma flat_run_slots (faces0 fcs : list face) (h : heap) (root : option loc) (t : tree) :
  represents faces0 h root t →
  ∃ m fb,
    node_to_idx py_id h root = Ok m
    ∧ flat_run py_id h root fcs = Ok fb
    ∧ (∀ l, reachable h root l →
         ∃ k c nd, m !! py_id l = Some k
           ∧ h !! l = Some c
           ∧ fb_nodes fb !! k = Some (Some nd)
           ∧ plane_face_idx nd = find_face_idx fcs (n_plane_face c))
    ∧ (∀ k slot, fb_nodes fb !! k = Some slot →
         ∃ l, reachable h root l ∧ m !! py_id l = Some k).
Proof.
  intros (lt & Hrepr & <- & _ & Hnd).
  destruct (decide (lt = LLeaf)) as [->|Hne].
  { exists ∅, {| fb_nodes := []; fb_faces_on_plane := []; fb_faces := fcs |}.
    split; [done|]. split; [done|]. split.
    - intros l Hl. inversion Hl.
    - intros k slot Hk. by destruct k. }
  destruct (flat_run_spec_idx py_id py_id_inj faces0 h lt fcs Hrepr Hnd Hne)
    as (m & fb & Hrun & _ & Hlen & _ & Hslot & Hsurj & _ & _ & Hm).
  exists m, fb. split; [done|]. split; [done|]. split.
  - intros l Hl. apply (reachable_locs _ _ _ _ Hrepr) in Hl.
    destruct (repr_locs_valid _ _ _ _ Hrepr Hl) as [c Hc].
    apply list_elem_of_lookup in Hl as [j Hj].
    destruct (Hslot j l c Hj Hc) as (i & Hi & Hrec).
    exists i, c. eexists. split; [done|]. split; [done|]. split; [exact Hrec|done].
  - intros k slot Hk. apply lookup_lt_Some in Hk. rewrite Hlen in Hk.
    destruct (Hsurj k Hk) as (l & Hl & Hi).
    exists l. split; [|done]. by eapply locs_reachable.
Qed.

End FlatSlots.

(** C1, as the code has it: a failed lookup raises nothing.
    [find_face_idx] returns 0xFFFF; whatever linked tree [FlatBSP.run]
    flattens against whatever face list, it finishes, and the slot of a node
    whose splitting face is not in the list holds 0xFFFF as its
    [plane_face_idx]; in every file that [write_bsp_binary] finishes from
    these arrays the record of that slot begins with the bytes FF FF.  On
    the tree that [build_bsp] returns for the same face list the lookup
    cannot fail: the slot of every node (the slot that the first pass of
    [flatten] recorded for it in [node_to_idx]) holds the position of a
    face equal to the splitting face of that node, below the face count and
    so not 0xFFFF when the mesh has at most 65535 faces; and every slot is
    the slot of a node. *)
Theorem sentinel_only_on_failed_lookup `{Scalar} (py_id : loc → Z)
    (faces : list face) (vertices : list vertex) :
  Inj (=) (=) py_id →
  Forall (well_formed_face vertices) faces →
  (∀ (fcs : list face) (f : face), f ∉ fcs →
     find_face_idx fcs (Some f) = 0xFFFF
     ∧ pack_H (find_face_idx fcs (Some f)) = Ok ["255"%byte; "255"%byte])
  ∧ (∀ (faces0 fcs : list face) (h : heap) (root : option loc) (t : tree),
       represents faces0 h root t →
       ∃ m fb,
         node_to_idx py_id h root = Ok m
         ∧ flat_run py_id h root fcs = Ok fb
         ∧ ∀ l c f,
             reachable h root l → h !! l = Some c → n_plane_face c = Some f →
             f ∉ fcs →
             ∃ k nd,
               m !! py_id l = Some k
               ∧ fb_nodes fb !! k = Some (Some nd)
               ∧ plane_face_idx nd = 0xFFFF
               ∧ ∀ (vs : list vertex) bytes,
                   write_bsp_binary vs fcs fb = Ok bytes →
                   ∃ pre rec post,
                     bytes = pre ++ rec ++ post
                     ∧ length rec = 10%nat
                     ∧ length post
                       = (10 * (length (fb_nodes fb) - S k)
                          + 2 * length (fb_faces_on_plane fb))%nat
                     ∧ unpack_node rec = Some nd
                     ∧ take 2 rec = ["255"%byte; "255"%byte])
  ∧ ∃ h root m fb,
      build_bsp faces vertices = Ok (h, root)
      ∧ node_to_idx py_id h root = Ok m
      ∧ flat_run py_id h root faces = Ok fb
      ∧ (∀ l, reachable h root l →
           ∃ k c f nd,
             m !! py_id l = Some k
             ∧ h !! l = Some c
             ∧ n_plane_face c = Some f
             ∧ fb_nodes fb !! k = Some (Some nd)
             ∧ faces !! Z.to_nat (plane_face_idx nd) = Some f
             ∧ 0 ≤ plane_face_idx nd < Z.of_nat (length faces)
             ∧ (Z.of_nat (length faces) ≤ 65535 → plane_face_idx nd ≠ 0xFFFF))
      ∧ (∀ k slot, fb_nodes fb !! k = Some slot →
           ∃ l, reachable h root l ∧ m !! py_id l = Some k).
Proof.
  intros Hinj Hwf. split; [|split].
  - intros fcs f Hnot. unfold find_face_idx.
    by rewrite (find_face_from_not_in 0 fcs f Hnot).
  - intros faces0 fcs h root t Hrep.
    destruct (flat_run_slots py_id Hinj faces0 fcs h root t Hrep)
      as (m & fb & Hm & Hrun & Hnodes & _).
    exists m, fb. split; [done|]. split; [done|].
    intros l c f Hl Hc Hf Hnot.
    destruct (Hnodes l Hl) as (k & c' & nd & Hk & Hc' & Hslot & Hpfi).
    rewrite Hc in Hc'. injection Hc' as <-.
    rewrite Hf in Hpfi. unfold find_face_idx in Hpfi.
    rewrite (find_face_from_not_in 0 fcs f Hnot) in Hpfi.
    exists k, nd. split; [done|]. split; [done|]. split; [done|].
    intros vs bytes Hw.
    destruct (write_bsp_binary_record vs fcs fb bytes k nd Hw Hslot)
      as (pre & rec & post & Hbytes & Hrec & Hpost).
    exists pre, rec, post. split; [done|].
    split; [by apply (pack_node_length (Some nd))|]. split; [done|].
    split; [|by eapply pack_node_sentinel].
    destruct (pack_node_unpack _ _ Hrec) as (nd' & [= <-] & Hun). done.
  - destruct (build_spec_total faces vertices Hwf) as [t Ht].
    destruct (build_bsp_represents faces vertices t Hwf Ht) as (h & root & Hbuild & Hrep).
    destruct (flat_run_slots py_id Hinj faces faces h root t Hrep)
      as (m & fb & Hm & Hrun & Hnodes & Hslots).
    exists h, root, m, fb. split; [done|]. split; [done|]. split; [done|].
    split; [|done].
    intros l Hl. destruct (Hnodes l Hl) as (k & c & nd & Hk & Hc & Hslot & Hpfi).
    destruct Hrep as (lt & Hrepr & <- & _ & _).
    destruct (reachable_lnodes _ _ _ _ Hrepr Hl) as (pi & on & Hin).
    destruct (lnodes_repr faces h lt l pi on Hrepr Hin) as (c' & Hc' & [f Hf] & Hpf & _).
    rewrite Hc in Hc'. injection Hc' as <-.
    rewrite Hpf, Hf in Hpfi. unfold find_face_idx in Hpfi.
    destruct (find_face_from_in 0 faces f) as (k' & Hk' & Hfind & _).
    { by eapply list_elem_of_lookup_2. }
    rewrite Hfind in Hpfi. pose proof (lookup_lt_Some _ _ _ Hk') as Hlt.
    exists k, c, f, nd. rewrite Hpfi, Z.add_0_l, Nat2Z.id.
    split; [done|]. split; [done|]. split; [by rewrite Hpf|]. split; [done|].
    split; [done|]. split; lia.
Qed.

(** ** More about the builder *)

Section BuilderExtras.
Context `{Scalar}.

Lemma classify_face_flags (f : face) pl vertices s :
  classify_face f pl vertices = Ok s ↔
  ∃ front back, classify_loop pl vertices f false false = Ok (front, back)
                ∧ s = side_of_flags front back.
Proof.
  unfold classify_face. split.
  - intros Hs. apply bind_Ok in Hs as ([front back] & Hloop & Hs).
    exists front, back. split; [done|].
    destruct front, back; simpl in *; by injection Hs as <-.
  - intros (front & back & -> & ->). simpl. by destruct front, back.
Qed.

(** The inlined loop stops before the end only with both flags set. *)
Lemma inline_classify_early pl vertices (f : face) front back r :
  inline_classify pl vertices f front back = Ok r →
  classify_loop pl vertices f front back = Ok r
  ∨ r = (true, true).
Proof.
  revert front back. induction f as [|i f IH]; intros front back; simpl; [by left|].
  destruct (py_index vertices i) as [p|e]; simpl; [|discriminate].
  destruct (f_gtb _ _).
  - destruct back; [intros [= <-]; by right | apply IH].
  - destruct (f_ltb _ _); [|apply IH].
    destruct front; [intros [= <-]; by right | apply IH].
Qed.

Lemma inline_classify_raises pl vertices (f : face) front back e :
  inline_classify pl vertices f front back = Raise e →
  classify_loop pl vertices f front back = Raise e.
Proof.
  revert front back. induction f as [|i f IH]; intros front back; simpl; [done|].
  destruct (py_index vertices i) as [p|e']; simpl; [|done].
  destruct (f_gtb _ _).
  - destruct back; [done | apply IH].
  - destruct (f_ltb _ _); [|apply IH].
    destruct front; [done | apply IH].
Qed.

(** X2: the classification that [build_bsp] inlines, with its two early
    exits, and [classify_face] give every face the same class: when
    [classify_face] returns a class the inlined loop ends with the flags of
    that class; when the inlined loop raises, so does [classify_face], with
    the same exception; and when the inlined loop ends, [classify_face]
    returns the class of its flags, unless the loop left early with both
    flags set and [classify_face] raises on a vertex index that the loop
    did not reach. *)
Theorem inline_classification_agrees (f : face) (pl : plane) (vertices : list vertex) :
  (∀ s, classify_face f pl vertices = Ok s →
     ∃ front back, inline_classify pl vertices f false false = Ok (front, back)
                   ∧ s = side_of_flags front back)
  ∧ (∀ e, inline_classify pl vertices f false false = Raise e →
       classify_face f pl vertices = Raise e)
  ∧ (∀ front back, inline_classify pl vertices f false false = Ok (front, back) →
       classify_face f pl vertices = Ok (side_of_flags front back)
       ∨ (front = true ∧ back = true ∧ ∃ e, classify_face f pl vertices = Raise e)).
Proof.
  split; [|split].
  - intros s Hs. apply classify_face_flags in Hs as (front & back & Hloop & ->).
    exists front, back. split; [|done]. by apply inline_classify_agrees.
  - intros e He. apply inline_classify_raises in He.
    unfold classify_face. by rewrite He.
  - intros front back Hin.
    destruct (inline_classify_early _ _ _ _ _ _ Hin) as [Hloop|[= -> ->]].
    + left. apply classify_face_flags. by exists front, back.
    + destruct (result_cases (classify_face f pl vertices)) as [[s Hs]|He].
      * left. rewrite Hs. f_equal.
        apply classify_face_flags in Hs as (front & back & Hloop & ->).
        apply inline_classify_agrees in Hloop. congruence.
      * by right.
Qed.

End BuilderExtras.

Section BuilderExtras2.
Context `{Scalar}.

(** X1: the ordering that the tree of [build_bsp] encodes.  At every node
    the coplanar faces start with the splitting face and the others lie
    on its plane, every face stored below the front child is in front of
    the plane or spans it, and every face stored below the back child is
    behind it. *)
Theorem build_bsp_orders_faces (faces : list face) (vertices : list vertex) :
  Forall (well_formed_face vertices) faces →
  ∃ t h root,
    build_bsp faces vertices = Ok (h, root)
    ∧ represents faces h root t
    ∧ ∀ pi on tf tb, Node pi on tf tb ∈ subtrees t →
        ∃ fp pl,
          faces !! pi = Some fp
          ∧ face_plane fp vertices = Ok pl
          ∧ head on = Some pi
          ∧ (∀ fi, fi ∈ tail on → class_of faces vertices pl fi On)
          ∧ (∀ fi, fi ∈ all_coplanar tf →
               class_of faces vertices pl fi Front
               ∨ class_of faces vertices pl fi Spanning)
          ∧ (∀ fi, fi ∈ all_coplanar tb → class_of faces vertices pl fi Back).
Proof.
  intros Hwf.
  destruct (build_spec_total faces vertices Hwf) as [t Ht].
  destruct (build_bsp_represents faces vertices t Hwf Ht) as (h & root & Hbuild & Hrep).
  exists t, h, root. split; [done|]. split; [done|].
  intros pi on tf tb Hsub.
  pose proof (build_rec_nodes _ _ _ _ _ Ht) as Hok.
  rewrite Forall_forall in Hok. specialize (Hok _ Hsub).
  destruct Hok as (fp & pl & on' & -> & Hfp & Hpl & Hon & Hfr & Hbk).
  by exists fp, pl.
Qed.

Lemma mapM_raises {A B} (g : A → result B) (l : list A) (e : py_error) :
  Forall (λ x, (∃ y, g x = Ok y) ∨ g x = Raise e) l →
  Exists (λ x, g x = Raise e) l →
  mapM g l = Raise e.
Proof.
  induction 1 as [|x l Hx Hl IH]; intros Hex; [by inversion Hex|].
  simpl. destruct Hx as [[y Hy]| ->]; [|done]. rewrite Hy. simpl.
  inversion Hex as [? ? Hx'|? ? Hex']; subst; [congruence|].
  by rewrite (IH Hex').
Qed.

Lemma build_bsp_short_face (faces : list face) (vertices : list vertex) :
  Forall (Forall (in_range vertices)) faces →
  Exists (λ f : face, (length f < 3)%nat) faces →
  mapM (λ f, face_plane f vertices) faces = Raise ValueError
  ∧ build_bsp faces vertices = Raise ValueError.
Proof.
  intros Hrange Hex.
  assert (mapM (λ f, face_plane f vertices) faces = Raise ValueError) as Hplanes.
  { apply mapM_raises.
    - eapply Forall_impl; [exact Hrange|]. intros f Hf. simpl.
      destruct (Nat.lt_ge_cases (length f) 3) as [Hlt|Hge].
      + right. by apply face_plane_short.
      + left. by apply face_plane_total.
    - eapply Exists_impl; [exact Hex|]. intros f Hf. by apply face_plane_short. }
  split; [done|].
  unfold build_bsp. destruct faces; [by inversion Hex|]. by rewrite Hplanes.
Qed.

(** X3: on a mesh whose vertex indices are all in range, [build_bsp]
    raises exactly when some face has fewer than three vertices; the
    exception is the [ValueError] of [face_plane], raised while the planes
    are computed, before the first node is created.  In particular the
    empty face list is accepted (the tree is [None]). *)
Theorem build_bsp_rejects_short_face (faces : list face) (vertices : list vertex) :
  Forall (Forall (in_range vertices)) faces →
  ((∃ e, build_bsp faces vertices = Raise e)
     ↔ Exists (λ f : face, (length f < 3)%nat) faces)
  ∧ (∀ e, build_bsp faces vertices = Raise e →
       e = ValueError
       ∧ mapM (λ f, face_plane f vertices) faces = Raise ValueError).
Proof.
  intros Hrange.
  destruct (decide (Exists (λ f : face, (length f < 3)%nat) faces)) as [Hex|Hnex].
  - destruct (build_bsp_short_face faces vertices Hrange Hex) as [Hplanes Hraise].
    rewrite Hraise. split; [split; [done | by eexists]|].
    by intros e [= <-].
  - assert (Forall (well_formed_face vertices) faces) as Hwf.
    { apply Forall_forall. intros f Hf. split.
      - apply Nat.le_ngt. intros Hlt. apply Hnex. apply Exists_exists. by exists f.
      - rewrite Forall_forall in Hrange. by apply Hrange. }
    destruct (build_spec_total faces vertices Hwf) as [t Ht].
    destruct (build_bsp_represents faces vertices t Hwf Ht) as (h & root & -> & _).
    split; [|discriminate]. split; [by intros [e [=]] | done].
Qed.

End BuilderExtras2.

(** X4: [find_face_idx] returns the position of the first face of the
    list that equals the face it is given, and 0xFFFF when there is none;
    so its result is a position of the list or 0xFFFF. *)
Theorem find_face_idx_first (fcs : list face) (f : face) :
  (f ∈ fcs →
     ∃ k, fcs !! k = Some f
          ∧ (∀ k', (k' < k)%nat → fcs !! k' ≠ Some f)
          ∧ find_face_idx fcs (Some f) = Z.of_nat k)
  ∧ (f ∉ fcs → find_face_idx fcs (Some f) = 0xFFFF)
  ∧ (find_face_idx fcs (Some f) ≠ 0xFFFF →
       fcs !! Z.to_nat (find_face_idx fcs (Some f)) = Some f).
Proof.
  split; [|split].
  - intros Hin. destruct (find_face_from_in 0 fcs f Hin) as (k & Hk & Hfind & Hleast).
    exists k. by rewrite Z.add_0_l in Hfind.
  - apply find_face_from_not_in.
  - intros Hne. destruct (decide (f ∈ fcs)) as [Hin|Hnin].
    + destruct (find_face_from_in 0 fcs f Hin) as (k & Hk & Hfind & _).
      unfold find_face_idx. by rewrite Hfind, Z.add_0_l, Nat2Z.id.
    + by apply (find_face_from_not_in 0) in Hnin.
Qed.

(** ** The recursive builder of [BSP/build_bsp.py] *)

Section LegacyFacts.
Context `{Scalar}.
Variable py_sum : list F → F.

Lemma legacy_face_plane_unfold i0 i1 i2 rest vertices p0 p1 p2 :
  py_index vertices i0 = Ok p0 →
  py_index vertices i1 = Ok p1 →
  py_index vertices i2 = Ok p2 →
  Legacy.face_plane py_sum (i0 :: i1 :: i2 :: rest) vertices =
    Ok (let n := cross p0 p1 p2 in
        let norm := f_pow_half (py_sum [n.1.1 ⊠ n.1.1; n.1.2 ⊠ n.1.2; n.2 ⊠ n.2]) in
        if f_eqb norm f_zero
        then {| point := p0; normal := (f_zero, f_zero, f_one) |}
        else {| point := p0;
                normal := (f_div n.1.1 norm, f_div n.1.2 norm, f_div n.2 norm) |}).
Proof.
  intros H0 H1 H2. unfold Legacy.face_plane.
  change (length (i0 :: i1 :: i2 :: rest) <? 3)%nat with false.
  pose proof (py_index_nat (i0 :: i1 :: i2 :: rest) 0 i0 eq_refl) as E0.
  pose proof (py_index_nat (i0 :: i1 :: i2 :: rest) 1 i1 eq_refl) as E1.
  pose proof (py_index_nat (i0 :: i1 :: i2 :: rest) 2 i2 eq_refl) as E2.
  change (Z.of_nat 0) with 0 in E0. change (Z.of_nat 1) with 1 in E1.
  change (Z.of_nat 2) with 2 in E2. rewrite E0, E1, E2.
  simpl. rewrite H0. simpl. rewrite H1. simpl. rewrite H2. simpl.
  destruct (cross p0 p1 p2) as [[nx ny] nz]. simpl.
  by destruct (f_eqb _ _).
Qed.

Lemma legacy_face_plane_total (f : face) vertices :
  well_formed_face vertices f → ∃ pl, Legacy.face_plane py_sum f vertices = Ok pl.
Proof.
  intros [Hlen Hall].
  destruct f as [|i0 [|i1 [|i2 rest]]]; simpl in Hlen; try lia.
  inversion Hall as [|? ? H0 Hall1]; subst.
  inversion Hall1 as [|? ? H1 Hall2]; subst.
  inversion Hall2 as [|? ? H2 _]; subst.
  apply py_index_in_range in H0 as [p0 H0].
  apply py_index_in_range in H1 as [p1 H1].
  apply py_index_in_range in H2 as [p2 H2].
  erewrite legacy_face_plane_unfold by done. by eexists.
Qed.

(** X8: the recursive builder's [face_plane] raises on the same faces as the
    iterative builder's: exactly those with fewer than three vertices. *)
Lemma legacy_face_plane_raises_iff (f : face) (vertices : list vertex) :
  Forall (in_range vertices) f →
  ((∃ e, Legacy.face_plane py_sum f vertices = Raise e) ↔ (length f < 3)%nat)
  ∧ (∀ e, Legacy.face_plane py_sum f vertices = Raise e → e = ValueError).
Proof.
  intros Hall.
  destruct (Nat.ltb_spec (length f) 3) as [Hlt|Hge].
  - assert (Legacy.face_plane py_sum f vertices = Raise ValueError) as Hraise.
    { unfold Legacy.face_plane. by destruct (Nat.ltb_spec (length f) 3); [|lia]. }
    rewrite Hraise. split; [|by intros e [= <-]]. split; [done|]. by eexists.
  - destruct f as [|i0 [|i1 [|i2 rest]]]; simpl in Hge; try lia.
    inversion Hall as [|? ? H0 Hall1]; subst.
    inversion Hall1 as [|? ? H1 Hall2]; subst.
    inversion Hall2 as [|? ? H2 _]; subst.
    apply py_index_in_range in H0 as [p0 H0].
    apply py_index_in_range in H1 as [p1 H1].
    apply py_index_in_range in H2 as [p2 H2].
    erewrite legacy_face_plane_unfold by done.
    split; [|discriminate]. split; [by intros [e [=]] | simpl; lia].
Qed.

Lemma legacy_classify_loop_total pl vertices (f : face) front back :
  Forall (in_range vertices) f →
  ∃ fb, Legacy.classify_loop py_sum pl vertices f front back = Ok fb.
Proof.
  intros Hall. revert front back.
  induction Hall as [|i f Hi _ IH]; intros front back; simpl; [by eexists|].
  apply py_index_in_range in Hi as [p ->]. simpl.
  destruct (f_gtb _ _); [apply IH|]. destruct (f_ltb _ _); apply IH.
Qed.

Lemma legacy_classify_face_total pl vertices (f : face) :
  Forall (in_range vertices) f →
  ∃ s, Legacy.classify_face py_sum f pl vertices = Ok s.
Proof.
  intros Hall. unfold Legacy.classify_face.
  destruct (legacy_classify_loop_total pl vertices f false false Hall) as [[fr bk] ->].
  simpl. destruct fr, bk; simpl; by eexists.
Qed.

(** The partition of [build_bsp]: every face joins the list of its class,
    in the order of the input. *)
Lemma legacy_classify_all_spec vertices pl faces on fr bk on' fr' bk' :
  Legacy.classify_all py_sum vertices pl faces on fr bk = Ok (on', fr', bk') →
  ∃ on1 fr1 bk1,
    on' = on ++ on1 ∧ fr' = fr ++ fr1 ∧ bk' = bk ++ bk1
    ∧ faces ≡ₚ on1 ++ fr1 ++ bk1
    ∧ Forall (λ f, Legacy.classify_face py_sum f pl vertices = Ok On) on1
    ∧ Forall (λ f, Legacy.classify_face py_sum f pl vertices = Ok Front
                   ∨ Legacy.classify_face py_sum f pl vertices = Ok Spanning) fr1
    ∧ Forall (λ f, Legacy.classify_face py_sum f pl vertices = Ok Back) bk1
    ∧ (∀ f rest, faces = f :: rest →
         match Legacy.classify_face py_sum f pl vertices with
         | Ok On => head on1 = Some f
         | Ok Back => head bk1 = Some f
         | Ok _ => head fr1 = Some f
         | Raise _ => False
         end).
Proof.
  revert on fr bk. induction faces as [|f faces IH]; intros on fr bk; simpl.
  - intros [= <- <- <-]. exists [], [], []. rewrite !app_nil_r. by repeat split.
  - destruct (Legacy.classify_face py_sum f pl vertices) as [cls|e] eqn:Hcls;
      simpl; [|discriminate].
    destruct cls; intros Hrest;
      apply IH in Hrest as (on1 & fr1 & bk1 & -> & -> & -> & Hperm & Hon & Hfr & Hbk & _).
    + exists on1, (f :: fr1), bk1. rewrite <- !app_assoc. simpl.
      split; [done|]. split; [done|]. split; [done|].
      split. { rewrite Hperm. by rewrite Permutation_middle. }
      split; [done|]. split; [constructor; auto|]. split; [done|].
      intros f' rest [= <- <-]. by rewrite Hcls.
    + exists on1, fr1, (f :: bk1). rewrite <- !app_assoc. simpl.
      split; [done|]. split; [done|]. split; [done|].
      split. { rewrite Hperm. rewrite app_assoc. by rewrite Permutation_middle, <- app_assoc. }
      split; [done|]. split; [done|]. split; [constructor; auto|].
      intros f' rest [= <- <-]. by rewrite Hcls.
    + exists (f :: on1), fr1, bk1. rewrite <- !app_assoc. simpl.
      split; [done|]. split; [done|]. split; [done|].
      split. { by rewrite Hperm. }
      split; [constructor; auto|]. split; [done|]. split; [done|].
      intros f' rest [= <- <-]. by rewrite Hcls.
    + exists on1, (f :: fr1), bk1. rewrite <- !app_assoc. simpl.
      split; [done|]. split; [done|]. split; [done|].
      split. { rewrite Hperm. by rewrite Permutation_middle. }
      split; [done|]. split; [constructor; auto|]. split; [done|].
      intros f' rest [= <- <-]. by rewrite Hcls.
Qed.

Lemma legacy_build_cons limit f rest vertices t :
  Legacy.build_bsp py_sum limit (f :: rest) vertices = Ok t →
  ∃ on tf tb, t = Dict f on tf tb.
Proof.
  destruct limit as [|limit']; [discriminate|]. cbn [Legacy.build_bsp]. intros Hb.
  apply bind_Ok in Hb as (pl & _ & Hb).
  apply bind_Ok in Hb as ([[on fr] bk] & _ & Hb).
  apply bind_Ok in Hb as (tf & _ & Hb).
  apply bind_Ok in Hb as (tb & _ & [= <-]). by eauto.
Qed.

Lemma legacy_build_inv limit faces vertices pf on tf tb :
  Legacy.build_bsp py_sum limit faces vertices = Ok (Dict pf on tf tb) →
  ∃ limit' rest pl fr bk,
    limit = S limit' ∧ faces = pf :: rest
    ∧ Legacy.face_plane py_sum pf vertices = Ok pl
    ∧ Legacy.classify_all py_sum vertices pl faces [] [] [] = Ok (on, fr, bk)
    ∧ Legacy.build_bsp py_sum limit' fr vertices = Ok tf
    ∧ Legacy.build_bsp py_sum limit' bk vertices = Ok tb.
Proof.
  destruct limit as [|limit']; [discriminate|]. destruct faces as [|f rest]; [discriminate|].
  cbn [Legacy.build_bsp]. intros Hb.
  apply bind_Ok in Hb as (pl & Hpl & Hb).
  apply bind_Ok in Hb as ([[on' fr] bk] & Hall & Hb).
  apply bind_Ok in Hb as (tf' & Htf & Hb).
  apply bind_Ok in Hb as (tb' & Htb & Hb).
  injection Hb as <- <- <- <-. by exists limit', rest, pl, fr, bk.
Qed.

(** A first face that is not on its own plane joins the front or the back
    list, at its head, so that the nested call meets it again with the same
    plane: the recursion returns no tree, whatever the limit. *)
Lemma legacy_build_needs_flat_splitter limit f rest vertices pl cls :
  Legacy.face_plane py_sum f vertices = Ok pl →
  Legacy.classify_face py_sum f pl vertices = Ok cls →
  cls ≠ On →
  ∀ t, Legacy.build_bsp py_sum limit (f :: rest) vertices ≠ Ok t.
Proof.
  intros Hpl Hcls Hnot. revert rest.
  induction limit as [|limit IH]; intros rest t; [discriminate|].
  intros Hb. destruct (legacy_build_cons _ _ _ _ _ Hb) as (on & tf & tb & ->).
  apply legacy_build_inv in Hb
    as (limit' & rest' & pl' & fr & bk & [= <-] & [= <-] & Hpl' & Hall & Htf & Htb).
  rewrite Hpl in Hpl'. injection Hpl' as <-.
  apply legacy_classify_all_spec in Hall
    as (on1 & fr1 & bk1 & _ & -> & -> & _ & _ & _ & _ & Hhead).
  specialize (Hhead f rest eq_refl). rewrite Hcls in Hhead. simpl in Htf, Htb.
  destruct cls; try done.
  - destruct fr1 as [|f' fr1]; [done|]. injection Hhead as ->. by eapply IH.
  - destruct bk1 as [|f' bk1]; [done|]. injection Hhead as ->. by eapply IH.
  - destruct fr1 as [|f' fr1]; [done|]. injection Hhead as ->. by eapply IH.
Qed.

Lemma legacy_build_stored limit faces vertices t :
  Legacy.build_bsp py_sum limit faces vertices = Ok t → stored t ≡ₚ faces.
Proof.
  revert faces t. induction limit as [|limit IH]; intros faces t Hb; [discriminate|].
  - destruct faces as [|f rest]; [by injection Hb as <-|].
    destruct (legacy_build_cons _ _ _ _ _ Hb) as (on & tf & tb & ->).
    { apply legacy_build_inv in Hb
        as (limit' & rest' & pl & fr & bk & [= <-] & -> & _ & Hall & Htf & Htb).
      apply legacy_classify_all_spec in Hall
        as (on1 & fr1 & bk1 & -> & -> & -> & Hperm & _).
      simpl in *. by rewrite (IH _ _ Htf), (IH _ _ Htb), Hperm. }
Qed.

(** Every node of a returned tree is itself the result of a call. *)
Lemma legacy_build_dicts limit faces vertices t t' :
  Legacy.build_bsp py_sum limit faces vertices = Ok t →
  t' ∈ dicts t →
  ∃ limit' faces', Legacy.build_bsp py_sum limit' faces' vertices = Ok t'.
Proof.
  revert limit faces. induction t as [|pf on tf IHf tb IHb]; intros limit faces Hb Hin.
  - by apply elem_of_nil in Hin.
  - simpl in Hin. apply elem_of_cons in Hin as [->|Hin]; [by eauto|].
    apply legacy_build_inv in Hb
      as (limit' & rest' & pl & fr & bk & -> & -> & _ & _ & Htf & Htb).
    apply elem_of_app in Hin as [Hin|Hin]; eauto.
Qed.

(** The splitting face of a returned node is the first of its coplanar
    faces. *)
Lemma legacy_splitter_first limit faces vertices t pf on tf tb :
  Legacy.build_bsp py_sum limit faces vertices = Ok t →
  Dict pf on tf tb ∈ dicts t →
  head on = Some pf.
Proof.
  intros Hb Hin.
  destruct (legacy_build_dicts _ _ _ _ _ Hb Hin) as (limit' & faces' & Hb').
  apply legacy_build_inv in Hb'
    as (limit'' & rest & pl & fr & bk & -> & -> & Hpl & Hall & Htf & Htb).
  apply legacy_classify_all_spec in Hall
    as (on1 & fr1 & bk1 & -> & -> & -> & _ & _ & _ & _ & Hhead).
  specialize (Hhead pf rest eq_refl). simpl in *.
  destruct (Legacy.classify_face py_sum pf pl vertices) as [cls|] eqn:Hcls; [|done].
  destruct cls.
  - destruct fr1 as [|f' fr1]; [done|]. injection Hhead as ->.
    by eapply legacy_build_needs_flat_splitter in Htf.
  - destruct bk1 as [|f' bk1]; [done|]. injection Hhead as ->.
    by eapply legacy_build_needs_flat_splitter in Htb.
  - done.
  - destruct fr1 as [|f' fr1]; [done|]. injection Hhead as ->.
    by eapply legacy_build_needs_flat_splitter in Htf.
Qed.

(** X10: in every tree that the recursive builder returns, the coplanar
    faces of a node are not empty: they start with the node's splitting
    face. *)
Theorem legacy_coplanar_contains_splitter limit faces vertices t pf on tf tb :
  Legacy.build_bsp py_sum limit faces vertices = Ok t →
  Dict pf on tf tb ∈ dicts t →
  head on = Some pf ∧ pf ∈ on.
Proof.
  intros Hb Hin. pose proof (legacy_splitter_first _ _ _ _ _ _ _ _ Hb Hin) as Hhead.
  split; [done|]. destruct on as [|g on]; [done|]. injection Hhead as ->. by left.
Qed.

(** X11: in every tree that the recursive builder returns, a face of a node's
    partition that spans the node's plane is stored in the front subtree,
    whole, and neither in the back subtree nor among the coplanar faces. *)
Lemma legacy_spanning_goes_front limit faces vertices t pf on tf tb pl f :
  Legacy.build_bsp py_sum limit faces vertices = Ok t →
  Dict pf on tf tb ∈ dicts t →
  Legacy.face_plane py_sum pf vertices = Ok pl →
  f ∈ stored (Dict pf on tf tb) →
  Legacy.classify_face py_sum f pl vertices = Ok Spanning →
  f ∈ stored tf ∧ (f ∉ stored tb) ∧ (f ∉ on).
Proof.
  intros Hb Hin Hpl Hf Hspan.
  destruct (legacy_build_dicts _ _ _ _ _ Hb Hin) as (limit' & faces' & Hb').
  apply legacy_build_inv in Hb'
    as (limit'' & rest & pl' & fr & bk & -> & -> & Hpl' & Hall & Htf & Htb).
  rewrite Hpl in Hpl'. injection Hpl' as <-.
  apply legacy_classify_all_spec in Hall
    as (on1 & fr1 & bk1 & -> & -> & -> & _ & Hon & _ & Hbk & _).
  simpl in *. apply legacy_build_stored in Htf, Htb.
  rewrite Forall_forall in Hon, Hbk.
  assert (f ∉ on1) as Hnon.
  { intros Hin1. apply Hon in Hin1. congruence. }
  assert (f ∉ bk1) as Hnbk.
  { intros Hin1. apply Hbk in Hin1. congruence. }
  rewrite Htb. split; [|done].
  apply elem_of_app in Hf as [Hf|Hf]; [done|].
  apply elem_of_app in Hf as [Hf|Hf]; [done|]. by rewrite Htb in Hf.
Qed.

(** On a mesh whose faces are well formed the recursion raises nothing
    but [RecursionError]. *)
Lemma legacy_build_cases limit faces vertices :
  Forall (well_formed_face vertices) faces →
  (∃ t, Legacy.build_bsp py_sum limit faces vertices = Ok t)
  ∨ Legacy.build_bsp py_sum limit faces vertices = Raise RecursionError.
Proof.
  revert faces. induction limit as [|limit IH]; intros faces Hwf; [by right|].
  destruct faces as [|f rest]; [left; by eexists|]. cbn [Legacy.build_bsp].
  pose proof Hwf as Hwf'. apply Forall_cons in Hwf' as [[Hlen Hrange] _].
  destruct (legacy_face_plane_total f vertices (conj Hlen Hrange)) as [pl Hpl].
  rewrite Hpl. cbn [mbind result_bind].
  assert (∀ fs on fr bk, Forall (well_formed_face vertices) fs →
            ∃ r, Legacy.classify_all py_sum vertices pl fs on fr bk = Ok r) as Htotal.
  { clear. induction fs as [|g fs IHfs]; intros on fr bk Hfs; simpl; [by eexists|].
    apply Forall_cons in Hfs as [[_ Hg] Hfs].
    destruct (legacy_classify_face_total pl vertices g Hg) as [cls ->]. simpl.
    destruct cls; by apply IHfs. }
  destruct (Htotal (f :: rest) [] [] [] Hwf) as [[[on fr] bk] Hall]. rewrite Hall.
  cbn [mbind result_bind].
  apply legacy_classify_all_spec in Hall
    as (on1 & fr1 & bk1 & -> & -> & -> & Hperm & _).
  simpl in *.
  assert (Forall (well_formed_face vertices) fr1 ∧ Forall (well_formed_face vertices) bk1)
    as [Hwfr Hwbk].
  { rewrite Hperm in Hwf. apply Forall_app in Hwf as [_ Hwf].
    by apply Forall_app in Hwf. }
  destruct (IH fr1 Hwfr) as [[tf ->]| ->]; [|by right]. cbn [mbind result_bind].
  destruct (IH bk1 Hwbk) as [[tb ->]| ->]; [|by right]. cbn [mbind result_bind].
  left. by eexists.
Qed.

(** X12: the recursive builder returns only trees whose splitting faces lie
    on their own planes.  On a mesh of well-formed faces whose first face
    is not classified as lying on its own plane (a face that is not flat, or
    whose further vertices are off the plane of its first three), the
    recursion meets that face again at every level and ends in
    [RecursionError], whatever the limit. *)
Theorem legacy_build_recursion_error limit (f : face) rest vertices pl cls :
  Forall (well_formed_face vertices) (f :: rest) →
  Legacy.face_plane py_sum f vertices = Ok pl →
  Legacy.classify_face py_sum f pl vertices = Ok cls →
  cls ≠ On →
  Legacy.build_bsp py_sum limit (f :: rest) vertices = Raise RecursionError.
Proof.
  intros Hwf Hpl Hcls Hnot.
  destruct (legacy_build_cases limit (f :: rest) vertices Hwf) as [[t Ht]|]; [|done].
  by eapply legacy_build_needs_flat_splitter in Ht.
Qed.

(** X13: the ordering that a tree of the recursive builder encodes.  The
    tree stores every face of the mesh once (equal faces as often as the
    mesh has them); at every node the coplanar faces lie on the plane of
    the splitting face, the faces stored below the front child are in
    front of it or span it, and the faces below the back child are behind
    it. *)
Theorem legacy_build_orders_faces limit faces vertices t :
  Legacy.build_bsp py_sum limit faces vertices = Ok t →
  stored t ≡ₚ faces
  ∧ ∀ pf on tf tb, Dict pf on tf tb ∈ dicts t →
      ∃ pl, Legacy.face_plane py_sum pf vertices = Ok pl
        ∧ Forall (λ g, Legacy.classify_face py_sum g pl vertices = Ok On) on
        ∧ Forall (λ g, Legacy.classify_face py_sum g pl vertices = Ok Front
                       ∨ Legacy.classify_face py_sum g pl vertices = Ok Spanning)
                 (stored tf)
        ∧ Forall (λ g, Legacy.classify_face py_sum g pl vertices = Ok Back) (stored tb).
Proof.
  intros Hb. split; [by eapply legacy_build_stored|].
  intros pf on tf tb Hin.
  destruct (legacy_build_dicts _ _ _ _ _ Hb Hin) as (limit' & faces' & Hb').
  apply legacy_build_inv in Hb'
    as (limit'' & rest & pl & fr & bk & -> & -> & Hpl & Hall & Htf & Htb).
  apply legacy_classify_all_spec in Hall
    as (on1 & fr1 & bk1 & -> & -> & -> & _ & Hon & Hfr & Hbk & _).
  apply legacy_build_stored in Htf, Htb. simpl in *.
  exists pl. rewrite Htf, Htb. done.
Qed.

End LegacyFacts.

(** ** A repeated vertex, in binary64 arithmetic *)

Lemma zero64_finite x : zero64 x → finite64 x = true.
Proof. intros [s Hs]. unfold finite64. by rewrite Hs. Qed.

Lemma sub_self_zero x : finite64 (x - x)%float = true → zero64 (x - x)%float.
Proof.
  unfold finite64, zero64. rewrite FloatAxioms.sub_spec. unfold SF64sub.
  destruct (Prim2SF x) as [s|s| |s m e]; simpl.
  - intros _. destruct s; by eexists.
  - by destruct s.
  - done.
  - intros _. rewrite Z.sub_diag. by eexists.
Qed.

Lemma mul_zero_l a b : zero64 a → finite64 b = true → zero64 (a * b)%float.
Proof.
  intros [s Ha]. unfold finite64, zero64. rewrite FloatAxioms.mul_spec, Ha. unfold SF64mul.
  destruct (Prim2SF b); simpl; try done; intros _; by eexists.
Qed.

Lemma mul_zero_r a b : finite64 a = true → zero64 b → zero64 (a * b)%float.
Proof.
  intros Ha [s Hb]. revert Ha. unfold finite64, zero64. rewrite FloatAxioms.mul_spec, Hb.
  unfold SF64mul. destruct (Prim2SF a); simpl; try done; intros _; by eexists.
Qed.

Lemma sub_zeros a b : zero64 a → zero64 b → zero64 (a - b)%float.
Proof.
  intros [s Ha] [s' Hb]. unfold zero64. rewrite FloatAxioms.sub_spec, Ha, Hb. unfold SF64sub.
  destruct s, s'; by eexists.
Qed.

Lemma add_zeros a b : zero64 a → zero64 b → zero64 (a + b)%float.
Proof.
  intros [s Ha] [s' Hb]. unfold zero64. rewrite FloatAxioms.add_spec, Ha, Hb. unfold SF64add.
  destruct s, s'; by eexists.
Qed.

Lemma sqrt_zero a : zero64 a → zero64 (PrimFloat.sqrt a).
Proof.
  intros [s Ha]. unfold zero64. rewrite FloatAxioms.sqrt_spec, Ha. by eexists.
Qed.

Lemma eqb_zero a : zero64 a → PrimFloat.eqb a 0%float = true.
Proof. intros [s Ha]. by rewrite FloatAxioms.eqb_spec, Ha. Qed.

Lemma cross_zero (p0 p1 p2 : @vertex Binary64.binary64) :
  p1 = p0 ∨ p2 = p0 →
  finite_vec (edge p1 p0) = true → finite_vec (edge p2 p0) = true →
  let n := cross p0 p1 p2 in zero64 n.1.1 ∧ zero64 n.1.2 ∧ zero64 n.2.
Proof.
  destruct p0 as [[x0 y0] z0], p1 as [[x1 y1] z1], p2 as [[x2 y2] z2].
  unfold finite_vec, edge. rewrite !andb_true_iff.
  intros Heq [[Hux Huy] Huz] [[Hvx Hvy] Hvz]. simpl.
  destruct Heq as [[= -> -> ->]|[= -> -> ->]].
  - pose proof (sub_self_zero _ Hux). pose proof (sub_self_zero _ Huy).
    pose proof (sub_self_zero _ Huz).
    repeat split; apply sub_zeros; by apply mul_zero_l.
  - pose proof (sub_self_zero _ Hvx). pose proof (sub_self_zero _ Hvy).
    pose proof (sub_self_zero _ Hvz).
    repeat split; apply sub_zeros; by apply mul_zero_r.
Qed.

(** X9: a repeated vertex, in binary64 arithmetic.  When the second or
    the third vertex of a face is the first one again, and the two edges
    from the first vertex have finite coordinates, the cross product is a
    zero vector, its norm compares equal to 0, and [face_plane] of
    [build_bsp.py] returns the first vertex with the normal (0, 0, 1)
    instead of dividing by the norm.  [sum] is any function that returns a
    zero for three zeros. *)
Theorem legacy_face_plane_repeated_vertex (py_sum : list float → float)
    (vertices : list (@vertex Binary64.binary64)) (i0 i1 i2 : Z) (rest : face)
    (p0 p1 p2 : @vertex Binary64.binary64) :
  (∀ a b c, zero64 a → zero64 b → zero64 c → zero64 (py_sum [a; b; c])) →
  py_index vertices i0 = Ok p0 →
  py_index vertices i1 = Ok p1 →
  py_index vertices i2 = Ok p2 →
  p1 = p0 ∨ p2 = p0 →
  finite_vec (edge p1 p0) = true →
  finite_vec (edge p2 p0) = true →
  @Legacy.face_plane Binary64.binary64 py_sum (i0 :: i1 :: i2 :: rest) vertices
  = Ok {| point := p0; normal := (0, 0, 1)%float |}.
Proof.
  intros Hsum H0 H1 H2 Heq Hu Hv.
  rewrite (@legacy_face_plane_unfold Binary64.binary64 py_sum i0 i1 i2 rest vertices
             p0 p1 p2 H0 H1 H2).
  destruct (cross_zero p0 p1 p2 Heq Hu Hv) as (Hx & Hy & Hz).
  cbv zeta. 
  assert (zero64 (py_sum [(cross p0 p1 p2).1.1 * (cross p0 p1 p2).1.1;
                          (cross p0 p1 p2).1.2 * (cross p0 p1 p2).1.2;
                          (cross p0 p1 p2).2 * (cross p0 p1 p2).2]%float)) as Hnorm.
  { apply Hsum; apply mul_zero_l; auto using zero64_finite. }
  apply sqrt_zero, eqb_zero in Hnorm.
  match goal with
  | |- Ok (if ?b then _ else _) = _ => assert (b = true) as -> by exact Hnorm
  end.
  done.
Qed.

(** ** Reading the flattened tree back *)

Lemma face_at_find (fcs : list face) (f : face) :
  f ∈ fcs → face_at fcs (find_face_idx fcs (Some f)) = Some f.
Proof.
  intros Hf. destruct (find_face_from_in 0 fcs f Hf) as (k & Hk & Hfind & _).
  unfold face_at, find_face_idx. rewrite Hfind, Z.add_0_l.
  destruct (Z.ltb_spec (Z.of_nat k) 0); [lia|]. by rewrite Nat2Z.id.
Qed.

Lemma faces_at_find (fcs : list face) (fs : list face) :
  Forall (λ f, f ∈ fcs) fs →
  faces_at fcs (map (λ f, find_face_idx fcs (Some f)) fs) = Some fs.
Proof.
  induction 1 as [|f fs Hf _ IH]; simpl; [done|].
  by rewrite face_at_find, IH.
Qed.

Section ReadBack.
Variable py_id : loc → Z.
Hypothesis py_id_inj : Inj (=) (=) py_id.
Variables (faces : list face) (h : heap) (lt : ltree).
Hypothesis Hrepr : repr faces h lt.
Hypothesis Hnd : NoDup (locs lt).
Variables (m : gmap Z nat) (fb : FlatBSP).
Hypothesis Hfaces : fb_faces fb = faces.
Hypothesis Htable : fb_faces_on_plane fb = concat (map (on_of h) (locs lt)).
Hypothesis Hslot : ∀ j l c, locs lt !! j = Some l → h !! l = Some c →
  ∃ i, m !! py_id l = Some i
       ∧ fb_nodes fb !! i
         = Some (Some (flat_record py_id m faces
             (length (concat (map (on_of h) (take j (locs lt))))) c)).

Lemma flat_slice j l c :
  locs lt !! j = Some l → h !! l = Some c →
  take (length (n_faces_on_plane c))
    (drop (length (concat (map (on_of h) (take j (locs lt)))))
       (fb_faces_on_plane fb)) = n_faces_on_plane c.
Proof.
  intros Hj Hc. rewrite Htable.
  replace (map (on_of h) (take j (locs lt)))
    with (take j (map (on_of h) (locs lt))) by (symmetry; apply fmap_take).
  apply concat_slice.
  change (map (on_of h) (locs lt)) with (on_of h <$> locs lt).
  rewrite list_lookup_fmap, Hj. simpl. unfold on_of. by rewrite Hc.
Qed.

(** The subtree of [lt] at a node is read back from the slot that the
    numbering gives the node. *)
Lemma read_tree_subtree lt' :
  repr faces h lt' →
  (∀ l, l ∈ locs lt' → l ∈ locs lt) →
  ∀ fuel, (size (erase lt') ≤ fuel)%nat →
  read_tree fuel fb (child_idx py_id m (root_ref lt'))
    = Some (dict_of faces (erase lt')).
Proof.
  induction lt' as [|l pi on f IHf b IHb]; intros Hr Hsub fuel Hfuel.
  { simpl. by destruct fuel. }
  simpl in Hr. destruct Hr as (c & Hc & [fp Hfp] & Hpf & Hon & Hfr & Hbk & Hrf & Hrb).
  assert (l ∈ locs lt) as Hl by (apply Hsub; simpl; by left).
  apply list_elem_of_lookup in Hl as [j Hj].
  destruct (Hslot j l c Hj Hc) as (i & Hmi & Hrec).
  simpl in Hfuel. destruct fuel as [|fuel]; [lia|].
  cbn [root_ref child_idx]. rewrite Hmi. cbn [read_tree].
  destruct (Z.eqb_spec (Z.of_nat i) (-1)); [lia|].
  destruct (Z.ltb_spec (Z.of_nat i) 0); [lia|].
  rewrite Nat2Z.id, Hrec. simpl.
  assert (n_faces_on_plane c = (λ i, faces !!! i) <$> on) as Hon_eq.
  { clear -Hon. induction Hon as [|k g on gs Hk _ IH]; simpl; [done|].
    rewrite IH. f_equal. by rewrite (list_lookup_total_correct _ _ _ Hk). }
  assert (Forall (λ g, g ∈ faces) (n_faces_on_plane c)) as Hon_in.
  { clear -Hon. induction Hon as [|k g on gs Hk _ IH]; constructor; [|done].
    by eapply list_elem_of_lookup_2. }
  rewrite Hfaces, Hpf, Hfp, face_at_find by (by eapply list_elem_of_lookup_2).
  simpl. rewrite coplanar_run_unfold. simpl.
  rewrite !Nat2Z.id, (flat_slice j l c Hj Hc), Hfaces, faces_at_find by done.
  simpl. rewrite Hfr, IHf; [|done| |lia].
  2:{ intros l' Hl'. apply Hsub. simpl. right. apply elem_of_app. by left. }
  simpl. rewrite Hbk, IHb; [|done| |lia].
  2:{ intros l' Hl'. apply Hsub. simpl. right. apply elem_of_app. by right. }
  simpl. by rewrite Hon_eq, (list_lookup_total_correct _ _ _ Hfp).
Qed.

End ReadBack.

Section ReadBackClaims.
Context `{Scalar}.

(** X5: the arrays that [flatten] fills describe the tree that
    [build_bsp] returned.  Reading them back from the root index that
    [flatten] returns, following the child indices and looking every face
    index up in the face array, gives the splitting face, the coplanar
    faces and the subtrees of every node of that tree. *)
Theorem flatten_read_back (py_id : loc → Z) (faces : list face)
    (vertices : list vertex) :
  Inj (=) (=) py_id →
  Forall (well_formed_face vertices) faces →
  ∃ t h root ri fb,
    build_bsp faces vertices = Ok (h, root)
    ∧ represents faces h root t
    ∧ flatten py_id h root
        {| fb_nodes := []; fb_faces_on_plane := []; fb_faces := faces |}
      = Ok (ri, fb)
    ∧ read_tree (length (fb_nodes fb)) fb ri = Some (dict_of faces t).
Proof.
  intros Hinj Hwf.
  destruct (build_spec_total faces vertices Hwf) as [t Ht].
  destruct (build_bsp_represents faces vertices t Hwf Ht)
    as (h & root & Hbuild & lt & Hrepr & Hroot & Her & Hnd).
  destruct (decide (lt = LLeaf)) as [->|Hne].
  - simpl in *. subst. eexists Leaf, h, None, _, _.
    split; [done|]. split; [by exists LLeaf|]. split; [done|]. done.
  - destruct (flat_run_spec py_id Hinj faces h lt faces Hrepr Hnd Hne)
      as (m & fb & Hrun & Hfaces & Hlen & Htable & Hslot & _ & _ & Hzero).
    destruct (root_ref lt) as [l|] eqn:Hl; [|by destruct lt].
    unfold flat_run in Hrun.
    apply bind_Ok in Hrun as ([ri fb'] & Hflat & [= ->]).
    assert (ri = 0) as ->.
    { unfold flatten in Hflat. apply bind_Ok in Hflat as ([m' nodes'] & _ & Hflat).
      by apply bind_Ok in Hflat as (fb'' & _ & [= <- _]). }
    subst root. exists t, h, (Some l), 0, fb.
    split; [done|]. split; [by exists lt|]. split; [done|].
    pose proof (read_tree_subtree py_id faces h lt m fb Hfaces Htable Hslot lt Hrepr
                  (λ _ Hin, Hin) (length (fb_nodes fb))) as Hread.
    rewrite Hl in Hread. cbn [child_idx] in Hread. rewrite (Hzero l eq_refl) in Hread.
    rewrite <- Her. apply Hread. rewrite Hlen, size_erase_locs. lia.
Qed.

End ReadBackClaims.

(** ** The shape of the flattened arrays *)

Lemma root_ref_head lt l : root_ref lt = Some l → head (locs lt) = Some l.
Proof. destruct lt; simpl; congruence. Qed.

(** Every node of a tree but its root is the child of a node of the tree. *)
Lemma repr_parent faces h lt l :
  repr faces h lt → l ∈ locs lt → root_ref lt ≠ Some l →
  ∃ p c, p ∈ locs lt ∧ h !! p = Some c ∧ (n_front c = Some l ∨ n_back c = Some l).
Proof.
  induction lt as [|l0 pi on f IHf b IHb]; simpl; [by intros _ ?%elem_of_nil|].
  intros (c & Hc & _ & _ & _ & Hfr & Hbk & Hrf & Hrb) Hin Hroot.
  apply elem_of_cons in Hin as [->|Hin]; [done|].
  assert (∀ sub, repr faces h sub → l ∈ locs sub →
            (root_ref sub ≠ Some l →
             ∃ p c', p ∈ locs sub ∧ h !! p = Some c'
                     ∧ (n_front c' = Some l ∨ n_back c' = Some l)) →
            (n_front c = root_ref sub ∨ n_back c = root_ref sub) →
            (∀ p, p ∈ locs sub → p ∈ l0 :: locs f ++ locs b) →
            ∃ p c', p ∈ l0 :: locs f ++ locs b ∧ h !! p = Some c'
                    ∧ (n_front c' = Some l ∨ n_back c' = Some l)) as Hcase.
  { intros sub Hrs Hls IH Hchild Hincl.
    destruct (decide (root_ref sub = Some l)) as [Heq|Hne].
    - exists l0, c. split; [by left|]. split; [done|].
      rewrite <- Heq. destruct Hchild as [->| ->]; auto.
    - destruct (IH Hne) as (p & c' & Hp & Hc' & Hch). exists p, c'. auto. }
  apply elem_of_app in Hin as [Hin|Hin].
  - apply (Hcase f); auto. intros p Hp. right. apply elem_of_app. by left.
  - apply (Hcase b); auto. intros p Hp. right. apply elem_of_app. by right.
Qed.

(** The children of a node of a tree are nodes of the tree. *)
Lemma repr_children faces h lt l c :
  repr faces h lt → l ∈ locs lt → h !! l = Some c → NoDup (locs lt) →
  (∀ l', n_front c = Some l' → l' ∈ locs lt ∧ root_ref lt ≠ Some l')
  ∧ (∀ l', n_back c = Some l' → l' ∈ locs lt ∧ root_ref lt ≠ Some l').
Proof.
  induction lt as [|l0 pi on f IHf b IHb]; simpl; [by intros _ ?%elem_of_nil|].
  intros (c0 & Hc0 & _ & _ & _ & Hfr & Hbk & Hrf & Hrb) Hin Hc Hnd.
  apply NoDup_cons in Hnd as [Hl0 Hnd].
  apply NoDup_app in Hnd as (Hndf & Hdisj & Hndb).
  assert (∀ sub l', root_ref sub = Some l' → l' ∈ locs sub) as Hroot_in.
  { intros sub l' Hr. apply root_ref_head in Hr. destruct (locs sub); [done|].
    injection Hr as ->. by left. }
  assert (∀ l', l' ∈ locs f ++ locs b → l' ∈ l0 :: locs f ++ locs b ∧ Some l0 ≠ Some l')
    as Hsub.
  { intros l' Hl'. split; [by right|]. intros [= ->]. done. }
  apply elem_of_cons in Hin as [->|Hin].
  - rewrite Hc0 in Hc. injection Hc as <-. split; intros l' Hl'; apply Hsub.
    + apply elem_of_app. left. apply Hroot_in. congruence.
    + apply elem_of_app. right. apply Hroot_in. congruence.
  - apply elem_of_app in Hin as [Hin|Hin].
    + destruct (IHf Hrf Hin Hc Hndf) as [H1 H2].
      split; intros l' Hl'; apply Hsub, elem_of_app; left.
      * by apply H1. * by apply H2.
    + destruct (IHb Hrb Hin Hc Hndb) as [H1 H2].
      split; intros l' Hl'; apply Hsub, elem_of_app; right.
      * by apply H1. * by apply H2.
Qed.

Section FlatShape.
Variable py_id : loc → Z.
Variables (faces : list face) (h : heap) (lt : ltree).
Hypothesis Hrepr : repr faces h lt.
Hypothesis Hnd : NoDup (locs lt).
Variables (m : gmap Z nat) (fb : FlatBSP).
Hypothesis Hlen : length (fb_nodes fb) = length (locs lt).
Hypothesis Hslot : ∀ j l c, locs lt !! j = Some l → h !! l = Some c →
  ∃ i, m !! py_id l = Some i
       ∧ fb_nodes fb !! i
         = Some (Some (flat_record py_id m faces
             (length (concat (map (on_of h) (take j (locs lt))))) c)).
Hypothesis Hsurj : ∀ i, (i < length (locs lt))%nat →
  ∃ l, l ∈ locs lt ∧ m !! py_id l = Some i.
Hypothesis Hinj : ∀ l l' i, l ∈ locs lt → l' ∈ locs lt →
  m !! py_id l = Some i → m !! py_id l' = Some i → l = l'.
Hypothesis Hzero : ∀ l, root_ref lt = Some l → m !! py_id l = Some 0%nat.

Lemma flat_slot_of k slot :
  fb_nodes fb !! k = Some slot →
  ∃ j l c, locs lt !! j = Some l ∧ h !! l = Some c ∧ m !! py_id l = Some k
    ∧ slot = Some (flat_record py_id m faces
               (length (concat (map (on_of h) (take j (locs lt))))) c).
Proof using All.
  intros Hk. destruct (Hsurj k) as (l & Hl & Hmk).
  { rewrite <- Hlen. by eapply lookup_lt_Some. }
  apply list_elem_of_lookup in Hl as [j Hj].
  destruct (repr_locs_valid _ _ _ l Hrepr) as [c Hc];
    [by eapply list_elem_of_lookup_2|].
  destruct (Hslot j l c Hj Hc) as (k' & Hmk' & Hrec).
  rewrite Hmk in Hmk'. injection Hmk' as <-.
  rewrite Hk in Hrec. injection Hrec as ->. by exists j, l, c.
Qed.

Lemma numbering_bound l i :
  l ∈ locs lt → m !! py_id l = Some i → (i < length (fb_nodes fb))%nat.
Proof using All.
  intros Hl Hi. apply list_elem_of_lookup in Hl as [j Hj].
  destruct (repr_locs_valid _ _ _ l Hrepr) as [c Hc];
    [by eapply list_elem_of_lookup_2|].
  destruct (Hslot j l c Hj Hc) as (i' & Hi' & Hrec).
  rewrite Hi in Hi'. injection Hi' as <-. by eapply lookup_lt_Some.
Qed.

(** A child index is -1 or the position of a slot other than the root's. *)
Lemma child_idx_range l c child :
  l ∈ locs lt → h !! l = Some c → child = n_front c ∨ child = n_back c →
  child_idx py_id m child = -1
  ∨ 1 ≤ child_idx py_id m child < Z.of_nat (length (fb_nodes fb)).
Proof using All.
  intros Hl Hc Hchild.
  destruct (repr_children _ _ _ _ _ Hrepr Hl Hc Hnd) as [Hf Hb].
  destruct child as [l'|]; [|by left]. simpl.
  assert (l' ∈ locs lt ∧ root_ref lt ≠ Some l') as [Hl' Hnroot].
  { destruct Hchild as [Heq|Heq]; symmetry in Heq; [by apply Hf | by apply Hb]. }
  destruct (m !! py_id l') as [i|] eqn:Hi; [|by left]. right.
  pose proof (numbering_bound l' i Hl' Hi) as Hlt.
  split; [|lia].
  destruct i as [|i]; [|lia]. exfalso.
  destruct (root_ref lt) as [r|] eqn:Hr.
  - apply Hnroot. f_equal. apply (Hinj r l' 0%nat); auto.
    apply root_ref_head in Hr. destruct (locs lt); [done|]. injection Hr as ->. by left.
  - destruct lt; [by apply elem_of_nil in Hl' | done].
Qed.

(** Every position but the root's is the child index of some slot. *)
Lemma child_idx_hit (k : nat) :
  (1 ≤ k < length (fb_nodes fb))%nat →
  ∃ nd, Some nd ∈ fb_nodes fb
        ∧ (front_node_idx nd = Z.of_nat k ∨ back_node_idx nd = Z.of_nat k).
Proof using All.
  intros Hk. destruct (Hsurj k) as (l & Hl & Hmk); [lia|].
  assert (root_ref lt ≠ Some l) as Hnroot.
  { intros Hr. apply Hzero in Hr. rewrite Hmk in Hr. injection Hr as ->. lia. }
  destruct (repr_parent _ _ _ _ Hrepr Hl Hnroot) as (p & c & Hp & Hc & Hchild).
  apply list_elem_of_lookup in Hp as [j Hj].
  destruct (Hslot j p c Hj Hc) as (i & Hmi & Hrec).
  eexists. split; [by eapply list_elem_of_lookup_2|].
  simpl. destruct Hchild as [-> | ->]; simpl; rewrite Hmk; auto.
Qed.

Lemma flat_start_count j l c :
  locs lt !! j = Some l → h !! l = Some c →
  (length (concat (map (on_of h) (take j (locs lt)))) + length (n_faces_on_plane c)
   ≤ length (concat (map (on_of h) (locs lt))))%nat.
Proof using All.
  intros Hj Hc.
  rewrite <- (take_drop_middle _ _ _ Hj) at 2.
  rewrite map_app, concat_app, length_app. simpl.
  rewrite length_app. unfold on_of at 3. rewrite Hc. lia.
Qed.

End FlatShape.

Lemma flat_run_full (py_id : loc → Z) (faces : list face) (h : heap) (lt : ltree) :
  Inj (=) (=) py_id → repr faces h lt → NoDup (locs lt) →
  ∃ (m : gmap Z nat) fb,
    flat_run py_id h (root_ref lt) faces = Ok fb
    ∧ fb_faces fb = faces
    ∧ length (fb_nodes fb) = length (locs lt)
    ∧ fb_faces_on_plane fb = concat (map (on_of h) (locs lt))
    ∧ (∀ j l c, locs lt !! j = Some l → h !! l = Some c →
         ∃ i, m !! py_id l = Some i
              ∧ fb_nodes fb !! i
                = Some (Some (flat_record py_id m faces
                    (length (concat (map (on_of h) (take j (locs lt))))) c)))
    ∧ (∀ i, (i < length (locs lt))%nat →
         ∃ l, l ∈ locs lt ∧ m !! py_id l = Some i)
    ∧ (∀ l l' i, l ∈ locs lt → l' ∈ locs lt →
         m !! py_id l = Some i → m !! py_id l' = Some i → l = l')
    ∧ (∀ l, root_ref lt = Some l → m !! py_id l = Some 0%nat).
Proof.
  intros Hinj Hrepr Hnd. destruct (decide (lt = LLeaf)) as [->|Hne].
  - exists ∅. eexists. split; [done|]. simpl. repeat split; try done.
    intros i Hi. lia.
  - exact (flat_run_spec py_id Hinj faces h lt faces Hrepr Hnd Hne).
Qed.

Lemma on_of_table_length (faces : list face) (h : heap) (lt : ltree) :
  repr faces h lt →
  length (concat (map (on_of h) (locs lt))) = length (all_coplanar (erase lt)).
Proof.
  intros Hrepr. rewrite all_coplanar_lnodes.
  pose proof (on_of_lnodes faces h lt Hrepr) as Hon.
  induction Hon as [|[[l pi] on] fs nodes fss Hhd _ IH]; simpl; [done|].
  rewrite !length_app, IH. f_equal. simpl in Hhd. symmetry. by eapply Forall2_length.
Qed.

Section PipelineSuccess.
Context `{Scalar}.

Lemma pipeline_runs (py_id : loc → Z) (vertices : list vertex)
    (faces : list face) :
  Inj (=) (=) py_id →
  Forall (well_formed_face vertices) faces →
  ∃ t h root fb,
    build_bsp faces vertices = Ok (h, root)
    ∧ represents faces h root t
    ∧ flat_run py_id h root faces = Ok fb
    ∧ (encodable vertices faces fb
       ↔ Z.of_nat (length vertices) ≤ 65535
         ∧ Z.of_nat (length faces) ≤ 65535
         ∧ Z.of_nat (size t) ≤ 32768
         ∧ Forall (λ f : face, Z.of_nat (length f) ≤ 255 ∧ Forall (λ i, 0 ≤ i) f) faces
         ∧ Forall (λ v, ∃ bs, pack_fff v = Ok bs) vertices).
Proof.
  intros Hinj Hwf.
  destruct (build_spec_total faces vertices Hwf) as [t Ht].
  destruct (build_bsp_represents faces vertices t Hwf Ht)
    as (h & root & Hbuild & lt & Hrepr & Hroot & Her & Hnd).
  destruct (flat_run_full py_id faces h lt Hinj Hrepr Hnd)
    as (m & fb & Hrun & Hfaces & Hlen & Htable & Hslot & Hsurj & Hinjm & Hzero).
  exists t, h, root, fb. split; [done|]. split; [by exists lt|].
  split; [by rewrite <- Hroot|].
  assert (length (fb_faces_on_plane fb) = length faces) as Htlen.
  { rewrite Htable, (on_of_table_length faces h lt Hrepr), Her.
    pose proof (build_rec_perm _ _ _ _ _ Ht) as Hperm.
    by rewrite Hperm, length_seq. }
  assert (length (fb_nodes fb) = size t) as Hnn.
  { by rewrite Hlen, size_erase_locs, Her. }
  unfold encodable. rewrite Hnn, Hfaces. split.
  - intros (Hnv & Hnf & _ & Hvs & Hfs & Hns & _).
    split; [unfold fits_H in Hnv; lia|]. split; [unfold fits_H in Hnf; lia|].
    split; [|split; [|done]].
    + destruct (Z.le_gt_cases (Z.of_nat (size t)) 32768) as [|Hbig]; [done|]. exfalso.
      destruct (child_idx_hit py_id faces h lt Hrepr Hnd m fb Hlen Hslot Hsurj Hinjm Hzero
                  (Z.to_nat 32768)) as (nd & Hin & Hchild); [lia|].
      rewrite Forall_forall in Hns. destruct (Hns _ Hin)
        as (nd' & [= <-] & _ & _ & _ & Hfront & Hback).
      unfold fits_h in Hfront, Hback. lia.
    + eapply Forall_impl; [exact Hfs|]. intros f [Hb Hidx]. unfold fits_B in Hb.
      split; [lia|]. eapply Forall_impl; [exact Hidx|]. intros i Hi.
      unfold fits_H in Hi. lia.
  - intros (Hnv & Hnf & Hsize & Hfs & Hvs).
    split; [unfold fits_H; lia|]. split; [unfold fits_H; lia|].
    split; [unfold fits_H; lia|]. split; [done|]. split; [|split].
    + apply Forall_forall. intros f Hf.
      rewrite Forall_forall in Hfs, Hwf.
      destruct (Hfs f Hf) as [Hlenf Hpos]. destruct (Hwf f Hf) as [_ Hrange].
      split; [unfold fits_B; lia|].
      apply Forall_forall. intros i Hi. rewrite Forall_forall in Hpos, Hrange.
      specialize (Hpos i Hi). specialize (Hrange i Hi).
      unfold in_range in Hrange. unfold fits_H. lia.
    + apply Forall_forall. intros slot Hslot_in.
      apply list_elem_of_lookup in Hslot_in as [k Hk].
      destruct (flat_slot_of py_id faces h lt Hrepr Hnd m fb Hlen Hslot Hsurj Hinjm Hzero k slot Hk)
        as (j & l & c & Hj & Hc & Hmk & ->).
      pose proof (flat_start_count py_id faces h lt Hrepr Hnd m fb Hlen Hslot Hsurj Hinjm Hzero j l c Hj Hc) as Hsc.
      rewrite <- Htable, Htlen in Hsc.
      assert (l ∈ locs lt) as Hl by (by eapply list_elem_of_lookup_2).
      pose proof (child_idx_range py_id faces h lt Hrepr Hnd m fb Hlen Hslot Hsurj Hinjm Hzero
                    l c (n_front c) Hl Hc (or_introl eq_refl)) as Hfront.
      pose proof (child_idx_range py_id faces h lt Hrepr Hnd m fb Hlen Hslot Hsurj Hinjm Hzero
                    l c (n_back c) Hl Hc (or_intror eq_refl)) as Hback.
      eexists. split; [done|]. simpl.
      split; [apply find_face_idx_fits; lia|].
      split; [unfold fits_H; lia|]. split; [unfold fits_H; lia|].
      unfold fits_h. lia.
    + apply Forall_forall. intros f _. apply find_face_idx_fits. lia.
Qed.

(** X7: when the whole pipeline produces a file.  For a mesh whose faces
    have at least three vertex indices, all in range, build, flatten and
    encode finish exactly when the vertex count and the face count are at
    most 65535, the tree has at most 32768 nodes, every face has at most
    255 vertices and no negative vertex index, and every coordinate can be
    packed as a 32-bit float.  A tree of more than 32768 nodes is refused
    although its node count fits the header: the index of one of its nodes
    does not fit the signed child fields. *)
Theorem pipeline_succeeds_iff (py_id : loc → Z) (vertices : list vertex)
    (faces : list face) :
  Inj (=) (=) py_id →
  Forall (well_formed_face vertices) faces →
  ∃ t h root,
    build_bsp faces vertices = Ok (h, root)
    ∧ represents faces h root t
    ∧ ((∃ bytes, build_flatten_encode py_id vertices faces = Ok bytes)
       ↔ Z.of_nat (length vertices) ≤ 65535
         ∧ Z.of_nat (length faces) ≤ 65535
         ∧ Z.of_nat (size t) ≤ 32768
         ∧ Forall (λ f : face, Z.of_nat (length f) ≤ 255 ∧ Forall (λ i, 0 ≤ i) f) faces
         ∧ Forall (λ v, ∃ bs, pack_fff v = Ok bs) vertices).
Proof.
  intros Hinj Hwf.
  destruct (pipeline_runs py_id vertices faces Hinj Hwf)
    as (t & h & root & fb & Hbuild & Hrepr & Hrun & Henc).
  exists t, h, root. split; [done|]. split; [done|].
  unfold build_flatten_encode. rewrite Hbuild. simpl. rewrite Hrun. simpl.
  by rewrite write_bsp_binary_Ok.
Qed.

End PipelineSuccess.

Section FlatArrays.
Context `{Scalar}.

(** X6: the arrays that the pipeline hands to the encoder are well formed.
    Every slot of the node array is filled; a child index is -1 or the
    position of a slot other than the first; every slot other than the
    first is the child of some slot; the run of a slot is not empty and
    lies inside the coplanar table; and the table has one entry per face
    of the mesh. *)
Theorem flat_arrays_well_formed (py_id : loc → Z) (faces : list face)
    (vertices : list vertex) :
  Inj (=) (=) py_id →
  Forall (well_formed_face vertices) faces →
  ∃ h root fb,
    build_bsp faces vertices = Ok (h, root)
    ∧ flat_run py_id h root faces = Ok fb
    ∧ length (fb_faces_on_plane fb) = length faces
    ∧ (∀ k slot, fb_nodes fb !! k = Some slot →
         ∃ nd, slot = Some nd
           ∧ (front_node_idx nd = -1
              ∨ 1 ≤ front_node_idx nd < Z.of_nat (length (fb_nodes fb)))
           ∧ (back_node_idx nd = -1
              ∨ 1 ≤ back_node_idx nd < Z.of_nat (length (fb_nodes fb)))
           ∧ 1 ≤ faces_on_plane_count nd
           ∧ 0 ≤ faces_on_plane_idx_start nd
           ∧ faces_on_plane_idx_start nd + faces_on_plane_count nd
             ≤ Z.of_nat (length (fb_faces_on_plane fb)))
    ∧ (∀ k, (1 ≤ k < length (fb_nodes fb))%nat →
         ∃ nd, Some nd ∈ fb_nodes fb
               ∧ (front_node_idx nd = Z.of_nat k ∨ back_node_idx nd = Z.of_nat k)).
Proof.
  intros Hinj Hwf.
  destruct (build_spec_total faces vertices Hwf) as [t Ht].
  destruct (build_bsp_represents faces vertices t Hwf Ht)
    as (h & root & Hbuild & lt & Hrepr & Hroot & Her & Hnd).
  destruct (flat_run_full py_id faces h lt Hinj Hrepr Hnd)
    as (m & fb & Hrun & Hfaces & Hlen & Htable & Hslot & Hsurj & Hinjm & Hzero).
  assert (length (fb_faces_on_plane fb) = length faces) as Htlen.
  { rewrite Htable, (on_of_table_length faces h lt Hrepr), Her.
    pose proof (build_rec_perm _ _ _ _ _ Ht) as Hperm.
    by rewrite Hperm, length_seq. }
  exists h, root, fb. split; [done|]. split; [by rewrite <- Hroot|]. split; [done|].
  split.
  - intros k slot Hk.
    destruct (flat_slot_of py_id faces h lt Hrepr Hnd m fb Hlen Hslot Hsurj Hinjm Hzero
                k slot Hk) as (j & l & c & Hj & Hc & Hmk & ->).
    pose proof (flat_start_count py_id faces h lt Hrepr Hnd m fb Hlen Hslot Hsurj Hinjm
                  Hzero j l c Hj Hc) as Hsc.
    rewrite <- Htable in Hsc.
    assert (l ∈ locs lt) as Hl by (by eapply list_elem_of_lookup_2).
    eexists. split; [done|]. simpl.
    split; [by eapply (child_idx_range py_id faces h lt Hrepr Hnd m fb Hlen Hslot Hsurj
                         Hinjm Hzero l c); eauto|].
    split; [by eapply (child_idx_range py_id faces h lt Hrepr Hnd m fb Hlen Hslot Hsurj
                         Hinjm Hzero l c); eauto|].
    split; [|lia].
    destruct (locs_lookup_lnodes _ _ _ Hj) as (pi & on & Hnode).
    destruct (lnodes_repr _ _ _ _ _ _ Hrepr (list_elem_of_lookup_2 _ _ _ Hnode))
      as (c' & Hc' & _ & _ & Hon).
    rewrite Hc in Hc'. injection Hc' as <-.
    destruct (lnodes_subtrees _ _ _ _ (list_elem_of_lookup_2 _ _ _ Hnode))
      as (tf & tb & Hsub).
    rewrite Her in Hsub.
    pose proof (build_rec_nodes _ _ _ _ _ Ht) as Hok.
    rewrite Forall_forall in Hok. destruct (Hok _ Hsub) as (fp & pl & on' & -> & _).
    inversion Hon; subst. simpl. lia.
  - intros k Hk.
    exact (child_idx_hit py_id faces h lt Hrepr Hnd m fb Hlen Hslot Hsurj Hinjm Hzero
             k Hk).
Qed.

End FlatArrays.

(** ** The recursive flattener of [FixedPoint/export_bsp_bin.py] *)

Lemma records_length fcs t i s : length (records fcs t i s) = length (dicts t).
Proof.
  revert i s. induction t as [|pf on f IHf b IHb]; intros i s; simpl; [done|].
  by rewrite !length_app, IHf, IHb.
Qed.

Lemma exporter_flatten_spec limit t fb :
  (calls t ≤ limit)%nat →
  Exporter.flatten limit t fb
  = Ok (index_of t (length (fb_nodes fb)),
        {| fb_nodes := fb_nodes fb
                       ++ (Some <$> records (fb_faces fb) t (length (fb_nodes fb))
                                      (length (fb_faces_on_plane fb)));
           fb_faces_on_plane := fb_faces_on_plane fb ++ stored t;
           fb_faces := fb_faces fb |}).
Proof.
  revert t fb. induction limit as [|limit IH]; intros t fb Hlim.
  { destruct t; simpl in Hlim; lia. }
  destruct t as [|pf on f b]; simpl in *.
  { rewrite !app_nil_r. by destruct fb. }
  rewrite IH by lia. simpl. rewrite IH by lia. simpl.
  rewrite !length_app, length_fmap, records_length. simpl.
  f_equal. f_equal. f_equal.
  - rewrite <- !app_assoc. simpl.
    rewrite insert_app_r_alt by lia. rewrite Nat.sub_diag. simpl.
    change (list_fmap flat_node (option flat_node) Some) with (fmap (M:=list) (@Some flat_node)).
    rewrite fmap_app.
    replace (length (fb_nodes fb) + 1)%nat with (S (length (fb_nodes fb))) by lia.
    done.
  - by rewrite <- !app_assoc.
Qed.

Lemma exporter_flatten_limit limit t fb :
  (limit < calls t)%nat → Exporter.flatten limit t fb = Raise RecursionError.
Proof.
  revert t fb. induction limit as [|limit IH]; intros t fb Hlim; [done|].
  destruct t as [|pf on f b]; simpl in *; [lia|].
  destruct (Nat.lt_ge_cases limit (calls f)) as [Hs|Hs].
  - by rewrite IH.
  - rewrite exporter_flatten_spec by done. simpl. rewrite IH; [done|lia].
Qed.

(** A block of records inside the node array, with its runs inside the
    table, reads back as the tree it was made from. *)
Lemma read_tree_records fb t : ∀ i s fuel,
  (∀ k r, records (fb_faces fb) t i s !! k = Some r →
          fb_nodes fb !! (i + k)%nat = Some (Some r)) →
  take (length (stored t)) (drop s (fb_faces_on_plane fb)) = stored t →
  Forall (λ f, f ∈ fb_faces fb) (mentioned t) →
  (length (dicts t) ≤ fuel)%nat →
  read_tree fuel fb (index_of t i) = Some t.
Proof.
  induction t as [|pf on f IHf b IHb]; intros i s fuel Hrec Htab Hin Hfuel.
  { simpl. by destruct fuel. }
  simpl in Hfuel. destruct fuel as [|fuel]; [lia|].
  cbn [index_of read_tree].
  destruct (Z.eqb_spec (Z.of_nat i) (-1)); [lia|].
  destruct (Z.ltb_spec (Z.of_nat i) 0); [lia|].
  pose proof (Hrec 0%nat _ eq_refl) as H0. rewrite Nat.add_0_r in H0.
  rewrite Nat2Z.id, H0. simpl in Hin, Htab |- *.
  apply Forall_cons in Hin as [Hpf Hin]. apply Forall_app in Hin as [Hon Hin].
  apply Forall_app in Hin as [Hinf Hinb].
  rewrite face_at_find by done. simpl.
  rewrite coplanar_run_unfold. simpl. rewrite !Nat2Z.id.
  rewrite !length_app in Htab, Hfuel.
  assert (take (length on) (drop s (fb_faces_on_plane fb)) = on) as Hrun.
  { apply (f_equal (take (length on))) in Htab.
    rewrite take_take, take_app_length in Htab.
    by rewrite Nat.min_l in Htab by lia. }
  rewrite Hrun, faces_at_find by done. simpl.
  assert (drop (s + length on) (fb_faces_on_plane fb)
          = drop (length on) (drop s (fb_faces_on_plane fb))) as Hdrop.
  { by rewrite drop_drop. }
  assert (take (length (stored f) + length (stored b))
            (drop (s + length on) (fb_faces_on_plane fb)) = stored f ++ stored b) as Hrest.
  { rewrite Hdrop. apply (f_equal (drop (length on))) in Htab.
    rewrite drop_app_length in Htab. rewrite <- Htab.
    rewrite <- take_drop_commute. by rewrite length_app. }
  assert (read_tree fuel fb (index_of f (S i)) = Some f) as Hf.
  { apply (IHf (S i) (s + length on)%nat fuel); [| |done|lia].
    - intros k r Hk. replace (S i + k)%nat with (i + S k)%nat by lia.
      apply Hrec. simpl. by apply lookup_app_l_Some.
    - apply (f_equal (take (length (stored f)))) in Hrest.
      rewrite take_take, take_app_length in Hrest.
      by rewrite Nat.min_l in Hrest by lia. }
  assert (read_tree fuel fb (index_of b (S i + length (dicts f))) = Some b) as Hb.
  { apply (IHb (S i + length (dicts f))%nat
             (s + length on + length (stored f))%nat fuel); [| |done|lia].
    - intros k r Hk. replace (S i + length (dicts f) + k)%nat
        with (i + S (length (dicts f) + k))%nat by lia.
      apply Hrec. simpl. rewrite lookup_app_r; rewrite records_length; [|lia].
      by replace (length (dicts f) + k - length (dicts f))%nat with k by lia.
    - apply (f_equal (drop (length (stored f)))) in Hrest.
      rewrite drop_app_length in Hrest.
      by rewrite <- take_drop_commute, drop_drop in Hrest. }
  simpl in Hb. rewrite Hf. simpl. by rewrite Hb.
Qed.

(** X14: the recursive flattener numbers the nodes in depth-first order.
    When the interpreter allows as many nested calls as the tree is deep
    (one more than its longest path), [flatten] appends the records of the
    nodes in the order node, front subtree, back subtree, so that a front
    child directly follows its parent, appends the coplanar faces in the
    same order, and returns the position of the root, or -1 for an absent
    tree; with fewer calls allowed it raises [RecursionError]. *)
Theorem exporter_flatten_preorder (limit : nat) (t : dict_tree) (fb : FlatBSP) :
  ((limit < calls t)%nat → Exporter.flatten limit t fb = Raise RecursionError)
  ∧ ((calls t ≤ limit)%nat →
     Exporter.flatten limit t fb
     = Ok (index_of t (length (fb_nodes fb)),
           {| fb_nodes := fb_nodes fb
                          ++ (Some <$> records (fb_faces fb) t (length (fb_nodes fb))
                                         (length (fb_faces_on_plane fb)));
              fb_faces_on_plane := fb_faces_on_plane fb ++ stored t;
              fb_faces := fb_faces fb |})).
Proof.
  split; [apply exporter_flatten_limit | apply exporter_flatten_spec].
Qed.

Lemma exporter_run_read limit (t : dict_tree) (faces : list face) :
  (calls t ≤ limit)%nat →
  Forall (λ f, f ∈ faces) (mentioned t) →
  ∃ fb,
    Exporter.run limit t faces = Ok fb
    ∧ fb_faces fb = faces
    ∧ length (fb_nodes fb) = length (dicts t)
    ∧ Forall is_Some (fb_nodes fb)
    ∧ fb_faces_on_plane fb = stored t
    ∧ read_tree (length (fb_nodes fb)) fb (index_of t 0) = Some t.
Proof.
  intros Hlim Hin. unfold Exporter.run. rewrite exporter_flatten_spec by done.
  simpl. eexists. split; [done|]. simpl. split; [done|].
  split; [by rewrite length_fmap, records_length|].
  split; [apply Forall_fmap, Forall_forall; by eexists|]. split; [done|].
  apply (read_tree_records _ t 0%nat 0%nat); simpl.
  - intros k r Hk. by rewrite list_lookup_fmap, Hk.
  - by rewrite take_ge.
  - done.
  - by rewrite length_fmap, records_length.
Qed.

(** X15: the arrays of the recursive flattener describe the tree they were
    made from.  For a tree whose faces all occur in the face list, and
    with enough nested calls allowed, [run] fills one slot per node,
    stores the coplanar faces of the nodes in depth-first order, and
    reading the arrays back from the first slot gives the tree again. *)
Theorem exporter_read_back (limit : nat) (t : dict_tree) (faces : list face) :
  (calls t ≤ limit)%nat →
  Forall (λ f, f ∈ faces) (mentioned t) →
  ∃ fb,
    Exporter.run limit t faces = Ok fb
    ∧ length (fb_nodes fb) = length (dicts t)
    ∧ Forall is_Some (fb_nodes fb)
    ∧ fb_faces_on_plane fb = stored t
    ∧ read_tree (length (fb_nodes fb)) fb (index_of t 0) = Some t.
Proof.
  intros Hlim Hin.
  destruct (exporter_run_read limit t faces Hlim Hin)
    as (fb & Hrun & _ & Hlen & Hfilled & Htable & Hread).
  by exists fb.
Qed.

Lemma lookup_total_faces (faces : list face) (on : list nat) (gs : list face) :
  Forall2 (λ (i : nat) f, faces !! i = Some f) on gs →
  (λ i, faces !!! i) <$> on = gs ∧ Forall (λ f, f ∈ faces) gs.
Proof.
  induction 1 as [|k g on gs Hk _ [IH1 IH2]]; [done|]. split.
  - by rewrite fmap_cons, IH1, (list_lookup_total_correct _ _ _ Hk).
  - constructor; [by eapply list_elem_of_lookup_2 | done].
Qed.

Lemma stored_dict_of faces h lt :
  repr faces h lt →
  stored (dict_of faces (erase lt)) = concat (map (on_of h) (locs lt)).
Proof.
  induction lt as [|l pi on f IHf b IHb]; simpl; [done|].
  intros (c & Hc & _ & _ & Hon & _ & _ & Hrf & Hrb).
  rewrite map_app, concat_app, (IHf Hrf), (IHb Hrb). f_equal.
  unfold on_of. rewrite Hc. by apply lookup_total_faces.
Qed.

Lemma mentioned_dict_of faces h lt :
  repr faces h lt → Forall (λ f, f ∈ faces) (mentioned (dict_of faces (erase lt))).
Proof.
  induction lt as [|l pi on f IHf b IHb]; simpl; [constructor|].
  intros (c & Hc & [fp Hfp] & _ & Hon & _ & _ & Hrf & Hrb).
  constructor.
  - rewrite (list_lookup_total_correct _ _ _ Hfp). by eapply list_elem_of_lookup_2.
  - apply Forall_app. split; [|apply Forall_app; auto].
    destruct (lookup_total_faces _ _ _ Hon) as [-> Hin]. done.
Qed.

Lemma dicts_dict_of faces t : length (dicts (dict_of faces t)) = size t.
Proof.
  induction t as [|pi on f IHf b IHb]; simpl; [done|].
  by rewrite length_app, IHf, IHb.
Qed.

Section TwoFlatteners.
Context `{Scalar}.

(** X16: the two flatteners describe the same tree.  For the tree that
    [build_bsp] returns, the iterative [flatten] of [obj_to_bsp.py], run on
    the linked nodes, and the recursive [flatten] of [export_bsp_bin.py],
    run on the same tree as nested dictionaries, fill node arrays of the
    same length and the same coplanar table, and both results read back
    as that tree; only the numbering of the nodes differs (breadth-first
    against depth-first). *)
Theorem flatteners_agree (py_id : loc → Z) (faces : list face)
    (vertices : list vertex) :
  Inj (=) (=) py_id →
  Forall (well_formed_face vertices) faces →
  ∃ t h root fb fb',
    build_bsp faces vertices = Ok (h, root)
    ∧ represents faces h root t
    ∧ flat_run py_id h root faces = Ok fb
    ∧ Exporter.run (calls (dict_of faces t)) (dict_of faces t) faces = Ok fb'
    ∧ length (fb_nodes fb) = length (fb_nodes fb')
    ∧ fb_faces_on_plane fb = fb_faces_on_plane fb'
    ∧ read_tree (length (fb_nodes fb)) fb (index_of (dict_of faces t) 0)
      = Some (dict_of faces t)
    ∧ read_tree (length (fb_nodes fb')) fb' (index_of (dict_of faces t) 0)
      = Some (dict_of faces t).
Proof.
  intros Hinj Hwf.
  destruct (build_spec_total faces vertices Hwf) as [t Ht].
  destruct (build_bsp_represents faces vertices t Hwf Ht)
    as (h & root & Hbuild & lt & Hrepr & Hroot & Her & Hnd).
  destruct (flat_run_full py_id faces h lt Hinj Hrepr Hnd)
    as (m & fb & Hrun & Hfaces & Hlen & Htable & Hslot & Hsurj & Hinjm & Hzero).
  destruct (exporter_run_read (calls (dict_of faces t)) (dict_of faces t) faces)
    as (fb' & Hrun' & _ & Hlen' & _ & Htable' & Hread'); [done| |].
  { rewrite <- Her. by eapply mentioned_dict_of. }
  exists t, h, root, fb, fb'. split; [done|]. split; [by exists lt|].
  split; [by rewrite <- Hroot|]. split; [done|].
  split; [by rewrite Hlen, Hlen', dicts_dict_of, size_erase_locs, Her|].
  split; [by rewrite Htable, Htable', <- Her, (stored_dict_of faces h lt Hrepr)|].
  split; [|done].
  pose proof (read_tree_subtree py_id faces h lt m fb Hfaces Htable Hslot lt Hrepr
                (λ _ Hin, Hin) (length (fb_nodes fb))) as Hread.
  rewrite Her in Hread. rewrite <- Hread by (rewrite Hlen, size_erase_locs, Her; lia).
  f_equal. destruct lt as [|l pi on f b]; simpl in *; subst t; simpl; [done|].
  by rewrite (Hzero l eq_refl).
Qed.

End TwoFlatteners.

(** ** Reading a file back *)

Lemma split_at_app (xs ys : list byte) :
  split_at (length xs) (xs ++ ys) = Some (xs, ys).
Proof.
  unfold split_at. rewrite length_app.
  destruct (Nat.ltb_spec (length xs + length ys) (length xs)); [lia|].
  by rewrite take_app_length, drop_app_length.
Qed.

Lemma mapM_pack_H_length (idxs : list Z) bss :
  mapM pack_H idxs = Ok bss → length (concat bss) = (2 * length idxs)%nat.
Proof.
  rewrite mapM_Ok. induction 1 as [|x bs idxs bss Hx _ IH]; simpl; [done|].
  rewrite length_app, IH, (pack_H_length _ _ Hx). lia.
Qed.

Lemma pack_face_length (f : face) bs :
  pack_face f = Ok bs → length bs = (1 + 2 * length f)%nat.
Proof.
  unfold pack_face. intros Hbs.
  apply bind_Ok in Hbs as (n & [_ ->]%pack_B_Ok & Hbs).
  apply bind_Ok in Hbs as (idxs & Hidxs & [= <-]).
  simpl. by rewrite (mapM_pack_H_length _ _ Hidxs).
Qed.

Lemma pack_header_length nv nf nn bs :
  pack_header nv nf nn = Ok bs → length bs = 6%nat.
Proof.
  unfold pack_header. intros Hbs.
  apply bind_Ok in Hbs as (a & Ha%pack_H_length & Hbs).
  apply bind_Ok in Hbs as (b & Hb%pack_H_length & Hbs).
  apply bind_Ok in Hbs as (c & Hc%pack_H_length & [= <-]).
  rewrite !length_app. lia.
Qed.

Lemma read_faces_pack (faces : list face) fs rest :
  mapM pack_face faces = Ok fs →
  read_faces (length faces) (concat fs ++ rest) = Some (faces, rest).
Proof.
  rewrite mapM_Ok. induction 1 as [|f bs faces fs Hf _ IH]; [done|].
  pose proof Hf as Hf'. unfold pack_face in Hf'.
  apply bind_Ok in Hf' as (n & [Hfit ->]%pack_B_Ok & Hf').
  apply bind_Ok in Hf' as (idxs & Hidxs & [= <-]).
  cbn [length read_faces concat]. rewrite <- !app_assoc, <- app_comm_cons.
  rewrite Z_of_byte_of_Z, Z.mod_small by (unfold fits_B in Hfit; lia).
  rewrite Nat2Z.id, <- (mapM_pack_H_length _ _ Hidxs), split_at_app.
  cbn [mbind option_bind]. rewrite (unpack_Hs_pack _ _ Hidxs).
  cbn [mbind option_bind]. by rewrite IH.
Qed.

Lemma read_nodes_pack (slots : list (option flat_node)) ns rest :
  mapM pack_node slots = Ok ns →
  ∃ nds, slots = Some <$> nds
         ∧ read_nodes (length slots) (concat ns ++ rest) = Some (nds, rest).
Proof.
  rewrite mapM_Ok. induction 1 as [|slot bs slots ns Hs _ (nds & -> & IH)].
  { by exists []. }
  destruct (pack_node_unpack _ _ Hs) as (nd & -> & Hun).
  exists (nd :: nds). split; [done|].
  cbn [length read_nodes concat fmap list_fmap].
  rewrite <- (pack_node_length _ _ Hs), <- app_assoc, split_at_app.
  cbn [mbind option_bind]. rewrite Hun. cbn [mbind option_bind]. by rewrite IH.
Qed.

Section ReadFile.
Context `{Scalar}.

(** [struct.pack('<f', x)] returns four bytes. *)
Hypothesis pack_f32_length : ∀ x bs, pack_f32 x = Ok bs → length bs = 4%nat.

Lemma pack_fff_length v bs : pack_fff v = Ok bs → length bs = 12%nat.
Proof using pack_f32_length.
  destruct v as [[x y] z]. unfold pack_fff. intros Hbs.
  apply bind_Ok in Hbs as (a & Ha%pack_f32_length & Hbs).
  apply bind_Ok in Hbs as (b & Hb%pack_f32_length & Hbs).
  apply bind_Ok in Hbs as (c & Hc%pack_f32_length & [= <-]).
  rewrite !length_app. lia.
Qed.

Lemma mapM_pack_fff_length (vertices : list vertex) vs :
  mapM pack_fff vertices = Ok vs → length (concat vs) = (12 * length vertices)%nat.
Proof using pack_f32_length.
  rewrite mapM_Ok. induction 1 as [|v bs vertices vs Hv _ IH]; simpl; [done|].
  rewrite length_app, IH, (pack_fff_length _ _ Hv). lia.
Qed.

Lemma write_read_file (vertices : list vertex) (faces : list face) fb bytes :
  write_bsp_binary vertices faces fb = Ok bytes →
  ∃ vs nds,
    mapM pack_fff vertices = Ok vs
    ∧ fb_nodes fb = Some <$> nds
    ∧ read_file bytes
      = Some {| bf_vertex_count := Z.of_nat (length vertices);
                bf_face_count := Z.of_nat (length faces);
                bf_node_count := Z.of_nat (length (fb_nodes fb));
                bf_vertex_bytes := concat vs;
                bf_faces := faces;
                bf_nodes := nds;
                bf_faces_on_plane := coplanar_indices fb |}
    ∧ Z.of_nat (length bytes)
      = 6 + 12 * Z.of_nat (length vertices)
        + Z.of_nat (length faces) + 2 * Z.of_nat (length (concat faces))
        + 10 * Z.of_nat (length (fb_nodes fb))
        + 2 * Z.of_nat (length (fb_faces_on_plane fb)).
Proof using pack_f32_length.
  unfold write_bsp_binary. intros Hw.
  apply bind_Ok in Hw as (hdr & Hhdr & Hw).
  apply bind_Ok in Hw as (vs & Hvs & Hw).
  apply bind_Ok in Hw as (fs & Hfs & Hw).
  apply bind_Ok in Hw as (ns & Hns & Hw).
  apply bind_Ok in Hw as (ts & Hts & [= <-]).
  destruct (read_nodes_pack _ _ (concat ts) Hns) as (nds & Hnds & Hread_nodes).
  exists vs, nds. split; [done|]. split; [done|]. split.
  - unfold read_file.
    pose proof (split_at_app hdr (concat vs ++ concat fs ++ concat ns ++ concat ts))
      as Hsplit.
    rewrite (pack_header_length _ _ _ _ Hhdr) in Hsplit. rewrite Hsplit.
    cbn [mbind option_bind]. rewrite (pack_header_unpack _ _ _ _ Hhdr).
    cbn [mbind option_bind].
    rewrite !Nat2Z.id, <- (mapM_pack_fff_length _ _ Hvs), split_at_app.
    cbn [mbind option_bind]. rewrite (read_faces_pack _ _ _ Hfs).
    cbn [mbind option_bind]. rewrite Hread_nodes. cbn [mbind option_bind].
    assert (unpack_Hs (concat ts) = Some (coplanar_indices fb)) as ->; [|done].
    apply unpack_Hs_pack. unfold coplanar_indices.
    clear -Hts. apply mapM_Ok in Hts. apply mapM_Ok.
    induction Hts as [|f bs fcs ts Hf _ IH]; simpl; constructor; auto.
  - rewrite !length_app, (pack_header_length _ _ _ _ Hhdr),
      (mapM_pack_fff_length _ _ Hvs).
    assert (length (concat fs) = (length faces + 2 * length (concat faces))%nat) as ->.
    { clear -Hfs. apply mapM_Ok in Hfs.
      induction Hfs as [|f bs faces fs Hf _ IH]; simpl; [done|].
      rewrite !length_app, IH, (pack_face_length _ _ Hf). lia. }
    assert (length (concat ns) = (10 * length (fb_nodes fb))%nat) as ->.
    { clear -Hns. apply mapM_Ok in Hns.
      induction Hns as [|s bs slots ns Hs _ IH]; simpl; [done|].
      rewrite !length_app, IH, (pack_node_length _ _ Hs). lia. }
    assert (length (concat ts) = (2 * length (fb_faces_on_plane fb))%nat) as ->.
    { clear -Hts. apply mapM_Ok in Hts.
      induction Hts as [|f bs fcs ts Hf _ IH]; simpl; [done|].
      rewrite !length_app, IH. unfold pack_coplanar in Hf.
      rewrite (pack_H_length _ _ Hf). lia. }
    lia.
Qed.

(** X17: a finished file can be read back.  A reader that knows only the
    format (header, 12 bytes per vertex, counted face records, node records
    of ten bytes, 16-bit table entries to the end of the file) recovers the
    three counts, every face, every node record and the coplanar table
    that [write_bsp_binary] was given, and consumes the file exactly. *)
Theorem write_bsp_binary_read_back (vertices : list vertex) (faces : list face)
    (fb : FlatBSP) (bytes : list byte) :
  write_bsp_binary vertices faces fb = Ok bytes →
  ∃ f, read_file bytes = Some f
    ∧ bf_vertex_count f = Z.of_nat (length vertices)
    ∧ bf_face_count f = Z.of_nat (length faces)
    ∧ bf_node_count f = Z.of_nat (length (fb_nodes fb))
    ∧ mapM pack_fff vertices ≫= (λ vs, Ok (concat vs)) = Ok (bf_vertex_bytes f)
    ∧ bf_faces f = faces
    ∧ Some <$> bf_nodes f = fb_nodes fb
    ∧ bf_faces_on_plane f = coplanar_indices fb.
Proof using pack_f32_length.
  intros Hw. destruct (write_read_file _ _ _ _ Hw) as (vs & nds & Hvs & Hnds & Hread & _).
  eexists. split; [exact Hread|]. simpl. by rewrite Hvs.
Qed.

(** X18: the size of a finished file: six bytes of header, twelve per
    vertex, one per face and two per vertex index of a face, ten per node
    and two per entry of the coplanar table. *)
Theorem write_bsp_binary_size (vertices : list vertex) (faces : list face)
    (fb : FlatBSP) (bytes : list byte) :
  write_bsp_binary vertices faces fb = Ok bytes →
  Z.of_nat (length bytes)
  = 6 + 12 * Z.of_nat (length vertices)
    + Z.of_nat (length faces) + 2 * Z.of_nat (length (concat faces))
    + 10 * Z.of_nat (length (fb_nodes fb))
    + 2 * Z.of_nat (length (fb_faces_on_plane fb)).
Proof using pack_f32_length.
  intros Hw. by destruct (write_read_file _ _ _ _ Hw) as (vs & nds & _ & _ & _ & Hlen).
Qed.

End ReadFile.

(** ** The two scripts in a row: [build_bsp.py], then [export_bsp_bin.py] *)

Lemma dicts_le_stored (t : dict_tree) :
  (∀ pf on tf tb, Dict pf on tf tb ∈ dicts t → on ≠ []) →
  (length (dicts t) ≤ length (stored t))%nat.
Proof.
  induction t as [|pf on f IHf b IHb]; intros Hne; simpl; [done|].
  rewrite !length_app.
  assert (on ≠ []) as Hon by (eapply Hne; simpl; by left).
  assert (length (dicts f) ≤ length (stored f))%nat.
  { apply IHf. intros pf' on' tf' tb' Hin. eapply Hne. simpl. right.
    apply elem_of_app. left. exact Hin. }
  assert (length (dicts b) ≤ length (stored b))%nat.
  { apply IHb. intros pf' on' tf' tb' Hin. eapply Hne. simpl. right.
    apply elem_of_app. right. exact Hin. }
  destruct on; [done|]. simpl. lia.
Qed.

Section LegacyPipeline.
Context `{Scalar}.
Variable py_sum : list F → F.

Lemma legacy_build_mentioned limit : ∀ faces vertices t,
  Legacy.build_bsp py_sum limit faces vertices = Ok t →
  Forall (λ f, f ∈ faces) (mentioned t).
Proof.
  induction limit as [|limit IH]; intros faces vertices t Hb; [discriminate|].
  destruct faces as [|f rest]; [by injection Hb as <-|].
  destruct (legacy_build_cons _ _ _ _ _ _ Hb) as (on & tf & tb & ->).
  apply legacy_build_inv in Hb
    as (limit' & rest' & pl & fr & bk & [= <-] & [= <-] & _ & Hall & Htf & Htb).
  apply legacy_classify_all_spec in Hall
    as (on1 & fr1 & bk1 & -> & -> & -> & Hperm & _).
  simpl in *.
  constructor; [by left|]. apply Forall_app. split; [|apply Forall_app; split].
  - apply Forall_forall. intros g Hg. rewrite Hperm. apply elem_of_app. by left.
  - eapply Forall_impl; [exact (IH _ _ _ Htf)|]. intros g Hg. simpl in Hg.
    rewrite Hperm. apply elem_of_app. right. apply elem_of_app. by left.
  - eapply Forall_impl; [exact (IH _ _ _ Htb)|]. intros g Hg. simpl in Hg.
    rewrite Hperm. apply elem_of_app. right. apply elem_of_app. by right.
Qed.

(** X19: the two legacy scripts in a row.  When the recursive builder of
    [build_bsp.py] returns a tree, the recursive flattener of
    [export_bsp_bin.py], run on that tree and the same face list with
    enough nested calls allowed, fills at most as many node slots as the
    mesh has faces, all of them; its coplanar table holds every face of the
    mesh exactly once; and the arrays read back as the tree. *)
Theorem legacy_pipeline_read_back (limit limit' : nat) (faces : list face)
    (vertices : list vertex) (t : dict_tree) :
  Legacy.build_bsp py_sum limit faces vertices = Ok t →
  (calls t ≤ limit')%nat →
  ∃ fb,
    Exporter.run limit' t faces = Ok fb
    ∧ (length (fb_nodes fb) ≤ length faces)%nat
    ∧ Forall is_Some (fb_nodes fb)
    ∧ fb_faces_on_plane fb ≡ₚ faces
    ∧ read_tree (length (fb_nodes fb)) fb (index_of t 0) = Some t.
Proof.
  intros Hb Hlim.
  destruct (exporter_run_read limit' t faces Hlim (legacy_build_mentioned _ _ _ _ Hb))
    as (fb & Hrun & _ & Hlen & Hfilled & Htable & Hread).
  pose proof (legacy_build_stored py_sum _ _ _ _ Hb) as Hperm.
  exists fb. split; [done|]. split; [|split; [done|]]; [|split; [by rewrite Htable|done]].
  rewrite Hlen, <- Hperm. apply dicts_le_stored.
  intros pf on tf tb Hin ->.
  by apply (legacy_splitter_first py_sum _ _ _ _ _ _ _ _ Hb) in Hin.
Qed.

End LegacyPipeline.

(** The binary64 instance packs every float it packs into four bytes. *)
Lemma pack_f_length (x : PrimFloat.float) bs :
  Binary64.pack_f x = Ok bs → length bs = 4%nat.
Proof. unfold Binary64.pack_f. destruct (Binary64.bits32 _); by intros [= <-]. Qed.

(** ** The main pipeline *)

Section PipelineOutcome.
Context `{Scalar}.
Variable py_sum : list F → F.
Variable py_float : Z → F.

Lemma py_min_total (xs : list F) : xs ≠ [] → ∃ m, py_min xs = Ok m.
Proof. destruct xs; [done|]. by eexists. Qed.

Lemma py_max_total (xs : list F) : xs ≠ [] → ∃ m, py_max xs = Ok m.
Proof. destruct xs; [done|]. by eexists. Qed.

Lemma center_and_scale_total (vertices : list vertex) (target_size : F) :
  ∃ scaled, center_and_scale py_sum py_float vertices target_size = Ok scaled
            ∧ length scaled = length vertices.
Proof.
  destruct vertices as [|v vs]; [by exists []|].
  unfold center_and_scale.
  set (centered := fmap _ (v :: vs)).
  assert (length centered = length (v :: vs)) as Hlen by apply length_fmap.
  assert (∀ g : vertex → F, g <$> centered ≠ []) as Hne.
  { intros g Hnil. apply (f_equal length) in Hnil.
    rewrite !length_fmap in Hnil. discriminate. }
  destruct (py_min_total _ (Hne v_0)) as [min0 ->].
  destruct (py_min_total _ (Hne v_1)) as [min1 ->].
  destruct (py_min_total _ (Hne v_2)) as [min2 ->].
  destruct (py_max_total _ (Hne v_0)) as [max0 ->].
  destruct (py_max_total _ (Hne v_1)) as [max1 ->].
  destruct (py_max_total _ (Hne v_2)) as [max2 ->].
  cbn [mbind result_bind py_max].
  eexists. split; [done|]. by rewrite length_fmap.
Qed.

(** X20: how [convert_obj_to_bsp] ends.  A failure of [read_obj] makes it
    return [False].  Centering and scaling never fails and keeps the number
    of vertices, so the indices of the faces stay in range.  On a mesh
    whose vertex indices are in range, a face of fewer than three vertices
    is not reported by [False]: the [ValueError] of [face_plane] leaves the
    function.  When every face has three vertices or more nothing is
    raised, and the function returns [True] exactly when the counts, the
    tree built from the scaled vertices, the faces and the scaled
    coordinates fit the fields of the format; the file then holds the
    scaled vertices. *)
Theorem convert_obj_to_bsp_outcome (py_id : loc → Z) (vertices : list vertex)
    (faces : list face) (target_size : option F) :
  Inj (=) (=) py_id →
  Forall (Forall (in_range vertices)) faces →
  (∀ e, convert_obj_to_bsp py_sum py_float py_id (Raise e) target_size = Ok None)
  ∧ ∃ scaled,
      center_and_scale py_sum py_float vertices
        (default (TARGET_SCALE_SIZE py_float) target_size) = Ok scaled
      ∧ length scaled = length vertices
      ∧ (Exists (λ f : face, (length f < 3)%nat) faces →
           convert_obj_to_bsp py_sum py_float py_id (Ok (vertices, faces)) target_size
           = Raise ValueError)
      ∧ (Forall (λ f : face, (3 ≤ length f)%nat) faces →
           ∃ t h root out,
             build_bsp faces scaled = Ok (h, root)
             ∧ represents faces h root t
             ∧ convert_obj_to_bsp py_sum py_float py_id (Ok (vertices, faces)) target_size
               = Ok out
             ∧ (is_Some out
                ↔ Z.of_nat (length vertices) ≤ 65535
                  ∧ Z.of_nat (length faces) ≤ 65535
                  ∧ Z.of_nat (size t) ≤ 32768
                  ∧ Forall (λ f : face, Z.of_nat (length f) ≤ 255 ∧ Forall (λ i, 0 ≤ i) f)
                           faces
                  ∧ Forall (λ v, ∃ bs, pack_fff v = Ok bs) scaled)
             ∧ (∀ bytes, out = Some bytes →
                  build_flatten_encode py_id scaled faces = Ok bytes)).
Proof.
  intros Hinj Hrange. split; [done|].
  destruct (center_and_scale_total vertices (default (TARGET_SCALE_SIZE py_float) target_size))
    as (scaled & Hscaled & Hlen).
  exists scaled. split; [done|]. split; [done|].
  assert (Forall (Forall (in_range scaled)) faces) as Hrange'.
  { eapply Forall_impl; [exact Hrange|]. intros f Hf.
    eapply Forall_impl; [exact Hf|]. intros i Hi. unfold in_range in *.
    by rewrite Hlen. }
  split.
  - intros Hex. unfold convert_obj_to_bsp. rewrite Hscaled. cbn [mbind result_bind].
    by destruct (build_bsp_short_face faces scaled Hrange' Hex) as [_ ->].
  - intros Hlong.
    assert (Forall (well_formed_face scaled) faces) as Hwf.
    { apply Forall_forall. intros f Hf. rewrite Forall_forall in Hlong, Hrange'.
      split; [by apply Hlong | by apply Hrange']. }
    destruct (pipeline_runs py_id scaled faces Hinj Hwf)
      as (t & h & root & fb & Hbuild & Hrepr & Hrun & Henc).
    rewrite Hlen in Henc. rewrite <- write_bsp_binary_Ok in Henc.
    unfold convert_obj_to_bsp, build_flatten_encode.
    rewrite Hscaled. cbn [mbind result_bind]. rewrite Hbuild. cbn [mbind result_bind].
    rewrite Hrun. cbn [mbind result_bind].
    destruct (write_bsp_binary scaled faces fb) as [bytes|e] eqn:Hw.
    + exists t, h, root, (Some bytes). split; [done|]. split; [done|]. split; [done|].
      split; [|by intros ? [= <-]].
      rewrite <- Henc. split; [by eexists|done].
    + exists t, h, root, None. split; [done|]. split; [done|]. split; [done|].
      split; [|done].
      rewrite <- Henc. split; [by intros [? [=]] | by intros [? [=]]].
Qed.

End PipelineOutcome.

(** * The properties on concrete meshes *)

Import Examples.

Lemma pts_tri_well_formed : Forall (well_formed_face pts) tri_faces.
Proof. repeat constructor; simpl; unfold in_range; simpl; lia. Defined.

Lemma addr_inj : Inj (=) (=) addr.
Proof. intros l l' Heq. unfold addr in Heq. lia. Defined.

Lemma of_nat_inj : Inj (=) (=) Z.of_nat.
Proof. intros l l' Heq. lia. Defined.

Lemma tri_faces_distinct : NoDup tri_faces.
Proof. compute_done. Defined.

Lemma face_plane_raises_iff_witness :
  ∃ pl, face_plane [0; 1; 2] pts = Ok pl.
Proof.
  destruct (face_plane_raises_iff [0; 1; 2] pts) as (_ & _ & Hok).
  - repeat constructor; unfold in_range; simpl; lia.
  - apply Hok. simpl. lia.
Defined.

Lemma face_plane_degenerate_witness :
  face_plane [0; 1; 2] line_pts
    = Ok {| point := (0, 0, 0)%float; normal := (0, 0, 1)%float |}
  ∧ ∀ g : face, Forall (in_range line_pts) g →
      ∃ s, classify_face g {| point := (0, 0, 0)%float; normal := (0, 0, 1)%float |}
             line_pts = Ok s.
Proof.
  apply (face_plane_degenerate [0; 1; 2] line_pts 0 1 2 []
           (0, 0, 0)%float (1, 0, 0)%float (2, 0, 0)%float); reflexivity.
Defined.

Lemma iterative_build_refines_recursive_witness :
  ∃ t h root,
    build_spec tri_faces pts = Ok t
    ∧ build_bsp tri_faces pts = Ok (h, root)
    ∧ represents tri_faces h root t.
Proof. exact (iterative_build_refines_recursive tri_faces pts pts_tri_well_formed). Defined.

Lemma coplanar_contains_splitter_witness :
  ∃ c f, tri_heap !! 2%nat = Some c
         ∧ n_plane_face c = Some f
         ∧ head (n_faces_on_plane c) = Some f
         ∧ f ∈ n_faces_on_plane c.
Proof.
  apply (coplanar_contains_splitter tri_faces pts tri_heap (Some 1%nat)
           pts_tri_well_formed).
  - vm_compute. reflexivity.
  - eapply reach_front; [reflexivity|]. simpl. apply reach_here.
Defined.

Lemma spanning_goes_front_witness :
  ∃ t h root,
    build_bsp tri_faces pts = Ok (h, root)
    ∧ represents tri_faces h root t
    ∧ (all_coplanar t ≡ₚ seq 0 (length tri_faces))
    ∧ ∀ pi on tf tb fi fp f pl,
        Node pi on tf tb ∈ subtrees t →
        fi ∈ all_coplanar (Node pi on tf tb) →
        fi ≠ pi →
        tri_faces !! pi = Some fp →
        face_plane fp pts = Ok pl →
        tri_faces !! fi = Some f →
        classify_face f pl pts = Ok Spanning →
        fi ∈ all_coplanar tf ∧ (fi ∉ all_coplanar tb) ∧ (fi ∉ on).
Proof. exact (spanning_goes_front tri_faces pts pts_tri_well_formed). Defined.

Lemma node_count_le_face_count_witness :
  ∃ t h root fb,
    build_bsp tri_faces pts = Ok (h, root)
    ∧ represents tri_faces h root t
    ∧ (size t ≤ length tri_faces)%nat
    ∧ flat_run addr h root tri_faces = Ok fb
    ∧ length (fb_nodes fb) = size t
    ∧ ∀ bytes, write_bsp_binary pts tri_faces fb = Ok bytes →
        take 6 bytes = le16 (Z.of_nat (length pts))
                       ++ le16 (Z.of_nat (length tri_faces))
                       ++ le16 (Z.of_nat (size t)).
Proof.
  exact (node_count_le_face_count addr tri_faces pts addr_inj pts_tri_well_formed).
Defined.

Lemma each_face_in_one_run_witness :
  ∃ h root fb,
    build_bsp tri_faces pts = Ok (h, root)
    ∧ flat_run addr h root tri_faces = Ok fb
    ∧ (coplanar_indices fb ≡ₚ map Z.of_nat (seq 0 (length tri_faces)))
    ∧ ∀ i, (i < length tri_faces)%nat →
        ∃ k nd, fb_nodes fb !! k = Some (Some nd)
          ∧ Z.of_nat i ∈ coplanar_run fb nd
          ∧ ∀ k' nd', fb_nodes fb !! k' = Some (Some nd') →
              Z.of_nat i ∈ coplanar_run fb nd' → k' = k.
Proof.
  exact (each_face_in_one_run addr tri_faces pts addr_inj pts_tri_well_formed
           tri_faces_distinct).
Defined.

Lemma pipeline_deterministic_witness :
  build_flatten_encode Z.of_nat pts tri_faces = build_flatten_encode addr pts tri_faces
  ∧ ∀ (h : heap) root,
      flat_run Z.of_nat h root tri_faces = flat_run addr h root tri_faces.
Proof. exact (pipeline_deterministic Z.of_nat addr pts tri_faces of_nat_inj addr_inj). Defined.

Lemma sentinel_only_on_failed_lookup_witness :
  ∃ h root m fb,
    build_bsp tri_faces pts = Ok (h, root)
    ∧ node_to_idx addr h root = Ok m
    ∧ flat_run addr h root tri_faces = Ok fb
    ∧ (∀ l, reachable h root l →
         ∃ k c f nd,
           m !! addr l = Some k
           ∧ h !! l = Some c
           ∧ n_plane_face c = Some f
           ∧ fb_nodes fb !! k = Some (Some nd)
           ∧ tri_faces !! Z.to_nat (plane_face_idx nd) = Some f
           ∧ 0 ≤ plane_face_idx nd < Z.of_nat (length tri_faces)
           ∧ (Z.of_nat (length tri_faces) ≤ 65535 → plane_face_idx nd ≠ 0xFFFF))
    ∧ (∀ k slot, fb_nodes fb !! k = Some slot →
         ∃ l, reachable h root l ∧ m !! addr l = Some k).
Proof.
  exact (proj2 (proj2 (sentinel_only_on_failed_lookup addr tri_faces pts addr_inj
                         pts_tri_well_formed))).
Defined.

(** A tree flattened against a face list that lacks its splitting face:
    no call raises, the file is complete (61 bytes), and its planeFaceIdx
    field, at offset 49, is FF FF. *)
Lemma sentinel_written_counterexample :
  flat_run addr stray_heap (Some 0%nat) [[0; 1; 2]] = Ok stray_flat
  ∧ ∃ bytes, write_bsp_binary (take 3 pts) [[0; 1; 2]] stray_flat = Ok bytes
             ∧ length bytes = 61%nat
             ∧ take 2 (drop 49 bytes) = ["255"%byte; "255"%byte].
Proof.
  split; [vm_compute; reflexivity|].
  eexists. split; [vm_compute; reflexivity|]. split; reflexivity.
Qed.

(** Two equal faces: both entries of the coplanar table resolve to index
    0, so index 1 is in no run and index 0 is there twice. *)
Lemma duplicate_faces_counterexample :
  (build_bsp dup_faces pts ≫= λ '(h, root), flat_run addr h root dup_faces)
    = Ok dup_flat
  ∧ coplanar_indices dup_flat = [0; 0]
  ∧ (∀ nd, Some nd ∈ fb_nodes dup_flat → 1 ∉ coplanar_run dup_flat nd).
Proof.
  split; [vm_compute; reflexivity|]. split; [reflexivity|].
  intros nd Hnd. apply list_elem_of_singleton in Hnd. injection Hnd as ->.
  change (coplanar_run dup_flat dup_node) with [0; 0].
  intros Hin. apply elem_of_cons in Hin as [?|Hin]; [done|].
  apply elem_of_cons in Hin as [?|Hin]; [done|]. by apply elem_of_nil in Hin.
Qed.

Lemma chain_within_bounds n :
  32769 ≤ Z.of_nat n < 65534 →
  within_stated_bounds (chain_vertices n) (chain_faces n) (chain_flat n).
Proof.
  intros Hn. unfold within_stated_bounds, chain_vertices, chain_faces, chain_flat.
  cbn [fb_nodes fb_faces fb_faces_on_plane].
  rewrite length_replicate, !length_map, length_seq.
  split; [lia|]. split; [lia|]. split; [lia|]. split; [|split].
  - apply Forall_fmap, Forall_seq. intros k Hk. simpl.
    split; [lia|]. repeat constructor; lia.
  - apply Forall_fmap, Forall_seq. intros k Hk. simpl.
    eexists. split; [reflexivity|]. simpl.
    destruct (S k <? n)%nat; lia.
  - apply Forall_forall. intros f _. unfold find_face_idx.
    match goal with
    | |- context [find_face_from 0 ?l ?o] =>
        destruct (find_face_from_range 0 l o) as [->|Hr]; [lia|]
    end.
    unfold chain_faces in *. rewrite length_map, length_seq in Hr. lia.
Qed.

Lemma chain_raises n :
  32769 ≤ Z.of_nat n →
  ∃ e, write_bsp_binary (chain_vertices n) (chain_faces n) (chain_flat n) = Raise e.
Proof.
  intros Hn.
  destruct (result_cases (write_bsp_binary (chain_vertices n) (chain_faces n)
                            (chain_flat n))) as [[bytes Hb]|?]; [|done].
  exfalso.
  apply (exceeds_not_encodable (chain_vertices n) (chain_faces n) (chain_flat n)).
  - do 4 right. left. eexists. split.
    + unfold chain_flat. cbn [fb_nodes].
      apply (list_elem_of_fmap_2 (chain_node n) (seq 0 n) (Z.to_nat 32767)).
      apply elem_of_seq. lia.
    + do 3 right. left. cbn [front_node_idx].
      destruct (Nat.ltb_spec (S (Z.to_nat 32767)) n); lia.
  - apply write_bsp_binary_Ok. by eexists.
Qed.

(** The flattened chain of 32769 nodes is within the bounds that the
    claim names, and the encoder raises on it: the front index 32768 of
    node 32767 does not fit the signed field. *)
Lemma encoder_child_index_counterexample :
  within_stated_bounds (chain_vertices long_chain) (chain_faces long_chain)
    (chain_flat long_chain)
  ∧ ∃ e, write_bsp_binary (chain_vertices long_chain) (chain_faces long_chain)
           (chain_flat long_chain) = Raise e.
Proof.
  split; [apply chain_within_bounds | apply chain_raises]; unfold long_chain; lia.
Qed.

(** ** The further properties on concrete meshes *)

Lemma pts_tri_in_range : Forall (Forall (in_range pts)) ([0; 1] :: tri_faces).
Proof. repeat constructor; unfold in_range; simpl; lia. Defined.

Lemma build_bsp_orders_faces_witness :
  ∃ t h root,
    build_bsp tri_faces pts = Ok (h, root)
    ∧ represents tri_faces h root t
    ∧ ∀ pi on tf tb, Node pi on tf tb ∈ subtrees t →
        ∃ fp pl,
          tri_faces !! pi = Some fp
          ∧ face_plane fp pts = Ok pl
          ∧ head on = Some pi
          ∧ (∀ fi, fi ∈ tail on → class_of tri_faces pts pl fi On)
          ∧ (∀ fi, fi ∈ all_coplanar tf →
               class_of tri_faces pts pl fi Front
               ∨ class_of tri_faces pts pl fi Spanning)
          ∧ (∀ fi, fi ∈ all_coplanar tb → class_of tri_faces pts pl fi Back).
Proof. exact (build_bsp_orders_faces tri_faces pts pts_tri_well_formed). Defined.

Lemma build_bsp_rejects_short_face_witness :
  ((∃ e, build_bsp ([0; 1] :: tri_faces) pts = Raise e)
     ↔ Exists (λ f : face, (length f < 3)%nat) ([0; 1] :: tri_faces))
  ∧ (∀ e, build_bsp ([0; 1] :: tri_faces) pts = Raise e →
       e = ValueError
       ∧ mapM (λ f, face_plane f pts) ([0; 1] :: tri_faces) = Raise ValueError).
Proof. exact (build_bsp_rejects_short_face ([0; 1] :: tri_faces) pts pts_tri_in_range). Defined.

Lemma flatten_read_back_witness :
  ∃ t h root ri fb,
    build_bsp tri_faces pts = Ok (h, root)
    ∧ represents tri_faces h root t
    ∧ flatten addr h root
        {| fb_nodes := []; fb_faces_on_plane := []; fb_faces := tri_faces |}
      = Ok (ri, fb)
    ∧ read_tree (length (fb_nodes fb)) fb ri = Some (dict_of tri_faces t).
Proof. exact (flatten_read_back addr tri_faces pts addr_inj pts_tri_well_formed). Defined.

Lemma flat_arrays_well_formed_witness :
  ∃ h root fb,
    build_bsp tri_faces pts = Ok (h, root)
    ∧ flat_run addr h root tri_faces = Ok fb
    ∧ length (fb_faces_on_plane fb) = length tri_faces
    ∧ (∀ k slot, fb_nodes fb !! k = Some slot →
         ∃ nd, slot = Some nd
           ∧ (front_node_idx nd = -1
              ∨ 1 ≤ front_node_idx nd < Z.of_nat (length (fb_nodes fb)))
           ∧ (back_node_idx nd = -1
              ∨ 1 ≤ back_node_idx nd < Z.of_nat (length (fb_nodes fb)))
           ∧ 1 ≤ faces_on_plane_count nd
           ∧ 0 ≤ faces_on_plane_idx_start nd
           ∧ faces_on_plane_idx_start nd + faces_on_plane_count nd
             ≤ Z.of_nat (length (fb_faces_on_plane fb)))
    ∧ (∀ k, (1 ≤ k < length (fb_nodes fb))%nat →
         ∃ nd, Some nd ∈ fb_nodes fb
               ∧ (front_node_idx nd = Z.of_nat k ∨ back_node_idx nd = Z.of_nat k)).
Proof. exact (flat_arrays_well_formed addr tri_faces pts addr_inj pts_tri_well_formed). Defined.

Lemma pipeline_succeeds_iff_witness :
  ∃ t h root,
    build_bsp tri_faces pts = Ok (h, root)
    ∧ represents tri_faces h root t
    ∧ ((∃ bytes, build_flatten_encode addr pts tri_faces = Ok bytes)
       ↔ Z.of_nat (length pts) ≤ 65535
         ∧ Z.of_nat (length tri_faces) ≤ 65535
         ∧ Z.of_nat (size t) ≤ 32768
         ∧ Forall (λ f : face, Z.of_nat (length f) ≤ 255 ∧ Forall (λ i, 0 ≤ i) f)
                  tri_faces
         ∧ Forall (λ v, ∃ bs, pack_fff v = Ok bs) pts).
Proof. exact (pipeline_succeeds_iff addr pts tri_faces addr_inj pts_tri_well_formed). Defined.

Lemma flatteners_agree_witness :
  ∃ t h root fb fb',
    build_bsp tri_faces pts = Ok (h, root)
    ∧ represents tri_faces h root t
    ∧ flat_run addr h root tri_faces = Ok fb
    ∧ Exporter.run (calls (dict_of tri_faces t)) (dict_of tri_faces t) tri_faces = Ok fb'
    ∧ length (fb_nodes fb) = length (fb_nodes fb')
    ∧ fb_faces_on_plane fb = fb_faces_on_plane fb'
    ∧ read_tree (length (fb_nodes fb)) fb (index_of (dict_of tri_faces t) 0)
      = Some (dict_of tri_faces t)
    ∧ read_tree (length (fb_nodes fb')) fb' (index_of (dict_of tri_faces t) 0)
      = Some (dict_of tri_faces t).
Proof. exact (flatteners_agree addr tri_faces pts addr_inj pts_tri_well_formed). Defined.

Lemma tri_dict_mentioned : Forall (λ f, f ∈ tri_faces) (mentioned tri_dict).
Proof. repeat constructor; compute_done. Defined.

Lemma exporter_read_back_witness :
  ∃ fb,
    Exporter.run 4 tri_dict tri_faces = Ok fb
    ∧ length (fb_nodes fb) = length (dicts tri_dict)
    ∧ Forall is_Some (fb_nodes fb)
    ∧ fb_faces_on_plane fb = stored tri_dict
    ∧ read_tree (length (fb_nodes fb)) fb (index_of tri_dict 0) = Some tri_dict.
Proof.
  apply (exporter_read_back 4 tri_dict tri_faces); [simpl; lia | exact tri_dict_mentioned].
Defined.

(** ** The recursive builder on the same meshes *)

Lemma legacy_build_tri : Legacy.build_bsp sum64 4 tri_faces pts = Ok tri_dict.
Proof. vm_compute. reflexivity. Defined.

Lemma pentagon_well_formed : Forall (well_formed_face pts) [pentagon].
Proof. repeat constructor; simpl; unfold in_range; simpl; lia. Defined.

Lemma legacy_face_plane_raises_iff_witness :
  ((∃ e, Legacy.face_plane sum64 [0; 1; 2] pts = Raise e) ↔ (3 < 3)%nat)
  ∧ (∀ e, Legacy.face_plane sum64 [0; 1; 2] pts = Raise e → e = ValueError).
Proof.
  apply (@legacy_face_plane_raises_iff Binary64.binary64 sum64 [0; 1; 2] pts).
  repeat constructor; unfold in_range; simpl; lia.
Defined.

Lemma sum64_zeros a b c :
  zero64 a → zero64 b → zero64 c → zero64 (sum64 [a; b; c]).
Proof.
  intros Ha Hb Hc. unfold sum64. simpl.
  repeat apply add_zeros; try done. by exists false.
Qed.

(** The face [0; 0; 1] names its first vertex twice. *)
Lemma legacy_face_plane_repeated_vertex_witness :
  Legacy.face_plane sum64 [0; 0; 1] pts
  = Ok {| point := (0, 0, 0)%float; normal := (0, 0, 1)%float |}.
Proof.
  apply (legacy_face_plane_repeated_vertex sum64 pts 0 0 1 []
           (0, 0, 0)%float (0, 0, 0)%float (1, 0, 0)%float sum64_zeros);
    try reflexivity.
  by left.
Defined.

Lemma legacy_coplanar_contains_splitter_witness :
  Legacy.build_bsp sum64 4 tri_faces pts = Ok tri_dict
  ∧ head [[3; 2; 4]] = Some [3; 2; 4]
  ∧ [3; 2; 4] ∈ [[3; 2; 4]].
Proof.
  split; [exact legacy_build_tri|].
  apply (@legacy_coplanar_contains_splitter Binary64.binary64 sum64 4 tri_faces pts
           tri_dict [3; 2; 4] [[3; 2; 4]] PyNone PyNone legacy_build_tri).
  simpl. right. right. left.
Defined.

(** The triangle [3; 2; 4] spans the plane of the first triangle. *)
Lemma legacy_spanning_goes_front_witness :
  Legacy.classify_face sum64 [3; 2; 4] plane_z0 pts = Ok Spanning
  ∧ [3; 2; 4] ∈ [[0; 1; 3]; [3; 2; 4]]
  ∧ ([3; 2; 4] ∉ [[1; 2; 4]])
  ∧ ([3; 2; 4] ∉ [[0; 1; 2]]).
Proof.
  assert (Legacy.classify_face sum64 [3; 2; 4] plane_z0 pts = Ok Spanning)
    as Hspan by (vm_compute; reflexivity).
  split; [exact Hspan|].
  apply (@legacy_spanning_goes_front Binary64.binary64 sum64 4 tri_faces pts tri_dict
           [0; 1; 2] [[0; 1; 2]]
           (Dict [0; 1; 3] [[0; 1; 3]] PyNone (Dict [3; 2; 4] [[3; 2; 4]] PyNone PyNone))
           (Dict [1; 2; 4] [[1; 2; 4]] PyNone PyNone)
           plane_z0 [3; 2; 4]
           legacy_build_tri).
  - left.
  - reflexivity.
  - simpl. right. right. left.
  - exact Hspan.
Defined.

(** The pentagon spans its own plane: the recursion never returns. *)
Lemma legacy_build_recursion_error_witness :
  Legacy.build_bsp sum64 1000 [pentagon] pts = Raise RecursionError.
Proof.
  apply (@legacy_build_recursion_error Binary64.binary64 sum64 1000 pentagon [] pts
           plane_z0 Spanning
           pentagon_well_formed).
  - reflexivity.
  - vm_compute. reflexivity.
  - discriminate.
Defined.

Lemma legacy_build_orders_faces_witness :
  stored tri_dict ≡ₚ tri_faces
  ∧ ∀ pf on tf tb, Dict pf on tf tb ∈ dicts tri_dict →
      ∃ pl, Legacy.face_plane sum64 pf pts = Ok pl
        ∧ Forall (λ g, Legacy.classify_face sum64 g pl pts = Ok On) on
        ∧ Forall (λ g, Legacy.classify_face sum64 g pl pts = Ok Front
                       ∨ Legacy.classify_face sum64 g pl pts = Ok Spanning)
                 (stored tf)
        ∧ Forall (λ g, Legacy.classify_face sum64 g pl pts = Ok Back) (stored tb).
Proof.
  exact (@legacy_build_orders_faces Binary64.binary64 sum64 4 tri_faces pts tri_dict
           legacy_build_tri).
Defined.

(** ** Files read back *)

Lemma dup_written : write_bsp_binary pts dup_faces dup_flat = Ok dup_bytes.
Proof. vm_compute. reflexivity. Defined.

Lemma write_bsp_binary_read_back_witness :
  ∃ f, read_file dup_bytes = Some f
    ∧ bf_vertex_count f = 5
    ∧ bf_face_count f = 2
    ∧ bf_node_count f = 1
    ∧ mapM pack_fff pts ≫= (λ vs, Ok (concat vs)) = Ok (bf_vertex_bytes f)
    ∧ bf_faces f = dup_faces
    ∧ Some <$> bf_nodes f = [Some dup_node]
    ∧ bf_faces_on_plane f = [0; 0].
Proof.
  exact (@write_bsp_binary_read_back Binary64.binary64 pack_f_length
           pts dup_faces dup_flat dup_bytes dup_written).
Defined.

Lemma write_bsp_binary_size_witness : Z.of_nat (length dup_bytes) = 94.
Proof.
  exact (@write_bsp_binary_size Binary64.binary64 pack_f_length
           pts dup_faces dup_flat dup_bytes dup_written).
Defined.

Lemma legacy_pipeline_read_back_witness :
  ∃ fb,
    Exporter.run 4 tri_dict tri_faces = Ok fb
    ∧ (length (fb_nodes fb) ≤ length tri_faces)%nat
    ∧ Forall is_Some (fb_nodes fb)
    ∧ fb_faces_on_plane fb ≡ₚ tri_faces
    ∧ read_tree (length (fb_nodes fb)) fb (index_of tri_dict 0) = Some tri_dict.
Proof.
  apply (@legacy_pipeline_read_back Binary64.binary64 sum64 4 4 tri_faces pts tri_dict
           legacy_build_tri).
  simpl. lia.
Defined.

(** ** The main pipeline on the four triangles *)

Lemma convert_obj_to_bsp_outcome_witness :
  (∀ e, convert_obj_to_bsp sum64 float_of_Z addr (Raise e) (Some 10%float) = Ok None)
  ∧ ∃ scaled,
      center_and_scale sum64 float_of_Z pts 10%float = Ok scaled
      ∧ length scaled = length pts
      ∧ (Exists (λ f : face, (length f < 3)%nat) ([0; 1] :: tri_faces) →
           convert_obj_to_bsp sum64 float_of_Z addr (Ok (pts, [0; 1] :: tri_faces))
             (Some 10%float)
           = Raise ValueError)
      ∧ (Forall (λ f : face, (3 ≤ length f)%nat) ([0; 1] :: tri_faces) →
           ∃ t h root out,
             build_bsp ([0; 1] :: tri_faces) scaled = Ok (h, root)
             ∧ represents ([0; 1] :: tri_faces) h root t
             ∧ convert_obj_to_bsp sum64 float_of_Z addr (Ok (pts, [0; 1] :: tri_faces))
                 (Some 10%float)
               = Ok out
             ∧ (is_Some out
                ↔ Z.of_nat (length pts) ≤ 65535
                  ∧ Z.of_nat (length ([0; 1] :: tri_faces)) ≤ 65535
                  ∧ Z.of_nat (size t) ≤ 32768
                  ∧ Forall (λ f : face, Z.of_nat (length f) ≤ 255 ∧ Forall (λ i, 0 ≤ i) f)
                           ([0; 1] :: tri_faces)
                  ∧ Forall (λ v, ∃ bs, pack_fff v = Ok bs) scaled)
             ∧ (∀ bytes, out = Some bytes →
                  build_flatten_encode addr scaled ([0; 1] :: tri_faces) = Ok bytes)).
Proof.
  exact (@convert_obj_to_bsp_outcome Binary64.binary64 sum64 float_of_Z addr pts
           ([0; 1] :: tri_faces) (Some 10%float) addr_inj pts_tri_in_range).
Defined.
